(** * worker-news: the DOM-based scraper of [src/routes/api/dom-api.ts]

    A shallow embedding of the extraction engine: the handlers registered on
    the HTML rewriter ([storiesGenerator], [scrapeComments],
    [commentsGenerator], [threadsGenerator]), the event-target bridge between
    the handlers and the [for await] consumers, the resolvable [moreLink]
    promise, and the repair functions applied at emission ([fixComment], the
    job reclassification).

    Conventions.
    - A JavaScript string is a [string]; its characters stand for code units
      below 256.
    - A JavaScript number is a [jsnum]: [NaN], an infinity, or a finite
      double held as a rational; a value that is not a double is rounded to
      the nearest one ([to_double]).
    - A JavaScript object is an [item] whose properties are all optional; the
      objects live in a store ([heap]) and are passed around by reference
      (an index in the store), because the handlers keep mutating an object
      after it has been handed to the bridge.
    - An asynchronous pass is a list of [action]s: the handler invocations in
      document order, interleaved with the consumer's pulls. *)

From Stdlib Require Import ZArith QArith Qround String Ascii List Lia Bool.
From stdpp Require Import base list strings.
Import ListNotations.

Open Scope string_scope.
Open Scope list_scope.
Open Scope Z_scope.

(** ** Strings *)

Module JsString.

Definition code (c : ascii) : N := N_of_ascii c.

(** WhiteSpace and LineTerminator code units below 256: TAB, LF, VT, FF,
    CR, SP, NBSP. *)
Definition is_ws (c : ascii) : bool :=
  let n := code c in
  ((9 <=? n) && (n <=? 13) || (n =? 32) || (n =? 160))%N.

(** The regular-expression class [\d]. *)
Definition is_digit (c : ascii) : bool :=
  let n := code c in ((48 <=? n) && (n <=? 57))%N.

Definition digit_val (c : ascii) : Z := Z.of_N (code c) - 48.

Fixpoint trimStart (s : string) : string :=
  match s with
  | String c s' => if is_ws c then trimStart s' else s
  | EmptyString => EmptyString
  end.

Fixpoint trimEnd (s : string) : string :=
  match s with
  | EmptyString => EmptyString
  | String c s' =>
      match trimEnd s' with
      | EmptyString => if is_ws c then EmptyString else String c EmptyString
      | t => String c t
      end
  end.

Definition trim (s : string) : string := trimStart (trimEnd s).

(** [s.substr(n)] *)
Fixpoint substr (n : nat) (s : string) : string :=
  match n, s with
  | O, _ => s
  | S n', String _ s' => substr n' s'
  | S _, EmptyString => EmptyString
  end.

(** A string in a boolean position: only the empty string is falsy. *)
Definition truthy (s : string) : bool :=
  match s with EmptyString => false | _ => true end.

(** [text.trimStart().match(/^\d/)] as a condition. *)
Definition starts_with_digit (text : string) : bool :=
  match trimStart text with
  | String c _ => is_digit c
  | EmptyString => false
  end.

(** The longest prefix made of digits, and what follows it. *)
Fixpoint span_digits (s : string) : string * string :=
  match s with
  | String c s' =>
      if is_digit c
      then let '(d, r) := span_digits s' in (String c d, r)
      else (EmptyString, s)
  | EmptyString => (EmptyString, EmptyString)
  end.

(** The mathematical value of a string of decimal digits. *)
Fixpoint digits_value (acc : Z) (s : string) : Z :=
  match s with
  | String c s' => digits_value (10 * acc + digit_val c) s'
  | EmptyString => acc
  end.

Fixpoint all_digits (s : string) : bool :=
  match s with
  | String c s' => is_digit c && all_digits s'
  | EmptyString => true
  end.

Fixpoint strip_prefix (p s : string) : option string :=
  match p, s with
  | EmptyString, _ => Some s
  | String a p', String b s' => if Ascii.eqb a b then strip_prefix p' s' else None
  | String _ _, EmptyString => None
  end.

Fixpoint join (sep : string) (l : list string) : string :=
  match l with
  | [] => ""
  | [x] => x
  | x :: l' => x +:+ sep +:+ join sep l'
  end.

End JsString.
Import JsString.

(** ** Numbers *)

(** A JavaScript number, an IEEE 754 double: not a number, an infinity,
    or a finite double, held as the rational that it is.  The sign of zero
    is not kept: no operation of the scraper tells the two zeros apart. *)
Inductive jsnum : Type :=
| NaN
| Inf (negative : bool)
| Fin (q : Q).

(** An integer that is a double as it stands (see [to_double] for the
    others). *)
Definition of_Z (z : Z) : jsnum := Fin (inject_Z z).

Definition neg (x : jsnum) : jsnum :=
  match x with
  | NaN => NaN
  | Inf b => Inf (negb b)
  | Fin q => Fin (Qred (- q))
  end.

Definition pow2 (e : Z) : Q :=
  if 0 <=? e then inject_Z (2 ^ e) else (1 / inject_Z (2 ^ (- e)))%Q.

Definition pow10 (e : Z) : Q :=
  if 0 <=? e then inject_Z (10 ^ e) else (1 / inject_Z (10 ^ (- e)))%Q.

(** The double nearest to a positive rational [q] (roundTiesToEven): with
    [2^e <= q < 2^(e+1)], the doubles around [q] are the multiples of
    [2^u], where [u = e - 52], and [u = -1074] for the subnormal ones;
    what reaches [2^1024] is the infinity. *)
Definition round_pos (q : Q) : jsnum :=
  let e0 := Z.log2 (Qnum q) - Z.log2 (Zpos (Qden q)) in
  let e := if Qle_bool (pow2 e0) q then e0 else e0 - 1 in
  let u := Z.max (e - 52) (-1074) in
  let m := (q / pow2 u)%Q in
  let n := Qfloor m in
  let n' := match (m - inject_Z n ?= 1 # 2)%Q with
            | Gt => n + 1
            | Eq => if Z.even n then n else n + 1
            | Lt => n
            end in
  let v := (inject_Z n' * pow2 u)%Q in
  if Qle_bool (pow2 1024) v then Inf false else Fin (Qred v).

(** An integer up to [2^53] in magnitude is a double as it stands. *)
Definition is_safe_integer (q : Q) : bool :=
  (Qden q =? 1)%positive && (Z.abs (Qnum q) <=? 2 ^ 53).

(** The Number value for a mathematical value: the value itself when it
    is a double, otherwise the nearest double. *)
Definition to_double (q : Q) : jsnum :=
  let q := Qred q in
  if is_safe_integer q then Fin q
  else match Qnum q with
       | Z0 => Fin q
       | Zpos _ => round_pos q
       | Zneg _ => neg (round_pos (- q))
       end.

(** A sign prefix of a numeric literal. *)
Definition split_sign (s : string) : Z * string :=
  match s with
  | String "-" r => (-1, r)
  | String "+" r => (1, r)
  | _ => (1, s)
  end.

(** [parseInt(text, 10)]: leading white space is skipped, a sign is read,
    then the longest run of digits; anything after it is ignored, and no
    digit at all gives [NaN].  The result is the Number value for the
    integer read.  (Beyond 20 significant digits the language lets an
    engine round the digits first; the engines at hand do not.) *)
Definition parseInt (text : string) : jsnum :=
  let '(sign, s) := split_sign (trimStart text) in
  match fst (span_digits s) with
  | EmptyString => NaN
  | ds => to_double (inject_Z (sign * digits_value 0 ds))
  end.

(** The value of a digit in a radix up to 16. *)
Definition digit_in (radix : Z) (c : ascii) : option Z :=
  let n := Z.of_N (code c) in
  let v := if (48 <=? n) && (n <=? 57) then Some (n - 48)
           else if (97 <=? n) && (n <=? 102) then Some (n - 87)
           else if (65 <=? n) && (n <=? 70) then Some (n - 55)
           else None in
  match v with
  | Some d => if d <? radix then Some d else None
  | None => None
  end.

Fixpoint radix_value (radix acc : Z) (s : string) : option Z :=
  match s with
  | EmptyString => Some acc
  | String c s' =>
      match digit_in radix c with
      | Some d => radix_value radix (radix * acc + d) s'
      | None => None
      end
  end.

(** NonDecimalIntegerLiteral: [0x], [0o] or [0b], in either case, and at
    least one digit of that radix. *)
Definition non_decimal (t : string) : option Z :=
  match t with
  | String "0" (String c ds) =>
      let radix := if Ascii.eqb c "x" || Ascii.eqb c "X" then Some 16
                   else if Ascii.eqb c "o" || Ascii.eqb c "O" then Some 8
                   else if Ascii.eqb c "b" || Ascii.eqb c "B" then Some 2
                   else None in
      match radix, ds with
      | Some r, String _ _ => radix_value r 0 ds
      | _, _ => None
      end
  | _ => None
  end.

(** ExponentPart, when there is one: [e] or [E] and a signed integer that
    ends the literal. *)
Definition exponent_part (s : string) : option Z :=
  match s with
  | EmptyString => Some 0
  | String c r =>
      if Ascii.eqb c "e" || Ascii.eqb c "E"
      then let '(sign, r') := split_sign r in
           match span_digits r' with
           | (String d ds, EmptyString) => Some (sign * digits_value 0 (String d ds))
           | _ => None
           end
      else None
  end.

(** StrUnsignedDecimalLiteral: [Infinity], or digits with an optional
    fraction and an optional exponent, at least one digit before or after
    the point. *)
Definition unsigned_decimal (u : string) : option jsnum :=
  if String.eqb u "Infinity" then Some (Inf false)
  else
    let '(int, r1) := span_digits u in
    let '(frac, r2) := match r1 with
                       | String "." r => span_digits r
                       | _ => (EmptyString, r1)
                       end in
    match int +:+ frac with
    | EmptyString => None
    | ds =>
        match exponent_part r2 with
        | Some k =>
            Some (to_double (inject_Z (digits_value 0 ds)
                             * pow10 (k - Z.of_nat (String.length frac))))
        | None => None
        end
    end.

(** [Number(s)] on a string (StringToNumber): white space is stripped at
    both ends; the empty string converts to 0; what remains must be a
    numeric literal as a whole, decimal with an optional sign, or binary,
    octal or hexadecimal without one, and converts to the Number value for
    its mathematical value; anything else gives [NaN].  (Beyond 20
    significant digits the language lets an engine round the digits first;
    the engines at hand do not.) *)
Definition Number (s : string) : jsnum :=
  match trim s with
  | EmptyString => of_Z 0
  | t =>
      match non_decimal t with
      | Some n => to_double (inject_Z n)
      | None =>
          let '(sign, u) := split_sign t in
          match unsigned_decimal u with
          | Some x => if sign =? 1 then x else neg x
          | None => NaN
          end
      end
  end.

(** [Number(el.getAttribute(name))]: a missing attribute is [null], and
    [Number(null)] is 0. *)
Definition Number_attr (a : option string) : jsnum :=
  match a with
  | Some s => Number s
  | None => of_Z 0
  end.

(** [x / 40] on numbers: the double nearest to the quotient. *)
Definition div40 (x : jsnum) : jsnum :=
  match x with
  | NaN => NaN
  | Inf b => Inf b
  | Fin q => to_double (q / inject_Z 40)
  end.

(** A number is a non-negative integer. *)
Definition is_nonneg_integer (x : jsnum) : Prop :=
  exists n : Z, 0 <= n /\ x = of_Z n.

(** A number that counts: a non-negative integer, or the positive
    infinity (the Number value for an integer of 309 digits or more). *)
Definition is_count (x : jsnum) : Prop :=
  x = Inf false \/ is_nonneg_integer x.

(** [/item\?id=(\d+)/.exec(s)?.[1]]: the digits after the leftmost
    occurrence of [item?id=] that is followed by a digit. *)
Fixpoint exec_item_id (s : string) : option string :=
  match s with
  | EmptyString => None
  | String _ s' =>
      match strip_prefix "item?id=" s with
      | Some rest =>
          match fst (span_digits rest) with
          | EmptyString => exec_item_id s'
          | ds => Some ds
          end
      | None => exec_item_id s'
      end
  end.

(** [const extractId = (href) => Number(/item\?id=(\d+)/.exec(href ?? '')?.[1])];
    [Number(undefined)] is [NaN]. *)
Definition extractId (href : option string) : jsnum :=
  match exec_item_id (default "" href) with
  | Some ds => Number ds
  | None => NaN
  end.

(** ** Elements and objects *)

(** What a handler sees of an element: its tag name, its attributes in
    the order given, and whether it can have content.  An element that
    cannot (a void element such as [br] or [img], a self-closing element of
    foreign content) has no end tag for the rewriter. *)
Record Element : Type := {
  tagName : string;
  attributes : list (string * string);
  canHaveContent : bool
}.

Definition getAttribute (el : Element) (name : string) : option string :=
  snd <$> List.find (fun kv => String.eqb (fst kv) name) (attributes el).

(** The one-character string holding a double quote. *)
Definition dquote : string := String (ascii_of_nat 34) EmptyString.

(** [const elToTagOpen = (el) =>
      `<${el.tagName} ${[...el.attributes].map(x => `${x[0]}="${x[1]}"`).join(' ')}>`] *)
Definition elToTagOpen (el : Element) : string :=
  "<" +:+ tagName el +:+ " "
      +:+ join " " (map (fun x => fst x +:+ "=" +:+ dquote +:+ snd x +:+ dquote)
                        (attributes el))
      +:+ ">".

(** [`</${endTag.name}>`] *)
Definition endTagText (name : string) : string := "</" +:+ name +:+ ">".

(** A [Partial<APost>] or [Partial<AComment>]: every property may be
    absent. *)
Record item : Type := {
  id_ : option jsnum;
  type_ : option string;
  title : option string;
  url : option string;
  score : option jsnum;
  by_ : option string;
  timeAgo : option string;
  descendants : option jsnum;
  story : option jsnum;
  parent : option jsnum;
  text : option string;
  storyTitle : option string;
  quality : option string;
  level : option jsnum;
  deleted : option bool
}.

Definition empty_item : item :=
  {| id_ := None; type_ := None; title := None; url := None; score := None;
     by_ := None; timeAgo := None; descendants := None; story := None;
     parent := None; text := None; storyTitle := None; quality := None;
     level := None; deleted := None |}.

Definition set_id (v : option jsnum) (o : item) : item :=
  {| id_ := v; type_ := type_ o; title := title o; url := url o; score := score o;
     by_ := by_ o; timeAgo := timeAgo o; descendants := descendants o; story := story o;
     parent := parent o; text := text o; storyTitle := storyTitle o; quality := quality o;
     level := level o; deleted := deleted o |}.

Definition set_type (v : option string) (o : item) : item :=
  {| id_ := id_ o; type_ := v; title := title o; url := url o; score := score o;
     by_ := by_ o; timeAgo := timeAgo o; descendants := descendants o; story := story o;
     parent := parent o; text := text o; storyTitle := storyTitle o; quality := quality o;
     level := level o; deleted := deleted o |}.

Definition set_title (v : option string) (o : item) : item :=
  {| id_ := id_ o; type_ := type_ o; title := v; url := url o; score := score o;
     by_ := by_ o; timeAgo := timeAgo o; descendants := descendants o; story := story o;
     parent := parent o; text := text o; storyTitle := storyTitle o; quality := quality o;
     level := level o; deleted := deleted o |}.

Definition set_url (v : option string) (o : item) : item :=
  {| id_ := id_ o; type_ := type_ o; title := title o; url := v; score := score o;
     by_ := by_ o; timeAgo := timeAgo o; descendants := descendants o; story := story o;
     parent := parent o; text := text o; storyTitle := storyTitle o; quality := quality o;
     level := level o; deleted := deleted o |}.

Definition set_score (v : option jsnum) (o : item) : item :=
  {| id_ := id_ o; type_ := type_ o; title := title o; url := url o; score := v;
     by_ := by_ o; timeAgo := timeAgo o; descendants := descendants o; story := story o;
     parent := parent o; text := text o; storyTitle := storyTitle o; quality := quality o;
     level := level o; deleted := deleted o |}.

Definition set_by (v : option string) (o : item) : item :=
  {| id_ := id_ o; type_ := type_ o; title := title o; url := url o; score := score o;
     by_ := v; timeAgo := timeAgo o; descendants := descendants o; story := story o;
     parent := parent o; text := text o; storyTitle := storyTitle o; quality := quality o;
     level := level o; deleted := deleted o |}.

Definition set_timeAgo (v : option string) (o : item) : item :=
  {| id_ := id_ o; type_ := type_ o; title := title o; url := url o; score := score o;
     by_ := by_ o; timeAgo := v; descendants := descendants o; story := story o;
     parent := parent o; text := text o; storyTitle := storyTitle o; quality := quality o;
     level := level o; deleted := deleted o |}.

Definition set_descendants (v : option jsnum) (o : item) : item :=
  {| id_ := id_ o; type_ := type_ o; title := title o; url := url o; score := score o;
     by_ := by_ o; timeAgo := timeAgo o; descendants := v; story := story o;
     parent := parent o; text := text o; storyTitle := storyTitle o; quality := quality o;
     level := level o; deleted := deleted o |}.

Definition set_story (v : option jsnum) (o : item) : item :=
  {| id_ := id_ o; type_ := type_ o; title := title o; url := url o; score := score o;
     by_ := by_ o; timeAgo := timeAgo o; descendants := descendants o; story := v;
     parent := parent o; text := text o; storyTitle := storyTitle o; quality := quality o;
     level := level o; deleted := deleted o |}.

Definition set_parent (v : option jsnum) (o : item) : item :=
  {| id_ := id_ o; type_ := type_ o; title := title o; url := url o; score := score o;
     by_ := by_ o; timeAgo := timeAgo o; descendants := descendants o; story := story o;
     parent := v; text := text o; storyTitle := storyTitle o; quality := quality o;
     level := level o; deleted := deleted o |}.

Definition set_text (v : option string) (o : item) : item :=
  {| id_ := id_ o; type_ := type_ o; title := title o; url := url o; score := score o;
     by_ := by_ o; timeAgo := timeAgo o; descendants := descendants o; story := story o;
     parent := parent o; text := v; storyTitle := storyTitle o; quality := quality o;
     level := level o; deleted := deleted o |}.

Definition set_storyTitle (v : option string) (o : item) : item :=
  {| id_ := id_ o; type_ := type_ o; title := title o; url := url o; score := score o;
     by_ := by_ o; timeAgo := timeAgo o; descendants := descendants o; story := story o;
     parent := parent o; text := text o; storyTitle := v; quality := quality o;
     level := level o; deleted := deleted o |}.

Definition set_quality (v : option string) (o : item) : item :=
  {| id_ := id_ o; type_ := type_ o; title := title o; url := url o; score := score o;
     by_ := by_ o; timeAgo := timeAgo o; descendants := descendants o; story := story o;
     parent := parent o; text := text o; storyTitle := storyTitle o; quality := v;
     level := level o; deleted := deleted o |}.

Definition set_level (v : option jsnum) (o : item) : item :=
  {| id_ := id_ o; type_ := type_ o; title := title o; url := url o; score := score o;
     by_ := by_ o; timeAgo := timeAgo o; descendants := descendants o; story := story o;
     parent := parent o; text := text o; storyTitle := storyTitle o; quality := quality o;
     level := v; deleted := deleted o |}.

Definition set_deleted (v : option bool) (o : item) : item :=
  {| id_ := id_ o; type_ := type_ o; title := title o; url := url o; score := score o;
     by_ := by_ o; timeAgo := timeAgo o; descendants := descendants o; story := story o;
     parent := parent o; text := text o; storyTitle := storyTitle o; quality := quality o;
     level := level o; deleted := v |}.

(** [x += t] on a string property: an absent property reads as [undefined],
    which concatenation turns into the text "undefined". *)
Definition plus_eq (x : option string) (t : string) : option string :=
  Some (match x with Some s => s +:+ t | None => "undefined" +:+ t end).

(** A value in a boolean position, for an optional string property. *)
Definition truthy_opt (x : option string) : bool :=
  match x with Some s => truthy s | None => false end.

(** [el.getAttribute('class')?.substr('commtext '.length).trim()] *)
Definition quality_of (el : Element) : option string :=
  (fun c => trim (substr (String.length "commtext ") c)) <$> getAttribute el "class".

(** ** The shared state of one pass *)

(** The store of objects, the closure variable the handlers build into
    ([post] in [storiesGenerator], [comment] in [scrapeComments]), the events
    dispatched on the event target and not yet taken by the iterator, the
    [moreLink] promise ([None] while unresolved), and whether the transform
    has died on an exception thrown by a handler. *)
Record state : Type := {
  heap : list item;
  current : option nat;
  queue : list nat;
  moreLink : option string;
  failed : bool
}.

Definition set_heap (h : list item) (s : state) : state :=
  {| heap := h; current := current s; queue := queue s;
     moreLink := moreLink s; failed := failed s |}.

Definition set_queue (q : list nat) (s : state) : state :=
  {| heap := heap s; current := current s; queue := q;
     moreLink := moreLink s; failed := failed s |}.

Definition set_failed (s : state) : state :=
  {| heap := heap s; current := current s; queue := queue s;
     moreLink := moreLink s; failed := true |}.

(** [x = { ... }]: a new object, and the closure variable now refers to it. *)
Definition assign_new (o : item) (s : state) : state :=
  {| heap := heap s ++ [o]; current := Some (length (heap s)); queue := queue s;
     moreLink := moreLink s; failed := failed s |}.

(** [data.dispatchEvent(newCustomEvent('data', x))]: the listener installed
    by [eventTargetToAsyncIter] (package event-target-to-async-iter) runs
    synchronously and appends the event to the iterator's unconsumed events;
    the call returns at once.  The event's [detail] is the object itself,
    not a copy. *)
Definition dispatchEvent (r : nat) (s : state) : state :=
  set_queue (queue s ++ [r]) s.

(** [if (x) data.dispatchEvent(newCustomEvent('data', x))] *)
Definition dispatch_if_defined (s : state) : state :=
  match current s with
  | Some r => dispatchEvent r s
  | None => s
  end.

(** A property write through the closure variable; on [undefined] the
    access throws a TypeError ([None]). *)
Definition on_current (f : item -> item) (s : state) : option state :=
  match current s with
  | Some r => Some (set_heap (alter f r (heap s)) s)
  | None => None
  end.

(** [el.onEndTag(handler)] (html-rewriter-wasm): the handler is kept for
    the end tag of [el]; for an element that cannot have content the call
    throws ('No end tag').  What the handler has written before the call
    stays written, and the transform dies. *)
Definition onEndTag (el : Element) (s : state) : state :=
  if canHaveContent el then s else set_failed s.

(** A property write on a known object. *)
Definition on_object (r : nat) (f : item -> item) (s : state) : state :=
  set_heap (alter f r (heap s)) s.

(** Modelled from the spec: [resolvablePromise] (src/vendor/resolvable-promise,
    whose source is not available) is a promise that its holder settles from
    outside; it is a single-assignment cell, so [moreLink.resolve(v)] settles
    the promise the first time and is ignored afterwards. *)
Definition resolve (v : string) (s : state) : state :=
  match moreLink s with
  | Some _ => s
  | None => {| heap := heap s; current := current s; queue := queue s;
               moreLink := Some v; failed := failed s |}
  end.

(** [x?.story] for the closure variable [x]. *)
Definition current_story (s : state) : option jsnum :=
  r ← current s; o ← heap s !! r; story o.

(** ** Passes *)

(** One thing that happens during a pass: the rewriter invokes a handler
    ([Ev]), or the consumer asks the iterator for its next value ([Pull]). *)
Inductive action (E : Type) : Type :=
| Ev (e : E)
| Pull.
Arguments Ev {E} e.
Arguments Pull {E}.

(** How the transformed response ends: the markup is exhausted, or the read
    or the parse fails. *)
Inductive ending : Type :=
| Completed
| Failed.

(** What the consumer of a generator observes once it has asked for
    everything: the generator has returned, its last [next()] never settles,
    or it has thrown. *)
Inductive status : Type :=
| Returned
| Pending
| Threw.

(** A value handed to the caller: a record (the reference of the object and
    its properties at that moment), the header of a thread, or the
    continuation. *)
Inductive output : Type :=
| ORecord (r : nat) (v : item)
| OHeader (v : item)
| OMore (href : string).

Definition record_ref (o : output) : option nat :=
  match o with
  | ORecord r _ => Some r
  | _ => None
  end.

(** The references of the records in a list of outputs. *)
Definition record_refs (out : list output) : list nat :=
  omap record_ref out.

Definition is_record (o : output) : bool :=
  match o with ORecord _ _ => true | _ => false end.

Definition events_of {E} (t : list (action E)) : list E :=
  omap (fun a => match a with Ev e => Some e | Pull => None end) t.

Definition init : state :=
  {| heap := []; current := None; queue := []; moreLink := None; failed := false |}.

Section Bridge.

Context {E : Type}.

(** The handlers of a pass, and what the consumer does to an object it
    has taken from the iterator before it yields it (given the store at
    that moment).  A handler that throws before it has written anything
    gives [None]; one that throws after a write gives the state with the
    write and with [failed] set. *)
Variable handler : E -> state -> option state.
Variable emit : list item -> item -> item.

(** The rewriter invokes a handler.  An exception thrown by a handler
    aborts the transform; no handler runs after that. *)
Definition produce1 (e : E) (s : state) : state :=
  if failed s then s
  else match handler e s with
       | Some s' => s'
       | None => set_failed s
       end.

(** [iter.next()] in the consumer's loop, followed by the loop body: the
    oldest unconsumed event is taken, the body mutates its [detail] and
    yields it.  With nothing to take the consumer stays suspended.  (An
    event always carries an object of the store, see [wf]; the other case of
    the lookup is there for totality.) *)
Definition pull (s : state) : state * list output :=
  match queue s with
  | [] => (s, [])
  | r :: q =>
      let h := alter (emit (heap s)) r (heap s) in
      (set_queue q (set_heap h s),
       match h !! r with Some v => [ORecord r v] | None => [] end)
  end.

Definition step (a : action E) (s : state) : state * list output :=
  match a with
  | Ev e => (produce1 e s, [])
  | Pull => pull s
  end.

Fixpoint run (t : list (action E)) (s : state) : state * list output :=
  match t with
  | [] => (s, [])
  | a :: t' =>
      let '(s1, o1) := step a s in
      let '(s2, o2) := run t' s1 in
      (s2, o1 ++ o2)
  end.

(** The producer alone: the handlers run over the events and nothing is
    taken from the iterator. *)
Definition produce (evs : list E) (s : state) : state :=
  fold_left (fun s e => produce1 e s) evs s.

(** The consumer takes [n] more values. *)
Fixpoint pulls (n : nat) (s : state) : state * list output :=
  match n with
  | O => (s, [])
  | S n' =>
      let '(s1, o1) := pull s in
      let '(s2, o2) := pulls n' s1 in
      (s2, o1 ++ o2)
  end.

(** The consumer takes whatever is still unconsumed. *)
Definition drain (s : state) : state * list output :=
  pulls (length (queue s)) s.

(** Modelled from the spec: [consume] (src/routes/api/util, whose source is
    not available) is the operation that drives the markup stream through
    the handlers and is awaited to completion.  The promise it returns is
    fulfilled ([true]) when the markup is exhausted, and rejected ([false])
    when a handler has thrown or the read or the parse fails.  The scraper
    chains [.then(() => iter.return())] on it, with no rejection callback:
    [iter.return()] runs only when it is fulfilled. *)
Definition consume (s : state) (e : ending) : bool :=
  negb (failed s) && match e with Completed => true | Failed => false end.

(** An async generator of the shape
<<
    consume(r2h(rewriter).transform(response)).then(() => iter.return());
    for await (const { detail: x } of iter) { ...; yield x }
    moreLink.resolve('');
    yield await moreLink;
>>
    run to exhaustion by its caller, along the interleaving [t] and with
    the stream ending as [e].

    The iterator of [eventTargetToAsyncIter] hands out the unconsumed
    events first, and reports [done] only when there is none left and
    [return()] has been called; if [return()] is never called, the
    [next()] that finds no event stays pending. *)
Definition generator (t : list (action E)) (e : ending) (s0 : state)
  : list output * status :=
  let '(s1, o1) := run t s0 in
  let '(s2, o2) := drain s1 in
  if consume s1 e
  then (o1 ++ o2 ++ [OMore (default "" (moreLink (resolve "" s2)))], Returned)
  else (o1 ++ o2, Pending).

End Bridge.

(** ** The handlers *)

(** The handler invocations of [storiesGenerator], one constructor per
    handler function, carrying the element or the text chunk it receives. *)
Inductive story_event : Type :=
| athing (el : Element)               (* '.athing[id]' element *)
| titlelink (link : Element)          (* '.athing[id] > .title > a.titlelink' element *)
| titlelink_text (chunk : string)     (* ... text *)
| score_text (chunk : string)         (* '.subtext > .score' text *)
| hnuser_text (chunk : string)        (* '.subtext > .hnuser' text *)
| age_text (chunk : string)           (* '.subtext > .age' text *)
| itemlink_text (chunk : string)      (* '.subtext > a[href^=item]' text *)
| morelink (el : Element)             (* '.morelink[href]' element *)
| yclinks.                            (* '.yclinks' element *)

(** The handler invocations of [scrapeComments]. *)
Inductive comment_event : Type :=
| comtr (thing : Element)             (* '.athing.comtr[id]' element *)
| ind_img (el : Element)              (* '... .ind > img[src="s.gif"][width]' element *)
| c_hnuser_text (chunk : string)      (* '... .hnuser' text *)
| c_age_text (chunk : string)         (* '... .age' text *)
| par_link (a : Element)              (* '... .par > a[href]' element *)
| storyon_link (a : Element)          (* '... .storyon > a[href]' element *)
| storyon_text (chunk : string)       (* ... text *)
| commtext (el : Element)             (* '... .commtext' element *)
| commtext_text (chunk : string)      (* ... text *)
| commtext_child (el : Element)       (* '... .commtext *' element *)
| commtext_child_end (name : string)  (* ... its onEndTag callback *)
| reply (el : Element)                (* '... .comment .reply' element *)
| c_yclinks.                          (* '.yclinks' element *)

(** The handler invocations of [commentsGenerator]: its own handlers on the
    header, and those that [scrapeComments] adds under '.comment-tree'. *)
Inductive thread_event : Type :=
| fat_athing (el : Element)           (* '.fatitem .athing[id]' element *)
| fat_titlelink (link : Element)      (* '.fatitem .athing[id] > .title > a.titlelink' element *)
| fat_titlelink_text (chunk : string)
| fat_score_text (chunk : string)     (* '.fatitem .subtext > .score' text *)
| fat_hnuser_text (chunk : string)    (* '.fatitem .subtext > .hnuser' text *)
| fat_age_text (chunk : string)       (* '.fatitem .subtext > .age' text *)
| fat_itemlink_text (chunk : string)  (* '.fatitem .subtext > a[href^=item]' text *)
| fat_cell_text (chunk : string)      (* '.fatitem tr:nth-child(4) > td:nth-child(2)' text *)
| fat_cell_child (el : Element)       (* '... *:not(form) *' element *)
| fat_cell_child_end (name : string)  (* ... its onEndTag callback *)
| comhead_hnuser_text (chunk : string) (* '.fatitem .comhead > .hnuser' text *)
| comhead_age_text (chunk : string)   (* '.fatitem .comhead > .age' text *)
| navs_link (a : Element)             (* '.fatitem .comhead > .navs > a[href^="item"]' element *)
| onstory_link (a : Element)          (* '.fatitem .comhead > .onstory > a[href]' element *)
| onstory_text (chunk : string)
| fat_commtext (el : Element)         (* '.fatitem .commtext' element *)
| fat_commtext_text (chunk : string)
| fat_commtext_child (el : Element)   (* '.fatitem .commtext *' element *)
| fat_commtext_child_end (name : string)
| comment_tree                        (* '.comment-tree' element *)
| t_morelink (el : Element)           (* 'a.morelink[href][rel="next"]' element *)
| scraped (e : comment_event).

(** The handler invocations of [threadsGenerator]. *)
Inductive threads_event : Type :=
| th_morelink (el : Element)          (* 'a.morelink[href][rel="next"]' element *)
| th_scraped (e : comment_event).

Section Scraper.

(** [unescape] of the package html-escaper, and [blockquotify] of
    src/routes/api/util: the source of neither is available, and the scraper
    only passes strings through them. *)
Variable unescape : string -> string.
Variable blockquotify : string -> string.

(** [moreLink.resolve(unescape(el.getAttribute('href') ?? ''))] *)
Definition resolve_href (el : Element) (s : state) : state :=
  resolve (unescape (default "" (getAttribute el "href"))) s.

(** [if (text?.trimStart().match(/^\d/)) x.p = parseInt(text, 10)]: the
    object is touched only when the condition holds. *)
Definition set_if_number (set : option jsnum -> item -> item) (chunk : string)
    (upd : (item -> item) -> option state) (s : state) : option state :=
  if starts_with_digit chunk then upd (set (Some (parseInt chunk))) else Some s.

(** The handlers that [storiesGenerator] registers. *)
Definition stories_handler (e : story_event) (s : state) : option state :=
  match e with
  | athing el =>
      (* if (post) data.dispatchEvent(newCustomEvent('data', post));
         const id = Number(el.getAttribute('id'));
         post = { id, title: '', score: 0, by: '', timeAgo: '',
                  descendants: 0, story: post?.story } *)
      let s1 := dispatch_if_defined s in
      let id := Number_attr (getAttribute el "id") in
      Some (assign_new
              {| id_ := Some id; type_ := None; title := Some ""; url := None;
                 score := Some (of_Z 0); by_ := Some ""; timeAgo := Some "";
                 descendants := Some (of_Z 0); story := current_story s;
                 parent := None; text := None; storyTitle := None;
                 quality := None; level := None; deleted := None |} s1)
  | titlelink link =>
      (* post.url = link.getAttribute('href') || undefined *)
      on_current
        (set_url (match getAttribute link "href" with
                  | Some h => if truthy h then Some h else None
                  | None => None
                  end)) s
  | titlelink_text chunk =>
      on_current (fun post => set_title (plus_eq (title post) chunk) post) s
  | score_text chunk =>
      set_if_number set_score chunk (fun f => on_current f s) s
  | hnuser_text chunk =>
      on_current (fun post => set_by (plus_eq (by_ post) chunk) post) s
  | age_text chunk =>
      on_current (fun post => set_timeAgo (plus_eq (timeAgo post) chunk) post) s
  | itemlink_text chunk =>
      set_if_number set_descendants chunk (fun f => on_current f s) s
  | morelink el => Some (resolve_href el s)
  | yclinks => Some (dispatch_if_defined s)
  end.

(** The handlers that [scrapeComments] registers. *)
Definition scrapeComments (e : comment_event) (s : state) : option state :=
  match e with
  | comtr thing =>
      (* if (comment) data.dispatchEvent(newCustomEvent('data', comment));
         const id = Number(thing.getAttribute('id'))
         comment = { id, type: 'comment', by: '', timeAgo: '', text: '',
                     storyTitle: '' } *)
      let s1 := dispatch_if_defined s in
      let id := Number_attr (getAttribute thing "id") in
      Some (assign_new
              {| id_ := Some id; type_ := Some "comment"; title := None; url := None;
                 score := None; by_ := Some ""; timeAgo := Some "";
                 descendants := None; story := None; parent := None;
                 text := Some ""; storyTitle := Some ""; quality := None;
                 level := None; deleted := None |} s1)
  | ind_img el =>
      (* comment.level = Number(el.getAttribute('width')) / 40 *)
      on_current (set_level (Some (div40 (Number_attr (getAttribute el "width"))))) s
  | c_hnuser_text chunk =>
      on_current (fun comment => set_by (plus_eq (by_ comment) chunk) comment) s
  | c_age_text chunk =>
      on_current (fun comment => set_timeAgo (plus_eq (timeAgo comment) chunk) comment) s
  | par_link a =>
      on_current (set_parent (Some (extractId (getAttribute a "href")))) s
  | storyon_link a =>
      on_current (set_story (Some (extractId (getAttribute a "href")))) s
  | storyon_text chunk =>
      on_current (fun comment =>
                    set_storyTitle (plus_eq (storyTitle comment) chunk) comment) s
  | commtext el =>
      on_current (set_quality (quality_of el)) s
  | commtext_text chunk =>
      on_current (fun comment => set_text (plus_eq (text comment) chunk) comment) s
  | commtext_child el =>
      (* comment.text += elToTagOpen(el);
         el.onEndTag(endTag => { comment.text += `</${endTag.name}>` }) *)
      onEndTag el <$>
        on_current (fun comment =>
                      set_text (plus_eq (text comment) (elToTagOpen el)) comment) s
  | commtext_child_end name =>
      on_current (fun comment =>
                    set_text (plus_eq (text comment) (endTagText name)) comment) s
  | reply el => Some s     (* el.remove() acts on the markup only *)
  | c_yclinks => Some (dispatch_if_defined s)
  end.

(** The header object of [commentsGenerator] is the first object of the
    store. *)
Definition header_ref : nat := 0%nat.

(** [const post = { title: '', score: 0, by: '', timeAgo: '',
                    descendants: 0, text: '', storyTitle: '' }] *)
Definition new_header : item :=
  {| id_ := None; type_ := None; title := Some ""; url := None;
     score := Some (of_Z 0); by_ := Some ""; timeAgo := Some "";
     descendants := Some (of_Z 0); story := None; parent := None;
     text := Some ""; storyTitle := Some ""; quality := None;
     level := None; deleted := None |}.

Definition thread_init : state :=
  {| heap := [new_header]; current := None; queue := []; moreLink := None;
     failed := false |}.

Definition on_post (f : item -> item) (s : state) : option state :=
  Some (on_object header_ref f s).

(** The handlers that [commentsGenerator] registers, then those of
    [scrapeComments(rewriter, data, '.comment-tree')]. *)
Definition thread_handler (e : thread_event) (s : state) : option state :=
  match e with
  | fat_athing el =>
      on_post (set_id (Some (Number_attr (getAttribute el "id")))) s
  | fat_titlelink link =>
      on_post (set_url (Some (unescape (default "" (getAttribute link "href"))))) s
  | fat_titlelink_text chunk =>
      on_post (fun post => set_title (plus_eq (title post) chunk) post) s
  | fat_score_text chunk =>
      set_if_number set_score chunk (fun f => on_post f s) s
  | fat_hnuser_text chunk | comhead_hnuser_text chunk =>
      on_post (fun post => set_by (plus_eq (by_ post) chunk) post) s
  | fat_age_text chunk | comhead_age_text chunk =>
      on_post (fun post => set_timeAgo (plus_eq (timeAgo post) chunk) post) s
  | fat_itemlink_text chunk =>
      set_if_number set_descendants chunk (fun f => on_post f s) s
  | fat_cell_text chunk | fat_commtext_text chunk =>
      on_post (fun post => set_text (plus_eq (text post) chunk) post) s
  | fat_cell_child el | fat_commtext_child el =>
      (* post.text += elToTagOpen(el);
         el.onEndTag(endTag => { post.text += `</${endTag.name}>` }) *)
      onEndTag el <$>
        on_post (fun post => set_text (plus_eq (text post) (elToTagOpen el)) post) s
  | fat_cell_child_end name | fat_commtext_child_end name =>
      on_post (fun post => set_text (plus_eq (text post) (endTagText name)) post) s
  | navs_link a =>
      on_post (set_parent (Some (extractId (getAttribute a "href")))) s
  | onstory_link a =>
      on_post (set_story (Some (extractId (getAttribute a "href")))) s
  | onstory_text chunk =>
      on_post (fun post => set_storyTitle (plus_eq (storyTitle post) chunk) post) s
  | fat_commtext el =>
      (* post.type = 'comment'; post.quality = ... *)
      on_post (fun post => set_quality (quality_of el) (set_type (Some "comment") post)) s
  | comment_tree =>
      (* data.dispatchEvent(newCustomEvent('data', post)) *)
      Some (dispatchEvent header_ref s)
  | t_morelink el => Some (resolve_href el s)
  | scraped e' => scrapeComments e' s
  end.

(** The handlers that [threadsGenerator] registers, then those of
    [scrapeComments(rewriter, target, '')]. *)
Definition threads_handler (e : threads_event) (s : state) : option state :=
  match e with
  | th_morelink el => Some (resolve_href el s)
  | th_scraped e' => scrapeComments e' s
  end.

(** ** The consumers *)

(** The body of the loop of [storiesGenerator]:
<<
    post.type = post.type || 'story';
    if (!post.by) { post.type = 'job'; }
>> *)
Definition classify (post : item) : item :=
  let post := set_type (Some (if truthy_opt (type_ post)
                              then default "" (type_ post) else "story")) post in
  if negb (truthy_opt (by_ post)) then set_type (Some "job") post else post.

(** [fixComment]:
<<
    if (comment.text?.trim()) {
      comment.text = blockquotify('<p>' + comment.text)
    } else {
      comment.deleted = true;
      comment.text = ' [flagged] ';
    }
>> *)
Definition fixComment (comment : item) : item :=
  match text comment with
  | Some t =>
      if truthy (trim t)
      then set_text (Some (blockquotify ("<p>" +:+ t))) comment
      else set_text (Some " [flagged] ") (set_deleted (Some true) comment)
  | None => set_text (Some " [flagged] ") (set_deleted (Some true) comment)
  end.

(** The function mapped over the iterator for [post.kids]:
<<
    ({ detail: comment }) => { comment.story = post.id; return fixComment(comment) }
>> *)
Definition emit_kid (h : list item) (comment : item) : item :=
  fixComment (set_story (o ← h !! header_ref; id_ o) comment).

(** What [commentsGenerator] does to the header once [await iter.next()]
    has settled:
<<
    if (post.text?.trim()) { post.text = blockquotify('<p>' + post.text) }
    else delete post.text
>> *)
Definition fix_header (post : item) : item :=
  match text post with
  | Some t =>
      if truthy (trim t)
      then set_text (Some (blockquotify ("<p>" +:+ t))) post
      else set_text None post
  | None => set_text None post
  end.

(** [storiesGenerator(response)], run to exhaustion. *)
Definition storiesGenerator (t : list (action story_event)) (e : ending)
  : list output * status :=
  generator stories_handler (fun _ => classify) t e init.

(** [threadsGenerator(response)], run to exhaustion. *)
Definition threadsGenerator (t : list (action threads_event)) (e : ending)
  : list output * status :=
  generator threads_handler (fun _ => fixComment) t e init.

(** *** [commentsGenerator] *)

(** How a promise has turned out. *)
Inductive settled : Type :=
| Fulfilled (v : string)
| Rejected.

(** What the caller of [commentsGenerator] observes: the header and then
    the values of [post.kids] in the order they are handed out, how the
    last request ends, and [post.moreLink] ([None] when the function never
    returns a post). *)
Record thread_result : Type := {
  outputs : list output;
  last : status;
  more : option settled
}.

(** The continuation of [await iter.next()]: the header is repaired and
    the function returns it. *)
Definition header_step (s : state) : state * list output :=
  let s1 := on_object header_ref fix_header s in
  (s1, match heap s1 !! header_ref with Some v => [OHeader v] | None => [] end).

(** Modelled from the spec: [aMap] (src/routes/api/iter, not in the sources
    at hand) is the lazy map over an async iterable: a [next()] on
    [aMap(iter, f)] is a [next()] on [iter] followed by [f] on its value. *)
Definition aMap_next (f : list item -> item -> item) (s : state)
  : state * list output :=
  pull f s.

(** A step of the consumer side.  Until the function has returned, it is
    [await iter.next()], which takes the first event whatever it carries;
    afterwards it is a [next()] on [post.kids]. *)
Definition thread_pull (c : state * bool) : (state * bool) * list output :=
  let '(s, returned) := c in
  if returned
  then let '(s', o) := aMap_next emit_kid s in ((s', true), o)
  else match queue s with
       | [] => (c, [])
       | _ :: q => let '(s', o) := header_step (set_queue q s) in ((s', true), o)
       end.

Definition thread_step (a : action thread_event) (c : state * bool)
  : (state * bool) * list output :=
  match a with
  | Ev e => ((produce1 thread_handler e (fst c), snd c), [])
  | Pull => thread_pull c
  end.

Fixpoint thread_run (t : list (action thread_event)) (c : state * bool)
  : (state * bool) * list output :=
  match t with
  | [] => (c, [])
  | a :: t' =>
      let '(c1, o1) := thread_step a c in
      let '(c2, o2) := thread_run t' c1 in
      (c2, o1 ++ o2)
  end.

Fixpoint thread_pulls (n : nat) (c : state * bool) : (state * bool) * list output :=
  match n with
  | O => (c, [])
  | S n' =>
      let '(c1, o1) := thread_pull c in
      let '(c2, o2) := thread_pulls n' c1 in
      (c2, o1 ++ o2)
  end.

(** [Promise.race([moreLink, x.then(() => '')])], where [x] is the promise
    of the consumed stream: the captured reference if there is one,
    otherwise what [x] gives. *)
Definition race_moreLink (s : state) (well : bool) : settled :=
  match moreLink s with
  | Some v => Fulfilled v
  | None => if well then Fulfilled "" else Rejected
  end.

(** [commentsGenerator(response)], with [post.kids] run to exhaustion. *)
Definition commentsGenerator (t : list (action thread_event)) (e : ending)
  : thread_result :=
  let '((s1, r1), o1) := thread_run t (thread_init, false) in
  let '((s2, r2), o2) := thread_pulls (length (queue s1)) (s1, r1) in
  let well := consume s1 e in
  if r2
  then {| outputs := o1 ++ o2;
          last := if well then Returned else Pending;
          more := Some (race_moreLink s2 well) |}
  else if well
  then (* nothing was ever dispatched: [iter.next()] settles with done *)
    let '(s3, o3) := header_step s2 in
    {| outputs := o1 ++ o2 ++ o3; last := Returned;
       more := Some (race_moreLink s3 well) |}
  else {| outputs := o1 ++ o2; last := Pending; more := None |}.

End Scraper.

(** ** Notions used in the statements *)

(** What the handlers' control flow depends on: the closure variable, the
    number of objects allocated, the [moreLink] promise and the failure
    flag, but not the properties of the objects. *)
Definition ctl (s : state) : option nat * nat * option string * bool :=
  (current s, length (heap s), moreLink s, failed s).

(** Every reference held by the closure variable or by the bridge is the
    reference of an object of the store, which holds at least [base]
    objects. *)
Definition wf (base : nat) (s : state) : Prop :=
  (base <= length (heap s))%nat /\
  (forall r, current s = Some r -> (r < length (heap s))%nat) /\
  Forall (fun r => (r < length (heap s))%nat) (queue s).

(** The value that a pass resolves [moreLink] with, when [anchor] gives the
    reference that the handler of an event passes to [moreLink.resolve]: the
    first one, or the empty string of the final [moreLink.resolve('')]. *)
Definition continuation {E} (anchor : E -> option string) (evs : list E) : string :=
  default "" (head (omap anchor evs)).

Definition stories_anchor (unescape : string -> string) (e : story_event)
  : option string :=
  match e with
  | morelink el => Some (unescape (default "" (getAttribute el "href")))
  | _ => None
  end.

Definition threads_anchor (unescape : string -> string) (e : threads_event)
  : option string :=
  match e with
  | th_morelink el => Some (unescape (default "" (getAttribute el "href")))
  | _ => None
  end.

Definition thread_anchor (unescape : string -> string) (e : thread_event)
  : option string :=
  match e with
  | t_morelink el => Some (unescape (default "" (getAttribute el "href")))
  | _ => None
  end.

(** The events of [storiesGenerator] that seal a record. *)
Definition is_boundary (e : story_event) : bool :=
  match e with
  | athing _ | yclinks => true
  | _ => false
  end.

(** The sealed records of a pass: the references that the handlers have
    dispatched, in order, when nothing is taken in between. *)
Definition sealed {E} (handler : E -> state -> option state) (evs : list E)
    (s0 : state) : list nat :=
  queue (produce handler evs s0).

(** The pass runs into no exception of a handler. *)
Definition no_throw {E} (handler : E -> state -> option state) (evs : list E)
    (s0 : state) : Prop :=
  failed (produce handler evs s0) = false.

(** What the caller of [commentsGenerator] has received, against the
    references taken from the bridge: nothing as long as the function has not
    returned; afterwards the header, for which the first event was taken, and
    then one record for each further event. *)
Definition thread_inv (returned : bool) (taken : list nat) (o : list output) : Prop :=
  if returned
  then exists h kids r0,
         taken = r0 :: record_refs kids /\ o = OHeader h :: kids /\
         forallb is_record kids = true
  else taken = [] /\ o = [].

(** The text of a region that comes in [chunks]. *)
Definition concat_chunks (chunks : list string) : string :=
  fold_right String.append "" chunks.

(** The value that the object [r] had when it was handed out last, in a
    list of outputs; [None] when it has not been handed out. *)
Fixpoint last_record (r : nat) (out : list output) : option item :=
  match out with
  | [] => None
  | o :: out' =>
      match last_record r out' with
      | Some v => Some v
      | None =>
          match o with
          | ORecord r' v => if decide (r' = r) then Some v else None
          | _ => None
          end
      end
  end.

(** In the interleaving [t], run to exhaustion, the consumer takes the
    object [r] from the bridge when it has received [pre], and the store
    then holds [c] for it: the interleaving, followed by the pulls that
    drain the bridge, splits at a pull that finds [r] at the head of the
    bridge. *)
Definition taken_as {E} (handler : E -> state -> option state)
    (emit : list item -> item -> item) (t : list (action E)) (s0 : state)
    (pre : list output) (r : nat) (c : item) : Prop :=
  exists (n : nat) (t1 t2 : list (action E)),
    t ++ replicate n Pull = t1 ++ Pull :: t2 /\
    snd (run handler emit t1 s0) = pre /\
    head (queue (fst (run handler emit t1 s0))) = Some r /\
    heap (fst (run handler emit t1 s0)) !! r = Some c.

(** The same for a value of [post.kids] in [commentsGenerator]: the
    function has returned, and the pull is one on [post.kids]. *)
Definition kid_taken_as (unescape blockquotify : string -> string)
    (t : list (action thread_event)) (pre : list output) (r : nat) (c : item)
  : Prop :=
  exists (n : nat) (t1 t2 : list (action thread_event)),
    t ++ replicate n Pull = t1 ++ Pull :: t2 /\
    snd (thread_run unescape blockquotify t1 (thread_init, false)) = pre /\
    snd (fst (thread_run unescape blockquotify t1 (thread_init, false))) = true /\
    head (queue (fst (fst (thread_run unescape blockquotify t1 (thread_init, false)))))
      = Some r /\
    heap (fst (fst (thread_run unescape blockquotify t1 (thread_init, false)))) !! r
      = Some c.

(** The header object when [commentsGenerator] returns it: [c] is what the
    handlers alone have made of it at the first pull that finds an event in
    the bridge, nothing having been handed out before; or, in a pass that
    dispatches nothing, at the end of the pass. *)
Definition header_taken_as (unescape blockquotify : string -> string)
    (t : list (action thread_event)) (c : item) : Prop :=
  (exists (n : nat) (t1 t2 : list (action thread_event)),
      t ++ replicate n Pull = t1 ++ Pull :: t2 /\
      thread_run unescape blockquotify t1 (thread_init, false) =
        ((produce (thread_handler unescape) (events_of t1) thread_init, false), []) /\
      queue (produce (thread_handler unescape) (events_of t1) thread_init) <> [] /\
      heap (produce (thread_handler unescape) (events_of t1) thread_init) !! header_ref
        = Some c) \/
  (sealed (thread_handler unescape) (events_of t) thread_init = [] /\
   heap (produce (thread_handler unescape) (events_of t) thread_init) !! header_ref
     = Some c).

(** What a step of the producer may do to the store, for a relation [R]
    between the value an object was handed out with last ([None] if it was
    not) and the object: the store does not shrink, an object stays within
    [R], and a new object has never been handed out. *)
Definition step_respects (R : option item -> item -> Prop) (s s' : state) : Prop :=
  (length (heap s) <= length (heap s'))%nat /\
  forall r c', heap s' !! r = Some c' ->
    match heap s !! r with
    | Some c => forall ov, R ov c -> R ov c'
    | None => R None c'
    end.

Definition respects {E} (R : option item -> item -> Prop)
    (handler : E -> state -> option state) : Prop :=
  forall e s s', handler e s = Some s' -> step_respects R s s'.

(** The store against what has been handed out, for the objects from
    [base] on. *)
Definition emission_inv (R : option item -> item -> Prop) (base : nat)
    (s : state) (out : list output) : Prop :=
  (forall r c, (base <= r)%nat -> heap s !! r = Some c -> R (last_record r out) c) /\
  (forall r, heap s !! r = None -> last_record r out = None).

(** A comment that has not been handed out is as [scrapeComments] builds
    it: it has a body and no [deleted] property; the handlers never write
    [deleted]. *)
Definition repair_state (ov : option item) (c : item) : Prop :=
  match ov with
  | None => deleted c = None /\ exists body, text c = Some body
  | Some v => deleted c = deleted v
  end.

(** A listing that has not been handed out has no [type]; the handlers
    never write [type], and the consumer always leaves a non-empty one. *)
Definition kind_state (ov : option item) (c : item) : Prop :=
  match ov with
  | None => type_ c = None
  | Some v => type_ c = type_ v /\ truthy_opt (type_ v) = true
  end.

(** [post.id] of the header of a thread, as the store has it. *)
Definition post_id (s : state) : option jsnum :=
  o ← heap s !! 0%nat; id_ o.

(** The events of [commentsGenerator] that dispatch the header object. *)
Definition is_comment_tree (e : thread_event) : bool :=
  match e with
  | comment_tree => true
  | _ => false
  end.

Definition is_fat_athing (a : action thread_event) : bool :=
  match a with
  | Ev (fat_athing _) => true
  | _ => false
  end.

(** *** Sample inputs *)

(** The void elements of HTML. *)
Definition void_tags : list string :=
  [ "area"; "base"; "br"; "col"; "embed"; "hr"; "img"; "input"; "link"; "meta";
    "source"; "track"; "wbr" ].

(** An element of an HTML page, by its tag name and attributes. *)
Definition elem (tag : string) (attrs : list (string * string)) : Element :=
  {| tagName := tag; attributes := attrs;
     canHaveContent := negb (existsb (String.eqb tag) void_tags) |}.

(** A row '.athing[id]' with the given id. *)
Definition row (id : string) : Element :=
  elem "tr" [("class", "athing"); ("id", id)].

(** A comment row '.athing.comtr[id]'. *)
Definition comment_row (id : string) : Element :=
  elem "tr" [("class", "athing comtr"); ("id", id)].

(** The indentation image of a comment. *)
Definition indent (width : string) : Element :=
  elem "img" [("src", "s.gif"); ("height", "1"); ("width", width)].

(** A next-page anchor. *)
Definition more_anchor (href : string) : Element :=
  elem "a" [("href", href); ("class", "morelink"); ("rel", "next")].

(** A link inside a comment body. *)
Definition body_link : Element :=
  elem "a" [("href", "https://example.com"); ("rel", "nofollow")].

(** Instances of [unescape] and [blockquotify] for the sample inputs, which
    hold no character entity and no quoted line: there both leave their
    argument as it is. *)
Definition plain (s : string) : string := s.

(** A page of two listings, the second without an author, with a next-page
    anchor and the footer; the consumer pulls twice on the way. *)
Definition sample_listing : list (action story_event) :=
  [ Ev (athing (row "1"));
    Ev (titlelink (elem "a" [("href", "https://example.com"); ("class", "titlelink")]));
    Ev (titlelink_text "Hello "); Ev (titlelink_text "world");
    Ev (score_text "12 points"); Ev (hnuser_text "pg");
    Ev (age_text "1 hour ago"); Ev (itemlink_text "3 comments");
    Pull;
    Ev (athing (row "2"));
    Ev (titlelink_text "Hiring"); Ev (age_text "2 hours ago");
    Pull;
    Ev (morelink (more_anchor "news?p=2"));
    Ev yclinks ].

(** A page that breaks off inside its first listing. *)
Definition truncated_listing : list (action story_event) :=
  [ Ev (athing (row "1")); Ev (titlelink_text "Show HN") ].

(** Two listings started, each with its author, after which the read
    fails. *)
Definition interrupted_listing : list (action story_event) :=
  [ Ev (athing (row "1")); Ev (hnuser_text "pg");
    Ev (athing (row "2")); Ev (hnuser_text "dang") ].

(** Three start-of-record elements in one synchronous burst: the consumer
    does not get to run in between. *)
Definition burst : list (action story_event) :=
  [ Ev (athing (row "1")); Ev (athing (row "2")); Ev (athing (row "3")) ].

(** A threads page: a comment with a body, a comment with a blank body,
    the anchor and the footer. *)
Definition sample_threads : list (action threads_event) :=
  [ Ev (th_scraped (comtr (comment_row "8")));
    Ev (th_scraped (ind_img (indent "0")));
    Ev (th_scraped (commtext_text "see "));
    Ev (th_scraped (commtext_child body_link));
    Ev (th_scraped (commtext_text "this"));
    Ev (th_scraped (commtext_child_end "a"));
    Ev (th_scraped (comtr (comment_row "9")));
    Ev (th_scraped (commtext_text "  "));
    Ev (th_morelink (more_anchor "threads?id=pg&next=7"));
    Ev (th_scraped c_yclinks) ].

(** The events of the header of an item page. *)
Definition sample_header : list thread_event :=
  [ fat_athing (row "7"); fat_titlelink_text "Ask HN"; fat_hnuser_text "pg" ].

(** The comments of the item page: one comment that names another story in
    its own markup, one reply at indentation 40; the consumer takes the
    header as soon as the comment tree opens. *)
Definition sample_comments : list (action thread_event) :=
  [ Ev comment_tree; Pull;
    Ev (scraped (comtr (comment_row "8")));
    Ev (scraped (ind_img (indent "0")));
    Ev (scraped (storyon_link (elem "a" [("href", "item?id=99")])));
    Ev (scraped (commtext_text "first"));
    Ev (scraped (comtr (comment_row "9")));
    Pull;
    Ev (scraped (ind_img (indent "40")));
    Ev (scraped (commtext_text "reply"));
    Ev (scraped c_yclinks) ].

(** A threads page whose footer selector matches twice, so that its
    comment, whose body is blank, is dispatched twice. *)
Definition twice_sealed_threads : list (action threads_event) :=
  [ Ev (th_scraped (comtr (comment_row "8")));
    Ev (th_scraped (commtext_text "  "));
    Ev (th_scraped c_yclinks);
    Ev (th_scraped c_yclinks) ].

(** A threads page whose one comment holds a line break in its body. *)
Definition line_break_threads : list (action threads_event) :=
  [ Ev (th_scraped (comtr (comment_row "8")));
    Ev (th_scraped (commtext_text "one"));
    Ev (th_scraped (commtext_child (elem "br" [])));
    Ev (th_scraped (commtext_text "two"));
    Ev (th_scraped c_yclinks) ].

(** An item page on which '.comment-tree' matches twice. *)
Definition two_comment_trees : list (action thread_event) :=
  [ Ev (fat_athing (row "7")); Ev (fat_titlelink_text "Ask HN");
    Ev comment_tree; Ev comment_tree ].

(** The item page as a whole. *)
Definition sample_thread : list (action thread_event) :=
  map Ev sample_header ++ sample_comments.

(** The first listing of the sample page, as the caller receives it. *)
Definition sample_story : item :=
  {| id_ := Some (of_Z 1); type_ := Some "story"; title := Some "Hello world";
     url := Some "https://example.com"; score := Some (of_Z 12); by_ := Some "pg";
     timeAgo := Some "1 hour ago"; descendants := Some (of_Z 3); story := None;
     parent := None; text := None; storyTitle := None; quality := None;
     level := None; deleted := None |}.

(** The second listing of the sample page, as the caller receives it. *)
Definition sample_job : item :=
  {| id_ := Some (of_Z 2); type_ := Some "job"; title := Some "Hiring"; url := None;
     score := Some (of_Z 0); by_ := Some ""; timeAgo := Some "2 hours ago";
     descendants := Some (of_Z 0); story := None; parent := None; text := None;
     storyTitle := None; quality := None; level := None; deleted := None |}.

(** The first comment of the item page, as the caller receives it. *)
Definition sample_kid : item :=
  {| id_ := Some (of_Z 8); type_ := Some "comment"; title := None; url := None;
     score := None; by_ := Some ""; timeAgo := Some ""; descendants := None;
     story := Some (of_Z 7); parent := None; text := Some "<p>first";
     storyTitle := Some ""; quality := None; level := Some (of_Z 0);
     deleted := None |}.

(** The second comment of the threads page, whose body is blank, as the
    caller receives it. *)
Definition sample_flagged : item :=
  {| id_ := Some (of_Z 9); type_ := Some "comment"; title := None; url := None;
     score := None; by_ := Some ""; timeAgo := Some ""; descendants := None;
     story := None; parent := None; text := Some " [flagged] ";
     storyTitle := Some ""; quality := None; level := None;
     deleted := Some true |}.

(** The comment of the page whose footer matches twice, as the caller
    receives it the first time and the second time. *)
Definition sample_blank : item :=
  {| id_ := Some (of_Z 8); type_ := Some "comment"; title := None; url := None;
     score := None; by_ := Some ""; timeAgo := Some ""; descendants := None;
     story := None; parent := None; text := Some " [flagged] ";
     storyTitle := Some ""; quality := None; level := None;
     deleted := Some true |}.

Definition sample_blank_again : item :=
  {| id_ := Some (of_Z 8); type_ := Some "comment"; title := None; url := None;
     score := None; by_ := Some ""; timeAgo := Some ""; descendants := None;
     story := None; parent := None; text := Some "<p> [flagged] ";
     storyTitle := Some ""; quality := None; level := None;
     deleted := Some true |}.

(** A comment as [scrapeComments] creates it, with the given body. *)
Definition comment_with_body (body : string) : item :=
  {| id_ := Some (of_Z 8); type_ := Some "comment"; title := None; url := None;
     score := None; by_ := Some "pg"; timeAgo := Some "1 hour ago";
     descendants := None; story := None; parent := None;
     text := Some body; storyTitle := Some ""; quality := None;
     level := Some (of_Z 0); deleted := None |}.

(** ** The handlers as effects *)

(** What a handler does to the shared state, in six shapes: it seals the
    pending object and builds a new one (which may read [story] of the
    pending one), writes to the object under construction, seals the
    pending object, resolves [moreLink], does nothing, or writes to the
    object under construction and then throws. *)
Inductive effect : Type :=
| Start (mk : option jsnum -> item)
| Field (f : item -> item)
| Seal
| Resolve (v : string)
| Skip
| FieldThrow (f : item -> item).

Definition interp (ef : effect) (s : state) : option state :=
  match ef with
  | Start mk => Some (assign_new (mk (current_story s)) (dispatch_if_defined s))
  | Field f => on_current f s
  | Seal => Some (dispatch_if_defined s)
  | Resolve v => Some (resolve v s)
  | Skip => Some s
  | FieldThrow f => set_failed <$> on_current f s
  end.

(** [{ id, title: '', score: 0, by: '', timeAgo: '', descendants: 0,
       story: post?.story }] with [id = Number(el.getAttribute('id'))] *)
Definition new_post (el : Element) (story_of_previous : option jsnum) : item :=
  {| id_ := Some (Number_attr (getAttribute el "id")); type_ := None;
     title := Some ""; url := None; score := Some (of_Z 0); by_ := Some "";
     timeAgo := Some ""; descendants := Some (of_Z 0); story := story_of_previous;
     parent := None; text := None; storyTitle := None; quality := None;
     level := None; deleted := None |}.

(** [{ id, type: 'comment', by: '', timeAgo: '', text: '', storyTitle: '' }] *)
Definition new_comment (thing : Element) : item :=
  {| id_ := Some (Number_attr (getAttribute thing "id")); type_ := Some "comment";
     title := None; url := None; score := None; by_ := Some ""; timeAgo := Some "";
     descendants := None; story := None; parent := None; text := Some "";
     storyTitle := Some ""; quality := None; level := None; deleted := None |}.

(** The handlers of [storiesGenerator], by shape. *)
Definition stories_effect (unescape : string -> string) (e : story_event) : effect :=
  match e with
  | athing el => Start (new_post el)
  | titlelink link =>
      Field (set_url (match getAttribute link "href" with
                      | Some h => if truthy h then Some h else None
                      | None => None
                      end))
  | titlelink_text chunk => Field (fun post => set_title (plus_eq (title post) chunk) post)
  | score_text chunk =>
      if starts_with_digit chunk then Field (set_score (Some (parseInt chunk))) else Skip
  | hnuser_text chunk => Field (fun post => set_by (plus_eq (by_ post) chunk) post)
  | age_text chunk => Field (fun post => set_timeAgo (plus_eq (timeAgo post) chunk) post)
  | itemlink_text chunk =>
      if starts_with_digit chunk
      then Field (set_descendants (Some (parseInt chunk))) else Skip
  | morelink el => Resolve (unescape (default "" (getAttribute el "href")))
  | yclinks => Seal
  end.

(** The handlers of [scrapeComments], by shape. *)
Definition scrape_effect (e : comment_event) : effect :=
  match e with
  | comtr thing => Start (fun _ => new_comment thing)
  | ind_img el => Field (set_level (Some (div40 (Number_attr (getAttribute el "width")))))
  | c_hnuser_text chunk =>
      Field (fun comment => set_by (plus_eq (by_ comment) chunk) comment)
  | c_age_text chunk =>
      Field (fun comment => set_timeAgo (plus_eq (timeAgo comment) chunk) comment)
  | par_link a => Field (set_parent (Some (extractId (getAttribute a "href"))))
  | storyon_link a => Field (set_story (Some (extractId (getAttribute a "href"))))
  | storyon_text chunk =>
      Field (fun comment => set_storyTitle (plus_eq (storyTitle comment) chunk) comment)
  | commtext el => Field (set_quality (quality_of el))
  | commtext_text chunk =>
      Field (fun comment => set_text (plus_eq (text comment) chunk) comment)
  | commtext_child el =>
      (if canHaveContent el then Field else FieldThrow)
        (fun comment => set_text (plus_eq (text comment) (elToTagOpen el)) comment)
  | commtext_child_end name =>
      Field (fun comment => set_text (plus_eq (text comment) (endTagText name)) comment)
  | reply _ => Skip
  | c_yclinks => Seal
  end.

(** The handlers of [threadsGenerator], by shape. *)
Definition threads_effect (unescape : string -> string) (e : threads_event) : effect :=
  match e with
  | th_morelink el => Resolve (unescape (default "" (getAttribute el "href")))
  | th_scraped e' => scrape_effect e'
  end.

(** The effect writes to, or reads, the object under construction. *)
Definition touches (ef : effect) : bool :=
  match ef with
  | Start _ | Field _ | FieldThrow _ => true
  | _ => false
  end.

(** The effect stays inside a record: it neither starts nor seals one,
    and it does not throw. *)
Definition inner (ef : effect) : bool :=
  match ef with
  | Start _ | Seal | FieldThrow _ => false
  | _ => true
  end.

(** What an effect does to the object under construction. *)
Definition apply_effect (ef : effect) (o : item) : item :=
  match ef with
  | Field f | FieldThrow f => f o
  | _ => o
  end.

(** Along the events, no handler touches the object under construction
    after that object has been handed to the bridge. *)
Fixpoint undisturbed {E} (handler : E -> state -> option state) (eff : E -> effect)
    (evs : list E) (p : state) : Prop :=
  match evs with
  | [] => True
  | e :: evs' =>
      (touches (eff e) = true -> failed p = false ->
       forall r, current p = Some r -> ~ In r (queue p)) /\
      undisturbed handler eff evs' (produce1 handler e p)
  end.

(** The records that the consumer yields for the references [refs], when
    its loop body is [g] and the objects are those of the store [h]. *)
Definition out_of (g : item -> item) (h : list item) (refs : list nat) : list output :=
  omap (fun r => (fun v => ORecord r (g v)) <$> h !! r) refs.

(** The records that the consumer yields for the objects [os], numbered
    from [n] in the order of the store. *)
Fixpoint numbered (g : item -> item) (n : nat) (os : list item) : list output :=
  match os with
  | [] => []
  | o :: os' => ORecord n (g o) :: numbered g (S n) os'
  end.

(** A page of records: each record is the element that starts it followed
    by the events inside it; the footer closes the page. *)
Definition page {E} (blocks : list (E * list E)) (footer : E) : list E :=
  flat_map (fun b => fst b :: snd b) blocks ++ [footer].

(** The object that the events of one record build from a new object. *)
Definition built {E} (eff : E -> effect) (fresh : item) (inside : list E) : item :=
  fold_left (fun o e => apply_effect (eff e) o) inside fresh.

(** A listing as the handlers of [storiesGenerator] build it from its row
    and the events inside it. *)
Definition built_post (unescape : string -> string) (b : Element * list story_event)
  : item :=
  built (stories_effect unescape) (new_post (fst b) None) (snd b).

(** A comment as the handlers of [scrapeComments] build it. *)
Definition built_comment (unescape : string -> string)
    (b : Element * list threads_event) : item :=
  built (threads_effect unescape) (new_comment (fst b)) (snd b).

(** The objects that the consumer has not taken are the same in the
    interleaved run and in the run of the producer alone. *)
Definition agree (s p : state) (taken : list nat) : Prop :=
  forall r, ~ In r taken -> heap s !! r = heap p !! r.

(** The objects that the records of a page leave in the store, in order;
    a new object may read [story] of the one before it. *)
Fixpoint build_all {E} (eff : E -> effect) (prev : option jsnum)
    (blocks : list (E * list E)) : list item :=
  match blocks with
  | [] => []
  | b :: bs =>
      match eff (fst b) with
      | Start mk =>
          let o := built eff (mk prev) (snd b) in
          o :: build_all eff (story o) bs
      | _ => []
      end
  end.

(** A record of a page: its first event starts it, the others stay inside. *)
Definition block_ok {E} (eff : E -> effect) (b : E * list E) : Prop :=
  (exists mk, eff (fst b) = Start mk) /\
  Forall (fun e => inner (eff e) = true) (snd b).

(** A listing page: rows '.athing[id]', each followed by the events inside
    the listing (none of them a row or the footer), then the footer
    '.yclinks'. *)
Definition listing_page (blocks : list (Element * list story_event))
  : list story_event :=
  page (map (fun b => (athing (fst b), snd b)) blocks) yclinks.

Definition inside_listing (b : Element * list story_event) : Prop :=
  Forall (fun e => is_boundary e = false) (snd b).

(** A threads page: comment rows '.athing.comtr[id]', each followed by the
    events inside the comment, then the footer. *)
Definition threads_page (blocks : list (Element * list threads_event))
  : list threads_event :=
  page (map (fun b => (th_scraped (comtr (fst b)), snd b)) blocks)
       (th_scraped c_yclinks).

Definition is_comment_boundary (e : threads_event) : bool :=
  match e with
  | th_scraped (comtr _) | th_scraped c_yclinks => true
  | _ => false
  end.

(** The handler of the event calls [onEndTag] on an element that has no
    end tag. *)
Definition lacks_end_tag (e : threads_event) : bool :=
  match e with
  | th_scraped (commtext_child el) => negb (canHaveContent el)
  | _ => false
  end.

(** The events inside a comment: none of them starts or seals a comment,
    and the elements of the body have their end tags. *)
Definition inside_comment (b : Element * list threads_event) : Prop :=
  Forall (fun e => is_comment_boundary e = false /\ lacks_end_tag e = false) (snd b).

(** ** What the events of a record say *)

(** The text chunks of the title, of the author and of the age label of a
    listing. *)
Definition title_chunk (e : story_event) : option string :=
  match e with titlelink_text chunk => Some chunk | _ => None end.

Definition author_chunk (e : story_event) : option string :=
  match e with hnuser_text chunk => Some chunk | _ => None end.

Definition age_chunk (e : story_event) : option string :=
  match e with age_text chunk => Some chunk | _ => None end.

(** The value that the handler of an event assigns to [url], to [score]
    and to [descendants], if it assigns one. *)
Definition url_write (e : story_event) : option (option string) :=
  match e with
  | titlelink link =>
      Some (match getAttribute link "href" with
            | Some h => if truthy h then Some h else None
            | None => None
            end)
  | _ => None
  end.

Definition score_write (e : story_event) : option (option jsnum) :=
  match e with
  | score_text chunk =>
      if starts_with_digit chunk then Some (Some (parseInt chunk)) else None
  | _ => None
  end.

Definition descendants_write (e : story_event) : option (option jsnum) :=
  match e with
  | itemlink_text chunk =>
      if starts_with_digit chunk then Some (Some (parseInt chunk)) else None
  | _ => None
  end.

(** The events of [scrapeComments] among those of [threadsGenerator]. *)
Definition scraped_of (e : threads_event) : option comment_event :=
  match e with th_scraped e' => Some e' | th_morelink _ => None end.

(** What an event inside '.commtext' appends to the body: a text chunk as
    it is, an element as its open tag, the end of an element as its end
    tag. *)
Definition body_piece (e : comment_event) : option string :=
  match e with
  | commtext_text chunk => Some chunk
  | commtext_child el => Some (elToTagOpen el)
  | commtext_child_end name => Some (endTagText name)
  | _ => None
  end.

Definition c_author_chunk (e : comment_event) : option string :=
  match e with c_hnuser_text chunk => Some chunk | _ => None end.

Definition c_age_chunk (e : comment_event) : option string :=
  match e with c_age_text chunk => Some chunk | _ => None end.

Definition story_title_chunk (e : comment_event) : option string :=
  match e with storyon_text chunk => Some chunk | _ => None end.

(** The value that the handler of an event assigns to [level], [parent],
    [story] and [quality], if it assigns one. *)
Definition level_write (e : comment_event) : option (option jsnum) :=
  match e with
  | ind_img el => Some (Some (div40 (Number_attr (getAttribute el "width"))))
  | _ => None
  end.

Definition parent_write (e : comment_event) : option (option jsnum) :=
  match e with
  | par_link a => Some (Some (extractId (getAttribute a "href")))
  | _ => None
  end.

Definition story_write (e : comment_event) : option (option jsnum) :=
  match e with
  | storyon_link a => Some (Some (extractId (getAttribute a "href")))
  | _ => None
  end.

Definition quality_write (e : comment_event) : option (option string) :=
  match e with
  | commtext el => Some (quality_of el)
  | _ => None
  end.

(** ** Numbers read from text *)

(** The string does not go on with a digit. *)
Definition no_leading_digit (s : string) : bool :=
  match s with
  | String c _ => negb (is_digit c)
  | EmptyString => true
  end.

(** A numeric property that is set to a non-negative integer or to the
    positive infinity. *)
Definition holds_count (x : option jsnum) : Prop :=
  exists n, x = Some n /\ is_count n.

(** What holds of every listing in the store of [storiesGenerator]. *)
Definition listing_ok (post : item) : Prop :=
  holds_count (score post) /\ holds_count (descendants post) /\
  (type_ post = None \/ type_ post = Some "story" \/ type_ post = Some "job") /\
  is_Some (id_ post) /\ is_Some (title post) /\ is_Some (by_ post) /\
  is_Some (timeAgo post).

(** ** [user] *)

(** The object that [user] builds:
    [let user: Partial<AUser> = { id, about: '', submitted: [] }], with the
    properties [created] and [karma] that the handlers may add. *)
Record AUser : Type := {
  user_id : string;
  created : option jsnum;
  karma : option jsnum;
  about : option string;
  submitted : list jsnum
}.

Definition new_user (id : string) : AUser :=
  {| user_id := id; created := None; karma := None; about := Some "";
     submitted := [] |}.

Definition set_created (v : option jsnum) (u : AUser) : AUser :=
  {| user_id := user_id u; created := v; karma := karma u; about := about u;
     submitted := submitted u |}.

Definition set_karma (v : option jsnum) (u : AUser) : AUser :=
  {| user_id := user_id u; created := created u; karma := v; about := about u;
     submitted := submitted u |}.

Definition set_about (v : option string) (u : AUser) : AUser :=
  {| user_id := user_id u; created := created u; karma := karma u; about := v;
     submitted := submitted u |}.

(** The handler invocations of [user]. *)
Inductive user_event : Type :=
| u_timestamp (el : Element)          (* 'tr.athing td[timestamp]' element *)
| u_karma_text (chunk : string)       (* '... tr:nth-child(3) > td:nth-child(2)' text *)
| u_about_text (chunk : string)       (* '... tr:nth-child(4) > td:nth-child(2)' text *)
| u_about_child (el : Element)        (* '... tr:nth-child(4) > td:nth-child(2) *' element *)
| u_about_child_end (name : string).  (* ... its onEndTag callback *)

(** The handlers that [user] registers, [None] when the handler throws.
    They write to an object that exists from the start; the handler of the
    elements inside the about cell calls [el.onEndTag], which throws for an
    element that cannot have content. *)
Definition user_handler (e : user_event) (u : AUser) : option AUser :=
  match e with
  | u_timestamp el =>
      (* user.created = Number(el.getAttribute('timestamp')) *)
      Some (set_created (Some (Number_attr (getAttribute el "timestamp"))) u)
  | u_karma_text chunk =>
      (* if (text?.trimStart().match(/^\d/)) user.karma = parseInt(text, 10) *)
      Some (if starts_with_digit chunk then set_karma (Some (parseInt chunk)) u else u)
  | u_about_text chunk => Some (set_about (plus_eq (about u) chunk) u)
  | u_about_child el =>
      (* user.about += elToTagOpen(el);
         el.onEndTag(endTag => { user.about += `</${endTag.name}>` }) *)
      if canHaveContent el
      then Some (set_about (plus_eq (about u) (elToTagOpen el)) u)
      else None
  | u_about_child_end name => Some (set_about (plus_eq (about u) (endTagText name)) u)
  end.

(** The rewriter runs the handlers over the page; an exception of a
    handler aborts the transform. *)
Fixpoint user_pass (evs : list user_event) (u : AUser) : option AUser :=
  match evs with
  | [] => Some u
  | e :: evs' =>
      match user_handler e u with
      | Some u' => user_pass evs' u'
      | None => None
      end
  end.

(** [if (user.about?.trim()) user.about = '<p>' + user.about.trim()] *)
Definition finish_about (u : AUser) : AUser :=
  match about u with
  | Some a => if truthy (trim a) then set_about (Some ("<p>" +:+ trim a)) u else u
  | None => u
  end.

(** [user(id)], given the handler invocations that the profile page gives
    rise to and how the stream ends.  [await consume(...)] rejects when a
    handler has thrown or the read or the parse fails (see [consume]), and
    the function then rejects too ([None]). *)
Definition user (id : string) (evs : list user_event) (e : ending) : option AUser :=
  match e with
  | Completed => finish_about <$> user_pass evs (new_user id)
  | Failed => None
  end.

(** The handler of the event calls [onEndTag] on an element that has no
    end tag. *)
Definition user_throws (e : user_event) : bool :=
  match e with
  | u_about_child el => negb (canHaveContent el)
  | _ => false
  end.

(** A profile page: the timestamp cell, the karma, and an about text with
    an emphasized word. *)
Definition sample_profile : list user_event :=
  [ u_timestamp (elem "td" [("timestamp", "1160418111")]);
    u_karma_text "155111";
    u_about_text "Bug fixer, "; u_about_child (elem "i" []);
    u_about_text "really"; u_about_child_end "i" ].

(** A profile page whose about cell holds a line break. *)
Definition broken_profile : list user_event :=
  [ u_karma_text "155111"; u_about_text "Bug fixer"; u_about_child (elem "br" []) ].

(** What an event of the profile page appends to [about]. *)
Definition about_piece (e : user_event) : option string :=
  match e with
  | u_about_text chunk => Some chunk
  | u_about_child el => Some (elToTagOpen el)
  | u_about_child_end name => Some (endTagText name)
  | _ => None
  end.

(** The value that the handler of an event assigns to [created] and to
    [karma], if it assigns one. *)
Definition created_write (e : user_event) : option (option jsnum) :=
  match e with
  | u_timestamp el => Some (Some (Number_attr (getAttribute el "timestamp")))
  | _ => None
  end.

Definition karma_write (e : user_event) : option (option jsnum) :=
  match e with
  | u_karma_text chunk =>
      if starts_with_digit chunk then Some (Some (parseInt chunk)) else None
  | _ => None
  end.

(** ** Blank text *)

(** Every character of the string is white space. *)
Fixpoint all_ws (s : string) : bool :=
  match s with
  | String c s' => is_ws c && all_ws s'
  | EmptyString => true
  end.

(** ** Item pages *)

(** An event of [threadsGenerator] as [commentsGenerator], which registers
    the same handlers for the comments, sees it. *)
Definition in_thread (e : threads_event) : thread_event :=
  match e with
  | th_morelink el => t_morelink el
  | th_scraped e' => scraped e'
  end.

Definition amap {A B} (f : A -> B) (a : action A) : action B :=
  match a with
  | Ev e => Ev (f e)
  | Pull => Pull
  end.

(** The events of the handlers on '.fatitem', which build the header; the
    elements of its text have their end tags. *)
Definition is_header_event (e : thread_event) : bool :=
  match e with
  | comment_tree | t_morelink _ | scraped _ => false
  | fat_cell_child el | fat_commtext_child el => canHaveContent el
  | _ => true
  end.

(** What the handler of a header event does to [post]. *)
Definition header_effect (unescape : string -> string) (e : thread_event)
    (post : item) : item :=
  match e with
  | fat_athing el => set_id (Some (Number_attr (getAttribute el "id"))) post
  | fat_titlelink link =>
      set_url (Some (unescape (default "" (getAttribute link "href")))) post
  | fat_titlelink_text chunk => set_title (plus_eq (title post) chunk) post
  | fat_score_text chunk =>
      if starts_with_digit chunk then set_score (Some (parseInt chunk)) post else post
  | fat_hnuser_text chunk | comhead_hnuser_text chunk =>
      set_by (plus_eq (by_ post) chunk) post
  | fat_age_text chunk | comhead_age_text chunk =>
      set_timeAgo (plus_eq (timeAgo post) chunk) post
  | fat_itemlink_text chunk =>
      if starts_with_digit chunk
      then set_descendants (Some (parseInt chunk)) post else post
  | fat_cell_text chunk | fat_commtext_text chunk =>
      set_text (plus_eq (text post) chunk) post
  | fat_cell_child el | fat_commtext_child el =>
      set_text (plus_eq (text post) (elToTagOpen el)) post
  | fat_cell_child_end name | fat_commtext_child_end name =>
      set_text (plus_eq (text post) (endTagText name)) post
  | navs_link a => set_parent (Some (extractId (getAttribute a "href"))) post
  | onstory_link a => set_story (Some (extractId (getAttribute a "href"))) post
  | onstory_text chunk => set_storyTitle (plus_eq (storyTitle post) chunk) post
  | fat_commtext el => set_quality (quality_of el) (set_type (Some "comment") post)
  | comment_tree | t_morelink _ | scraped _ => post
  end.

(** The header as the events on '.fatitem' build it. *)
Definition built_header (unescape : string -> string) (hdr : list thread_event)
  : item :=
  fold_left (fun post e => header_effect unescape e post) hdr new_header.

(** An item page: the events of the header, the element '.comment-tree',
    and under it the comments as on a threads page. *)
Definition item_page (hdr : list thread_event)
    (blocks : list (Element * list threads_event)) : list thread_event :=
  hdr ++ comment_tree :: map in_thread (threads_page blocks).

(** What the function mapped over [post.kids] makes of a comment when
    [post.id] is [i]. *)
Definition kid (blockquotify : string -> string) (i : option jsnum) (comment : item)
  : item :=
  fixComment blockquotify (set_story i comment).

(** *** More sample inputs *)

(** The two listings of the sample page, each with the events inside
    it. *)
Definition sample_blocks : list (Element * list story_event) :=
  [ (row "1",
     [ titlelink (elem "a" [("href", "https://example.com"); ("class", "titlelink")]);
       titlelink_text "Hello "; titlelink_text "world";
       score_text "12 points"; hnuser_text "pg";
       age_text "1 hour ago"; itemlink_text "3 comments" ]);
    (row "2",
     [ titlelink_text "Hiring"; age_text "2 hours ago";
       morelink (more_anchor "news?p=2") ]) ].

(** The two comments of the sample threads page. *)
Definition sample_comment_blocks : list (Element * list threads_event) :=
  [ (comment_row "8",
     [ th_scraped (ind_img (indent "0"));
       th_scraped (commtext_text "see ");
       th_scraped (commtext_child body_link);
       th_scraped (commtext_text "this");
       th_scraped (commtext_child_end "a") ]);
    (comment_row "9",
     [ th_scraped (commtext_text "  ");
       th_morelink (more_anchor "threads?id=pg&next=7") ]) ].

(** A page on which a score is met before any row. *)
Definition stray_score : list (action story_event) :=
  [ Ev yclinks; Ev (score_text "7 points"); Pull; Ev (athing (row "1")); Ev yclinks ].

(** An item page: the sample header, and the two comments of the sample
    threads page under '.comment-tree'; the consumer asks once while the
    first comment is being read. *)
Definition sample_item : list (action thread_event) :=
  map Ev sample_header
  ++ [ Ev comment_tree;
       Ev (scraped (comtr (comment_row "8")));
       Ev (scraped (ind_img (indent "0")));
       Pull;
       Ev (scraped (commtext_text "see "));
       Ev (scraped (commtext_child body_link));
       Ev (scraped (commtext_text "this"));
       Ev (scraped (commtext_child_end "a"));
       Ev (scraped (comtr (comment_row "9")));
       Ev (scraped (commtext_text "  "));
       Ev (t_morelink (more_anchor "threads?id=pg&next=7"));
       Ev (scraped c_yclinks) ].

(** *** What the events of the header say *)

Definition h_title_chunk (e : thread_event) : option string :=
  match e with fat_titlelink_text chunk => Some chunk | _ => None end.

Definition h_author_chunk (e : thread_event) : option string :=
  match e with
  | fat_hnuser_text chunk | comhead_hnuser_text chunk => Some chunk
  | _ => None
  end.

Definition h_age_chunk (e : thread_event) : option string :=
  match e with
  | fat_age_text chunk | comhead_age_text chunk => Some chunk
  | _ => None
  end.

Definition h_story_title_chunk (e : thread_event) : option string :=
  match e with onstory_text chunk => Some chunk | _ => None end.

(** What an event appends to the text of the header: the text cell of a
    story and the body of a comment feed the same property. *)
Definition h_body_piece (e : thread_event) : option string :=
  match e with
  | fat_cell_text chunk | fat_commtext_text chunk => Some chunk
  | fat_cell_child el | fat_commtext_child el => Some (elToTagOpen el)
  | fat_cell_child_end name | fat_commtext_child_end name => Some (endTagText name)
  | _ => None
  end.

Definition h_id_write (e : thread_event) : option (option jsnum) :=
  match e with
  | fat_athing el => Some (Some (Number_attr (getAttribute el "id")))
  | _ => None
  end.

Definition h_url_write (unescape : string -> string) (e : thread_event)
  : option (option string) :=
  match e with
  | fat_titlelink link => Some (Some (unescape (default "" (getAttribute link "href"))))
  | _ => None
  end.

Definition h_score_write (e : thread_event) : option (option jsnum) :=
  match e with
  | fat_score_text chunk =>
      if starts_with_digit chunk then Some (Some (parseInt chunk)) else None
  | _ => None
  end.

Definition h_descendants_write (e : thread_event) : option (option jsnum) :=
  match e with
  | fat_itemlink_text chunk =>
      if starts_with_digit chunk then Some (Some (parseInt chunk)) else None
  | _ => None
  end.

Definition h_parent_write (e : thread_event) : option (option jsnum) :=
  match e with
  | navs_link a => Some (Some (extractId (getAttribute a "href")))
  | _ => None
  end.

Definition h_story_write (e : thread_event) : option (option jsnum) :=
  match e with
  | onstory_link a => Some (Some (extractId (getAttribute a "href")))
  | _ => None
  end.

Definition h_type_write (e : thread_event) : option (option string) :=
  match e with
  | fat_commtext _ => Some (Some "comment")
  | _ => None
  end.

Definition h_quality_write (e : thread_event) : option (option string) :=
  match e with
  | fat_commtext el => Some (quality_of el)
  | _ => None
  end.

(** * Properties *)

(** ** The bridge *)

Lemma ctl_eq_inv (s p : state) :
  ctl s = ctl p ->
  current s = current p /\ length (heap s) = length (heap p) /\
  moreLink s = moreLink p /\ failed s = failed p.
Proof. unfold ctl. intros H. injection H as -> -> -> ->. tauto. Qed.

Lemma record_refs_app (o1 o2 : list output) :
  record_refs (o1 ++ o2) = record_refs o1 ++ record_refs o2.
Proof. unfold record_refs. apply omap_app. Qed.

Lemma forallb_is_record_app (o1 o2 : list output) :
  forallb is_record (o1 ++ o2) = forallb is_record o1 && forallb is_record o2.
Proof. apply forallb_app. Qed.

Lemma wf_set_failed base s : wf base s -> wf base (set_failed s).
Proof. unfold wf. simpl. tauto. Qed.

Lemma events_of_Ev {E} (e : E) (t : list (action E)) :
  events_of (Ev e :: t) = e :: events_of t.
Proof. reflexivity. Qed.

Lemma events_of_Pull {E} (t : list (action E)) :
  events_of (Pull :: t) = events_of t.
Proof. reflexivity. Qed.

Lemma events_of_app {E} (t1 t2 : list (action E)) :
  events_of (t1 ++ t2) = events_of t1 ++ events_of t2.
Proof. unfold events_of. apply omap_app. Qed.

Lemma produce_app {E} (handler : E -> state -> option state) evs1 evs2 s :
  produce handler (evs1 ++ evs2) s = produce handler evs2 (produce handler evs1 s).
Proof. unfold produce. apply fold_left_app. Qed.

Lemma produce_cons {E} (handler : E -> state -> option state) e evs s :
  produce handler (e :: evs) s = produce handler evs (produce1 handler e s).
Proof. reflexivity. Qed.

(** With no pull in between, the interleaved run is the producer alone. *)
Lemma run_events {E} (handler : E -> state -> option state) emit evs : forall s,
  run handler emit (map Ev evs) s = (produce handler evs s, []).
Proof.
  induction evs as [|e evs IH]; intros s; simpl; [done|]. by rewrite IH.
Qed.

Section BridgeFacts.

Context {E : Type}.
Variable handler : E -> state -> option state.
Variable emit : list item -> item -> item.
Variable anchor : E -> option string.
Variable base : nat.

(** What the proofs need to know about a set of handlers: which references
    they dispatch, whether they throw and how they move the control state do
    not depend on the properties of the objects; they keep the references
    valid; and [moreLink] changes only by [resolve] with the [anchor] of
    the event. *)
Hypothesis handler_ctl : forall e s p,
  ctl s = ctl p ->
  match handler e s, handler e p with
  | Some s', Some p' =>
      ctl s' = ctl p' /\
      exists d, queue s' = queue s ++ d /\ queue p' = queue p ++ d
  | None, None => True
  | _, _ => False
  end.
Hypothesis handler_wf : forall e s s',
  wf base s -> handler e s = Some s' -> wf base s'.
Hypothesis handler_moreLink : forall e s s',
  handler e s = Some s' ->
  moreLink s' = match moreLink s with Some v => Some v | None => anchor e end.

Lemma produce1_wf e s : wf base s -> wf base (produce1 handler e s).
Proof.
  intros Hwf. unfold produce1. destruct (failed s); [done|].
  destruct (handler e s) eqn:He; [eauto | by apply wf_set_failed].
Qed.

Lemma produce_wf evs : forall s, wf base s -> wf base (produce handler evs s).
Proof.
  induction evs as [|e evs IH]; intros s Hwf; simpl; [done|].
  apply IH, produce1_wf, Hwf.
Qed.

Lemma produce1_sim e s p :
  ctl s = ctl p ->
  ctl (produce1 handler e s) = ctl (produce1 handler e p) /\
  exists d, queue (produce1 handler e s) = queue s ++ d /\
            queue (produce1 handler e p) = queue p ++ d.
Proof.
  intros Hc. pose proof (ctl_eq_inv _ _ Hc) as (Hcur & Hlen & Hml & Hf).
  unfold produce1. rewrite <- Hf. destruct (failed s) eqn:Hfs.
  - split; [done|]. exists []. by rewrite !app_nil_r.
  - pose proof (handler_ctl e s p Hc) as H.
    destruct (handler e s) as [s'|], (handler e p) as [p'|]; try done.
    split.
    + unfold ctl, set_failed; simpl. congruence.
    + exists []. by rewrite !app_nil_r.
Qed.

Lemma pull_nil s : queue s = [] -> pull emit s = (s, []).
Proof. intros H. unfold pull. by rewrite H. Qed.

Lemma pull_cons s r q :
  wf base s -> queue s = r :: q ->
  exists v,
    heap s !! r = Some v /\
    pull emit s =
      (set_queue q (set_heap (alter (emit (heap s)) r (heap s)) s),
       [ORecord r (emit (heap s) v)]).
Proof.
  intros (_ & _ & Hq) Hqs. rewrite Hqs in Hq.
  apply Forall_cons in Hq as [Hr _].
  destruct (lookup_lt_is_Some_2 _ _ Hr) as [v Hv].
  exists v. split; [done|].
  unfold pull. rewrite Hqs. rewrite list_lookup_alter_eq, Hv. done.
Qed.

Lemma wf_after_pull s r q f :
  wf base s -> queue s = r :: q ->
  wf base (set_queue q (set_heap (alter f r (heap s)) s)).
Proof.
  intros (Hb & Hc & Hq) Hqs. unfold wf; simpl. rewrite length_alter.
  repeat split; try done. rewrite Hqs in Hq. by apply Forall_cons in Hq as [_ ?].
Qed.

(** The interleaved run against the producer alone: same control state, and
    what the producer alone has queued is what the consumer has taken
    followed by what is still unconsumed. *)
Lemma run_fifo t : forall s p taken,
  wf base s -> ctl s = ctl p -> queue p = taken ++ queue s ->
  wf base (fst (run handler emit t s)) /\
  ctl (fst (run handler emit t s)) = ctl (produce handler (events_of t) p) /\
  queue (produce handler (events_of t) p) =
    taken ++ record_refs (snd (run handler emit t s))
          ++ queue (fst (run handler emit t s)) /\
  forallb is_record (snd (run handler emit t s)) = true.
Proof.
  induction t as [|a t IH]; intros s p taken Hwf Hc Hq.
  - simpl. by rewrite Hq.
  - destruct a as [e|]; simpl.
    + destruct (produce1_sim e s p Hc) as (Hc' & d & Hs & Hp).
      specialize (IH (produce1 handler e s) (produce1 handler e p) taken
                     (produce1_wf e s Hwf) Hc').
      rewrite Hs, Hp, Hq, <- app_assoc in IH. specialize (IH eq_refl).
      destruct (run handler emit t (produce1 handler e s)) as [s2 o2] eqn:Hr.
      simpl in *. done.
    + destruct (queue s) as [|r q] eqn:Hqs.
      * rewrite (pull_nil s Hqs).
        specialize (IH s p taken Hwf Hc). rewrite Hqs in IH.
        specialize (IH Hq).
        destruct (run handler emit t s) as [s2 o2]. simpl in *. done.
      * destruct (pull_cons s r q Hwf Hqs) as (v & Hv & ->).
        set (s1 := set_queue q _).
        assert (Hc1 : ctl s1 = ctl p).
        { rewrite <- Hc. unfold ctl, s1; simpl. by rewrite length_alter. }
        specialize (IH s1 p (taken ++ [r]) (wf_after_pull s r q _ Hwf Hqs) Hc1).
        simpl in IH. rewrite <- app_assoc in IH. specialize (IH Hq).
        destruct (run handler emit t s1) as [s2 o2]. simpl in *.
        rewrite <- app_assoc in IH. done.
Qed.

Lemma pulls_fifo n : forall s,
  wf base s ->
  wf base (fst (pulls emit n s)) /\
  ctl (fst (pulls emit n s)) = ctl s /\
  record_refs (snd (pulls emit n s)) = take n (queue s) /\
  queue (fst (pulls emit n s)) = drop n (queue s) /\
  forallb is_record (snd (pulls emit n s)) = true.
Proof.
  induction n as [|n IH]; intros s Hwf; simpl.
  - by rewrite drop_0.
  - destruct (queue s) as [|r q] eqn:Hqs.
    + rewrite (pull_nil s Hqs). specialize (IH s Hwf). rewrite Hqs in IH.
      destruct (pulls emit n s) as [s2 o2]. simpl in *.
      destruct IH as (? & ? & ? & ? & ?). rewrite take_nil in *. rewrite drop_nil in *. done.
    + destruct (pull_cons s r q Hwf Hqs) as (v & Hv & ->).
      set (s1 := set_queue q _).
      specialize (IH s1 (wf_after_pull s r q _ Hwf Hqs)).
      destruct (pulls emit n s1) as [s2 o2]. simpl in *.
      destruct IH as (Hw & Hc & Hr & Hq & Hf).
      split; [done|]. split.
      { rewrite Hc. unfold ctl; simpl. by rewrite length_alter. }
      split; [by f_equal|]. done.
Qed.

Lemma drain_fifo s :
  wf base s ->
  ctl (fst (drain emit s)) = ctl s /\
  record_refs (snd (drain emit s)) = queue s /\
  queue (fst (drain emit s)) = [] /\
  forallb is_record (snd (drain emit s)) = true.
Proof.
  intros Hwf. unfold drain.
  destruct (pulls_fifo (length (queue s)) s Hwf) as (_ & Hc & Hr & Hq & Hf).
  rewrite firstn_all in Hr. rewrite drop_all in Hq. done.
Qed.

Lemma produce_failed_mono evs : forall s,
  failed s = true -> produce handler evs s = s.
Proof.
  induction evs as [|e evs IH]; intros s Hf; simpl; [done|].
  unfold produce1 at 1. rewrite Hf. by apply IH.
Qed.

(** In a pass without exception [moreLink] holds the reference of the
    first anchor. *)
Lemma produce_moreLink evs : forall s,
  failed (produce handler evs s) = false ->
  moreLink (produce handler evs s) =
    match moreLink s with Some v => Some v | None => head (omap anchor evs) end.
Proof.
  induction evs as [|e evs IH]; intros s Hf; simpl in *.
  - by destruct (moreLink s).
  - destruct (failed (produce1 handler e s)) eqn:Hf1.
    { rewrite (produce_failed_mono evs _ Hf1) in Hf. congruence. }
    rewrite IH by done.
    unfold produce1 in *. destruct (failed s) eqn:Hfs; [congruence|].
    destruct (handler e s) as [s'|] eqn:He; [|done].
    rewrite (handler_moreLink _ _ _ He).
    destruct (moreLink s); [done|]. by destruct (anchor e).
Qed.

(** The producer only ever appends to the unconsumed events. *)
Lemma produce_queue_prefix evs : forall s,
  exists d, queue (produce handler evs s) = queue s ++ d.
Proof.
  induction evs as [|e evs IH]; intros s.
  - exists []. simpl. by rewrite app_nil_r.
  - rewrite produce_cons.
    destruct (IH (produce1 handler e s)) as (d2 & ->).
    destruct (produce1_sim e s s eq_refl) as (_ & d1 & -> & _).
    exists (d1 ++ d2). by rewrite app_assoc.
Qed.

Lemma run_app t1 t2 s :
  run handler emit (t1 ++ t2) s =
  (fst (run handler emit t2 (fst (run handler emit t1 s))),
   snd (run handler emit t1 s) ++ snd (run handler emit t2 (fst (run handler emit t1 s)))).
Proof.
  revert s. induction t1 as [|a t1 IH]; intros s.
  - simpl. by destruct (run handler emit t2 s).
  - cbn [app run]. destruct (step handler emit a s) as [s1 o1]. rewrite IH.
    destruct (run handler emit t1 s1) as [s2 o2]. simpl.
    destruct (run handler emit t2 s2) as [s3 o3]. simpl. by rewrite app_assoc.
Qed.

(** Draining is a run of pulls. *)
Lemma pulls_as_run n s :
  pulls emit n s = run handler emit (replicate n Pull) s.
Proof.
  revert s. induction n as [|n IH]; intros s; [done|].
  cbn [pulls replicate run step]. destruct (pull emit s) as [s1 o1]. by rewrite IH.
Qed.

Lemma events_of_pulls n : events_of (replicate n (@Pull E)) = [].
Proof. induction n as [|n IH]; [done|]. exact IH. Qed.

(** The records of a generator are the outputs of one interleaved run: the
    pass, then the pulls that drain the bridge. *)
Lemma generator_records t e s0 r v :
  In (ORecord r v) (fst (generator handler emit t e s0)) ->
  exists n, In (ORecord r v) (snd (run handler emit (t ++ replicate n Pull) s0)).
Proof.
  unfold generator.
  destruct (run handler emit t s0) as [s1 o1] eqn:Hr.
  destruct (drain emit s1) as [s2 o2] eqn:Hd.
  intros Hin. exists (length (queue s1)).
  rewrite run_app, Hr. cbn [fst snd]. rewrite <- pulls_as_run.
  unfold drain in Hd. rewrite Hd. cbn [snd].
  destruct (consume s1 e); cbn [fst] in Hin; [|done].
  rewrite app_assoc in Hin. apply in_app_or in Hin as [Hin|Hin]; [done|].
  by destruct Hin as [[=]|[]].
Qed.

(** A generator run to exhaustion hands out the sealed records, in the
    order they were sealed, and then, if the pass ends well, the
    continuation; otherwise its last request stays pending. *)
Lemma generator_spec t e s0 :
  wf base s0 -> queue s0 = [] ->
  exists recs,
    forallb is_record recs = true /\
    record_refs recs = sealed handler (events_of t) s0 /\
    generator handler emit t e s0 =
      if consume (produce handler (events_of t) s0) e
      then (recs ++ [OMore (default "" (moreLink (produce handler (events_of t) s0)))],
            Returned)
      else (recs, Pending).
Proof.
  intros Hwf Hq0.
  destruct (run_fifo t s0 s0 [] Hwf eq_refl eq_refl) as (Hwf1 & Hc1 & Hq1 & Hr1).
  unfold generator, sealed.
  destruct (run handler emit t s0) as [s1 o1]. simpl in *.
  destruct (drain_fifo s1 Hwf1) as (Hc2 & Hq2 & _ & Hr2).
  destruct (drain emit s1) as [s2 o2]. simpl in *.
  exists (o1 ++ o2). split; [|split].
  - by rewrite forallb_is_record_app, Hr1, Hr2.
  - by rewrite record_refs_app, Hq2.
  - destruct (ctl_eq_inv _ _ Hc1) as (_ & _ & Hml1 & Hf1).
    destruct (ctl_eq_inv _ _ Hc2) as (_ & _ & Hml2 & _).
    unfold consume. rewrite <- Hf1.
    destruct (negb (failed s1) && _); [|done].
    rewrite app_assoc. do 3 f_equal.
    rewrite <- Hml1, <- Hml2. unfold resolve.
    destruct (moreLink s2) eqn:Hm; simpl; by rewrite ?Hm.
Qed.

End BridgeFacts.

(** ** The handlers of the three passes fit the bridge *)

Lemma ctl_dispatch_if_defined s : ctl (dispatch_if_defined s) = ctl s.
Proof. unfold dispatch_if_defined. by destruct (current s). Qed.

Lemma on_current_ctl f g s p :
  ctl s = ctl p ->
  match on_current f s, on_current g p with
  | Some s', Some p' =>
      ctl s' = ctl p' /\
      exists d, queue s' = queue s ++ d /\ queue p' = queue p ++ d
  | None, None => True
  | _, _ => False
  end.
Proof.
  intros Hc. destruct (ctl_eq_inv _ _ Hc) as (Hcur & Hlen & Hml & Hf).
  unfold on_current. rewrite <- Hcur. destruct (current s) eqn:Hcs; [|done].
  split.
  - unfold ctl; simpl. rewrite !length_alter. congruence.
  - exists []. by rewrite !app_nil_r.
Qed.

Lemma same_ctl s p :
  ctl s = ctl p ->
  ctl s = ctl p /\ exists d, queue s = queue s ++ d /\ queue p = queue p ++ d.
Proof. intros Hc. split; [done|]. exists []. by rewrite !app_nil_r. Qed.

Lemma resolve_ctl v s p :
  ctl s = ctl p ->
  ctl (resolve v s) = ctl (resolve v p) /\
  exists d, queue (resolve v s) = queue s ++ d /\ queue (resolve v p) = queue p ++ d.
Proof.
  intros Hc. destruct (ctl_eq_inv _ _ Hc) as (Hcur & Hlen & Hml & Hf).
  unfold resolve. rewrite <- Hml. destruct (moreLink s) eqn:Hms.
  - by apply same_ctl.
  - split; [unfold ctl; simpl; congruence|]. exists []. by rewrite !app_nil_r.
Qed.

Lemma dispatch_new_ctl o o' s p :
  ctl s = ctl p ->
  ctl (assign_new o (dispatch_if_defined s)) = ctl (assign_new o' (dispatch_if_defined p)) /\
  exists d, queue (assign_new o (dispatch_if_defined s)) = queue s ++ d /\
            queue (assign_new o' (dispatch_if_defined p)) = queue p ++ d.
Proof.
  intros Hc. destruct (ctl_eq_inv _ _ Hc) as (Hcur & Hlen & Hml & Hf).
  unfold dispatch_if_defined. rewrite <- Hcur. destruct (current s) as [r|] eqn:Hcs.
  - split; [unfold ctl; simpl; rewrite !length_app; simpl; congruence|]. by exists [r].
  - split; [unfold ctl; simpl; rewrite !length_app; simpl; congruence|].
    exists []. by rewrite !app_nil_r.
Qed.

Lemma dispatch_ctl s p :
  ctl s = ctl p ->
  ctl (dispatch_if_defined s) = ctl (dispatch_if_defined p) /\
  exists d, queue (dispatch_if_defined s) = queue s ++ d /\
            queue (dispatch_if_defined p) = queue p ++ d.
Proof.
  intros Hc. destruct (ctl_eq_inv _ _ Hc) as (Hcur & Hlen & Hml & Hf).
  unfold dispatch_if_defined. rewrite <- Hcur. destruct (current s) as [r|] eqn:Hcs.
  - split; [done|]. by exists [r].
  - by apply same_ctl.
Qed.

Lemma on_object_ctl r f g s p :
  ctl s = ctl p ->
  ctl (on_object r f s) = ctl (on_object r g p) /\
  exists d, queue (on_object r f s) = queue s ++ d /\
            queue (on_object r g p) = queue p ++ d.
Proof.
  intros Hc. destruct (ctl_eq_inv _ _ Hc) as (Hcur & Hlen & Hml & Hf).
  split.
  - unfold ctl; simpl. rewrite !length_alter. congruence.
  - exists []. by rewrite !app_nil_r.
Qed.

Lemma dispatchEvent_ctl r s p :
  ctl s = ctl p ->
  ctl (dispatchEvent r s) = ctl (dispatchEvent r p) /\
  exists d, queue (dispatchEvent r s) = queue s ++ d /\
            queue (dispatchEvent r p) = queue p ++ d.
Proof. intros Hc. split; [done|]. by exists [r]. Qed.

Lemma wf_on_current base f s s' :
  wf base s -> on_current f s = Some s' -> wf base s'.
Proof.
  unfold on_current. intros (Hb & Hc & Hq) H.
  destruct (current s) as [r|] eqn:Hcs; [|done]. injection H as <-.
  unfold wf; simpl. rewrite length_alter.
  split; [done|]. split; [|done]. intros r' Hr'. apply Hc. congruence.
Qed.

Lemma wf_on_object base r f s : wf base s -> wf base (on_object r f s).
Proof. intros (Hb & Hc & Hq). unfold wf; simpl. by rewrite length_alter. Qed.

Lemma wf_dispatchEvent base r s :
  wf base s -> (r < length (heap s))%nat -> wf base (dispatchEvent r s).
Proof.
  intros (Hb & Hc & Hq) Hr. unfold wf; simpl. split; [done|]. split; [done|].
  apply Forall_app. split; [done|]. by apply Forall_singleton.
Qed.

Lemma wf_dispatch_if_defined base s : wf base s -> wf base (dispatch_if_defined s).
Proof.
  intros Hwf. unfold dispatch_if_defined.
  destruct (current s) as [r|] eqn:Hcs; [|done].
  apply wf_dispatchEvent; [done|]. destruct Hwf as (_ & Hc & _). by apply Hc.
Qed.

Lemma wf_assign_new base o s : wf base s -> wf base (assign_new o s).
Proof.
  intros (Hb & Hc & Hq). unfold wf; simpl. rewrite length_app; simpl.
  split; [lia|]. split.
  - intros r [= <-]. lia.
  - eapply Forall_impl; [exact Hq|]. intros r Hr; simpl in *. lia.
Qed.

Lemma wf_resolve base v s : wf base s -> wf base (resolve v s).
Proof. intros Hwf. unfold resolve. by destruct (moreLink s). Qed.

Lemma moreLink_on_current f s s' :
  on_current f s = Some s' -> moreLink s' = moreLink s.
Proof.
  unfold on_current. destruct (current s); [|done]. by intros [= <-].
Qed.

Lemma moreLink_dispatch_if_defined s :
  moreLink (dispatch_if_defined s) = moreLink s.
Proof. unfold dispatch_if_defined. by destruct (current s). Qed.

Lemma moreLink_resolve v s :
  moreLink (resolve v s) = match moreLink s with Some w => Some w | None => Some v end.
Proof. unfold resolve. by destruct (moreLink s) eqn:H; simpl; rewrite ?H. Qed.

Lemma onEndTag_ctl el (o1 o2 : option state) s p :
  match o1, o2 with
  | Some s', Some p' =>
      ctl s' = ctl p' /\
      exists d, queue s' = queue s ++ d /\ queue p' = queue p ++ d
  | None, None => True
  | _, _ => False
  end ->
  match onEndTag el <$> o1, onEndTag el <$> o2 with
  | Some s', Some p' =>
      ctl s' = ctl p' /\
      exists d, queue s' = queue s ++ d /\ queue p' = queue p ++ d
  | None, None => True
  | _, _ => False
  end.
Proof.
  destruct o1 as [s1|], o2 as [p1|]; simpl; try done.
  unfold onEndTag. destruct (canHaveContent el); [done|].
  intros [Hc Hd]. split; [|done].
  destruct (ctl_eq_inv _ _ Hc) as (Hcur & Hlen & Hml & Hf).
  unfold ctl; simpl. congruence.
Qed.

Lemma wf_onEndTag base el s : wf base s -> wf base (onEndTag el s).
Proof. unfold onEndTag. destruct (canHaveContent el); [done|]. apply wf_set_failed. Qed.

Lemma moreLink_onEndTag el s : moreLink (onEndTag el s) = moreLink s.
Proof. unfold onEndTag. by destruct (canHaveContent el). Qed.

Lemma heap_onEndTag el s : heap (onEndTag el s) = heap s.
Proof. unfold onEndTag. by destruct (canHaveContent el). Qed.

Lemma queue_onEndTag el s : queue (onEndTag el s) = queue s.
Proof. unfold onEndTag. by destruct (canHaveContent el). Qed.

Lemma current_onEndTag el s : current (onEndTag el s) = current s.
Proof. unfold onEndTag. by destruct (canHaveContent el). Qed.

Lemma fmap_onEndTag_Some el (o : option state) s' :
  onEndTag el <$> o = Some s' -> exists s0, o = Some s0 /\ s' = onEndTag el s0.
Proof. destruct o as [s0|]; [|done]. intros [= <-]. by exists s0. Qed.

Lemma wf_init : wf 0 init.
Proof. unfold wf, init; simpl. split; [lia|]. split; [done|]. constructor. Qed.

Section HandlerFacts.

Variable unescape : string -> string.

Lemma stories_handler_ctl e s p :
  ctl s = ctl p ->
  match stories_handler unescape e s, stories_handler unescape e p with
  | Some s', Some p' =>
      ctl s' = ctl p' /\
      exists d, queue s' = queue s ++ d /\ queue p' = queue p ++ d
  | None, None => True
  | _, _ => False
  end.
Proof.
  intros Hc.
  destruct e; simpl; unfold set_if_number, resolve_href;
    try destruct (starts_with_digit chunk);
    first [ by apply on_current_ctl | by apply same_ctl | by apply resolve_ctl
          | by apply dispatch_new_ctl | by apply dispatch_ctl ].
Qed.

Lemma scrapeComments_ctl e s p :
  ctl s = ctl p ->
  match scrapeComments e s, scrapeComments e p with
  | Some s', Some p' =>
      ctl s' = ctl p' /\
      exists d, queue s' = queue s ++ d /\ queue p' = queue p ++ d
  | None, None => True
  | _, _ => False
  end.
Proof.
  intros Hc.
  destruct e; simpl;
    first [ by apply on_current_ctl | by apply same_ctl
          | by apply dispatch_new_ctl | by apply dispatch_ctl
          | by apply onEndTag_ctl, on_current_ctl ].
Qed.

Lemma thread_handler_ctl e s p :
  ctl s = ctl p ->
  match thread_handler unescape e s, thread_handler unescape e p with
  | Some s', Some p' =>
      ctl s' = ctl p' /\
      exists d, queue s' = queue s ++ d /\ queue p' = queue p ++ d
  | None, None => True
  | _, _ => False
  end.
Proof.
  intros Hc.
  destruct e; simpl; unfold set_if_number, resolve_href, on_post;
    try destruct (starts_with_digit chunk);
    first [ by apply on_object_ctl | by apply same_ctl | by apply resolve_ctl
          | by apply dispatchEvent_ctl | by apply scrapeComments_ctl
          | by apply (onEndTag_ctl _ (Some _) (Some _)), on_object_ctl ].
Qed.

Lemma threads_handler_ctl e s p :
  ctl s = ctl p ->
  match threads_handler unescape e s, threads_handler unescape e p with
  | Some s', Some p' =>
      ctl s' = ctl p' /\
      exists d, queue s' = queue s ++ d /\ queue p' = queue p ++ d
  | None, None => True
  | _, _ => False
  end.
Proof.
  intros Hc. destruct e; simpl; unfold resolve_href;
    first [ by apply resolve_ctl | by apply scrapeComments_ctl ].
Qed.

Lemma stories_handler_wf base e s s' :
  wf base s -> stories_handler unescape e s = Some s' -> wf base s'.
Proof.
  intros Hwf.
  destruct e; simpl; unfold set_if_number, resolve_href;
    try destruct (starts_with_digit chunk);
    first [ by apply wf_on_current | intros [= <-] ];
    auto using wf_assign_new, wf_dispatch_if_defined, wf_resolve.
Qed.

Lemma scrapeComments_wf base e s s' :
  wf base s -> scrapeComments e s = Some s' -> wf base s'.
Proof.
  intros Hwf.
  destruct e; simpl;
    first [ by apply wf_on_current
          | intros (s0 & H0 & ->)%fmap_onEndTag_Some;
            by eapply wf_onEndTag, wf_on_current
          | intros [= <-] ];
    auto using wf_assign_new, wf_dispatch_if_defined.
Qed.

Lemma threads_handler_wf base e s s' :
  wf base s -> threads_handler unescape e s = Some s' -> wf base s'.
Proof.
  intros Hwf. destruct e; simpl; unfold resolve_href.
  - intros [= <-]. by apply wf_resolve.
  - by apply scrapeComments_wf.
Qed.

Lemma thread_handler_wf e s s' :
  wf 1 s -> thread_handler unescape e s = Some s' -> wf 1 s'.
Proof.
  intros Hwf.
  destruct e; simpl; unfold set_if_number, resolve_href, on_post;
    try destruct (starts_with_digit chunk);
    first [ by apply scrapeComments_wf | intros [= <-] ];
    auto using wf_on_object, wf_resolve, wf_onEndTag.
  apply wf_dispatchEvent; [done|]. destruct Hwf as (Hb & _). unfold header_ref. lia.
Qed.

Lemma stories_handler_moreLink e s s' :
  stories_handler unescape e s = Some s' ->
  moreLink s' =
    match moreLink s with Some v => Some v | None => stories_anchor unescape e end.
Proof.
  destruct e; simpl; unfold set_if_number, resolve_href;
    try destruct (starts_with_digit chunk);
    first [ intros H; rewrite (moreLink_on_current _ _ _ H)
          | intros [= <-]; simpl;
            rewrite ?moreLink_dispatch_if_defined, ?moreLink_resolve ];
    by destruct (moreLink s).
Qed.

Lemma scrapeComments_moreLink e s s' :
  scrapeComments e s = Some s' -> moreLink s' = moreLink s.
Proof.
  destruct e; simpl;
    first [ by apply moreLink_on_current
          | intros (s0 & H0 & ->)%fmap_onEndTag_Some;
            rewrite moreLink_onEndTag; by eapply moreLink_on_current
          | intros [= <-]; simpl; by rewrite ?moreLink_dispatch_if_defined ].
Qed.

Lemma threads_handler_moreLink e s s' :
  threads_handler unescape e s = Some s' ->
  moreLink s' =
    match moreLink s with Some v => Some v | None => threads_anchor unescape e end.
Proof.
  destruct e; simpl; unfold resolve_href.
  - intros [= <-]. by rewrite moreLink_resolve.
  - intros H. rewrite (scrapeComments_moreLink _ _ _ H). by destruct (moreLink s).
Qed.

Lemma thread_handler_moreLink e s s' :
  thread_handler unescape e s = Some s' ->
  moreLink s' =
    match moreLink s with Some v => Some v | None => thread_anchor unescape e end.
Proof.
  destruct e; simpl; unfold set_if_number, resolve_href, on_post;
    try destruct (starts_with_digit chunk);
    first [ intros H; rewrite (scrapeComments_moreLink _ _ _ H)
          | intros [= <-]; rewrite ?moreLink_onEndTag; simpl;
            rewrite ?moreLink_resolve ];
    by destruct (moreLink s).
Qed.

End HandlerFacts.

(** Events that are no boundary leave the bridge alone. *)
Lemma produce_no_boundary unescape evs : forall s,
  forallb (fun ev => negb (is_boundary ev)) evs = true ->
  queue (produce (stories_handler unescape) evs s) = queue s.
Proof.
  induction evs as [|e evs IH]; intros s H; simpl in *; [done|].
  apply andb_true_iff in H as [He H]. rewrite IH by done.
  unfold produce1. destruct (failed s); [done|].
  destruct (stories_handler unescape e s) as [s'|] eqn:Hs; [|done].
  destruct e; simpl in *; try done;
    unfold set_if_number, on_current, resolve_href, resolve in Hs;
    repeat match type of Hs with
           | context [if ?c then _ else _] => destruct c
           | context [match ?c with _ => _ end] => destruct c
           end;
    by inversion Hs.
Qed.

(** A run of start-of-record elements seals one record each, except the
    first one of the pass. *)
Lemma produce_athings unescape (a : Element) k : forall s,
  failed s = false ->
  length (queue (produce (stories_handler unescape) (replicate k (athing a)) s)) =
    (length (queue s) + match current s with
                        | Some _ => k
                        | None => Nat.pred k
                        end)%nat.
Proof.
  induction k as [|k IH]; intros s Hf; simpl.
  - destruct (current s); lia.
  - rewrite IH; unfold produce1; rewrite Hf; simpl; unfold dispatch_if_defined;
      destruct (current s); simpl; rewrite ?length_app; simpl; first [lia | done].
Qed.

Lemma omap_all_None {A B} (f : A -> option B) (l : list A) :
  Forall (fun x => f x = None) l -> omap f l = [].
Proof.
  induction 1 as [|x l Hx _ IH]; [done|]. cbn [omap list_omap]. by rewrite Hx.
Qed.

Lemma continuation_none {E} (anchor : E -> option string) (evs : list E) :
  Forall (fun e => anchor e = None) evs -> continuation anchor evs = "".
Proof. intros H. unfold continuation. by rewrite omap_all_None. Qed.

Lemma continuation_first {E} (anchor : E -> option string) pre e post v :
  Forall (fun x => anchor x = None) pre -> anchor e = Some v ->
  continuation anchor (pre ++ e :: post) = v.
Proof.
  intros Hpre He. unfold continuation. rewrite omap_app, omap_all_None by done.
  cbn [app omap list_omap]. by rewrite He.
Qed.

(** ** The generators *)

Section GeneratorFacts.

Variable unescape : string -> string.
Variable blockquotify : string -> string.

Lemma storiesGenerator_spec t e :
  exists recs,
    forallb is_record recs = true /\
    record_refs recs = sealed (stories_handler unescape) (events_of t) init /\
    storiesGenerator unescape t e =
      if consume (produce (stories_handler unescape) (events_of t) init) e
      then (recs ++ [OMore (default ""
              (moreLink (produce (stories_handler unescape) (events_of t) init)))],
            Returned)
      else (recs, Pending).
Proof.
  apply (generator_spec _ _ 0%nat).
  - apply stories_handler_ctl.
  - apply stories_handler_wf.
  - apply wf_init.
  - done.
Qed.

Lemma threadsGenerator_spec t e :
  exists recs,
    forallb is_record recs = true /\
    record_refs recs = sealed (threads_handler unescape) (events_of t) init /\
    threadsGenerator unescape blockquotify t e =
      if consume (produce (threads_handler unescape) (events_of t) init) e
      then (recs ++ [OMore (default ""
              (moreLink (produce (threads_handler unescape) (events_of t) init)))],
            Returned)
      else (recs, Pending).
Proof.
  apply (generator_spec _ _ 0%nat).
  - apply threads_handler_ctl.
  - apply threads_handler_wf.
  - apply wf_init.
  - done.
Qed.

Lemma storiesGenerator_refs t e :
  record_refs (fst (storiesGenerator unescape t e)) =
    sealed (stories_handler unescape) (events_of t) init.
Proof.
  destruct (storiesGenerator_spec t e) as (recs & _ & Href & ->).
  destruct (consume _ e); simpl; [|done].
  rewrite record_refs_app. simpl. by rewrite app_nil_r.
Qed.

(** C1: in a pass of [storiesGenerator] or of [threadsGenerator] whose
    stream is read to its end and in which no handler throws, the caller
    receives every record sealed during the pass, in the order of sealing,
    and then, as the last value, exactly one continuation; the generator
    then returns, so the caller never waits for it.  The continuation is the unescaped
    [href] of the first next-page anchor that matched, and the empty string
    if none did. *)
Theorem continuation_is_last_value :
  (forall t : list (action story_event),
      no_throw (stories_handler unescape) (events_of t) init ->
      exists recs,
        forallb is_record recs = true /\
        record_refs recs = sealed (stories_handler unescape) (events_of t) init /\
        storiesGenerator unescape t Completed =
          (recs ++ [OMore (continuation (stories_anchor unescape) (events_of t))],
           Returned)) /\
  (forall t : list (action threads_event),
      no_throw (threads_handler unescape) (events_of t) init ->
      exists recs,
        forallb is_record recs = true /\
        record_refs recs = sealed (threads_handler unescape) (events_of t) init /\
        threadsGenerator unescape blockquotify t Completed =
          (recs ++ [OMore (continuation (threads_anchor unescape) (events_of t))],
           Returned)) /\
  (forall (pre post : list story_event) (a : Element),
      Forall (fun e => stories_anchor unescape e = None) pre ->
      continuation (stories_anchor unescape) (pre ++ morelink a :: post) =
        unescape (default "" (getAttribute a "href"))) /\
  (forall evs : list story_event,
      Forall (fun e => stories_anchor unescape e = None) evs ->
      continuation (stories_anchor unescape) evs = "") /\
  (forall (pre post : list threads_event) (a : Element),
      Forall (fun e => threads_anchor unescape e = None) pre ->
      continuation (threads_anchor unescape) (pre ++ th_morelink a :: post) =
        unescape (default "" (getAttribute a "href"))) /\
  (forall evs : list threads_event,
      Forall (fun e => threads_anchor unescape e = None) evs ->
      continuation (threads_anchor unescape) evs = "").
Proof.
  split; [|split; [|split; [|split; [|split]]]].
  - intros t Hok. unfold no_throw in Hok.
    destruct (storiesGenerator_spec t Completed) as (recs & Hrec & Href & Hgen).
    exists recs. split; [done|]. split; [done|]. rewrite Hgen. unfold consume. rewrite Hok. simpl.
    unfold continuation.
    by rewrite (produce_moreLink _ _ (stories_handler_moreLink unescape) _ _ Hok).
  - intros t Hok. unfold no_throw in Hok.
    destruct (threadsGenerator_spec t Completed) as (recs & Hrec & Href & Hgen).
    exists recs. split; [done|]. split; [done|]. rewrite Hgen. unfold consume. rewrite Hok. simpl.
    unfold continuation.
    by rewrite (produce_moreLink _ _ (threads_handler_moreLink unescape) _ _ Hok).
  - intros pre post a Hpre. by apply continuation_first.
  - intros evs Hevs. by apply continuation_none.
  - intros pre post a Hpre. by apply continuation_first.
  - intros evs Hevs. by apply continuation_none.
Qed.

(** C2, as the code has it: the bridge is a queue without bound.  The
    start-of-record handler seals the pending record and starts the next one
    in the same call, whatever the bridge already holds; at any moment of
    any pass the sealed records are, in order, those the consumer has taken
    followed by those in flight; and for every [n] there is a pass with [n]
    completed records in flight. *)
Theorem bridge_queues_without_bound :
  (forall (s : state) (a : Element) (r : nat),
      current s = Some r ->
      exists s',
        stories_handler unescape (athing a) s = Some s' /\
        queue s' = queue s ++ [r] /\
        current s' = Some (length (heap s))) /\
  (forall t : list (action story_event),
      sealed (stories_handler unescape) (events_of t) init =
        record_refs (snd (run (stories_handler unescape) (fun _ => classify) t init))
        ++ queue (fst (run (stories_handler unescape) (fun _ => classify) t init))) /\
  (forall n : nat,
      exists t : list (action story_event),
        length (queue (fst (run (stories_handler unescape) (fun _ => classify) t init)))
        = n).
Proof.
  split; [|split].
  - intros s a r Hc. eexists. split; [done|]. simpl.
    unfold dispatch_if_defined. by rewrite Hc.
  - intros t.
    destruct (run_fifo (stories_handler unescape) (fun _ => classify) 0%nat
                (stories_handler_ctl unescape) (stories_handler_wf unescape 0%nat)
                t init init [] wf_init eq_refl eq_refl) as (_ & _ & H & _).
    exact H.
  - intros n. exists (map Ev (replicate (S n) (athing (row "1")))).
    rewrite run_events. simpl.
    rewrite produce_athings by done. simpl. lia.
Qed.

(** C4, as the code has it: a record that has been started is handed to
    the bridge only by a later start-of-record element or by the terminal
    element.  When neither follows, the record is not among those the
    caller receives, however the stream ends. *)
Theorem pending_record_needs_boundary :
  forall (t1 t2 : list (action story_event)) (a : Element) (e : ending),
    forallb (fun ev => negb (is_boundary ev)) (events_of t2) = true ->
    ~ In (length (heap (produce (stories_handler unescape) (events_of t1) init)))
         (record_refs (fst (storiesGenerator unescape (t1 ++ Ev (athing a) :: t2) e))).
Proof.
  intros t1 t2 a e Hnb. rewrite storiesGenerator_refs. unfold sealed.
  rewrite events_of_app. simpl. rewrite produce_app. simpl.
  set (p1 := produce (stories_handler unescape) (events_of t1) init).
  assert (Hwf1 : wf 0 p1).
  { apply (produce_wf _ 0%nat (stories_handler_wf unescape 0%nat)), wf_init. }
  rewrite produce_no_boundary by done.
  intros Hin.
  assert (Hall : Forall (fun r => (r < length (heap p1))%nat)
                   (queue (produce1 (stories_handler unescape) (athing a) p1))).
  { destruct Hwf1 as (_ & Hc & Hq). unfold produce1.
    destruct (failed p1); [done|]. simpl. unfold dispatch_if_defined.
    destruct (current p1) as [r|] eqn:Hcur; simpl; [|done].
    apply Forall_app. split; [done|]. apply Forall_singleton. by apply Hc. }
  rewrite Forall_forall in Hall. apply list_elem_of_In in Hin.
  specialize (Hall _ Hin). simpl in Hall. lia.
Qed.

End GeneratorFacts.

(** ** [commentsGenerator] *)

Lemma wf_thread_init : wf 1 thread_init.
Proof. unfold wf, thread_init; simpl. split; [lia|]. split; [done|]. constructor. Qed.

Section ThreadFacts.

Variable unescape : string -> string.
Variable blockquotify : string -> string.

Lemma thread_pull_spec s b :
  wf 1 s ->
  match queue s with
  | [] => thread_pull blockquotify (s, b) = ((s, b), [])
  | r :: q =>
      exists s' o,
        thread_pull blockquotify (s, b) = ((s', true), [o]) /\
        wf 1 s' /\ ctl s' = ctl s /\ queue s' = q /\
        if b then exists v, o = ORecord r v else exists v, o = OHeader v
  end.
Proof.
  intros Hwf. destruct (queue s) as [|r q] eqn:Hqs.
  - unfold thread_pull, aMap_next. destruct b; [|by rewrite Hqs].
    by rewrite (pull_nil _ s Hqs).
  - destruct b.
    + destruct (pull_cons (emit_kid blockquotify) 1%nat s r q Hwf Hqs) as (v & Hv & Hp).
      unfold thread_pull, aMap_next. rewrite Hp.
      eexists _, _. split; [done|]. split; [by apply wf_after_pull|].
      split; [unfold ctl; simpl; by rewrite length_alter|].
      split; [done|]. by eexists.
    + unfold thread_pull. rewrite Hqs. unfold header_step.
      assert (Hwf' : wf 1 (on_object header_ref (fix_header blockquotify) (set_queue q s))).
      { apply wf_on_object. destruct Hwf as (Hb & Hc & Hq). unfold wf; simpl.
        rewrite Hqs in Hq. by apply Forall_cons in Hq as [_ ?]. }
      destruct Hwf' as (Hb & Hrest).
      destruct (lookup_lt_is_Some_2
                  (heap (on_object header_ref (fix_header blockquotify) (set_queue q s)))
                  header_ref) as [v Hv]; [unfold header_ref in *; lia|].
      rewrite Hv. eexists _, _. split; [done|]. split; [by split|].
      split; [unfold ctl; simpl; by rewrite length_alter|].
      split; [done|]. by eexists.
Qed.

(** One more value for the caller: the header at first, a record
    afterwards. *)
Lemma thread_inv_pull b taken o0 r o :
  thread_inv b taken o0 ->
  (if b then exists v, o = ORecord r v else exists v, o = OHeader v) ->
  thread_inv true (taken ++ [r]) (o0 ++ [o]).
Proof.
  unfold thread_inv. destruct b.
  - intros (h & kids & r0 & -> & -> & Hk) [v ->].
    exists h, (kids ++ [ORecord r v]), r0.
    rewrite record_refs_app, forallb_is_record_app, Hk. done.
  - intros [-> ->] [v ->]. by exists v, [], r.
Qed.

(** The interleaved run of [commentsGenerator] against the producer
    alone. *)
Lemma thread_run_fifo t : forall s b p taken o0,
  wf 1 s -> ctl s = ctl p -> queue p = taken ++ queue s ->
  thread_inv b taken o0 ->
  exists taken',
    wf 1 (fst (fst (thread_run unescape blockquotify t (s, b)))) /\
    ctl (fst (fst (thread_run unescape blockquotify t (s, b)))) =
      ctl (produce (thread_handler unescape) (events_of t) p) /\
    queue (produce (thread_handler unescape) (events_of t) p) =
      taken' ++ queue (fst (fst (thread_run unescape blockquotify t (s, b)))) /\
    thread_inv (snd (fst (thread_run unescape blockquotify t (s, b)))) taken'
               (o0 ++ snd (thread_run unescape blockquotify t (s, b))).
Proof.
  induction t as [|a t IH]; intros s b p taken o0 Hwf Hc Hq Hinv.
  - exists taken. simpl. by rewrite app_nil_r.
  - destruct a as [e|]; cbn [thread_run thread_step events_of omap list_omap fst snd].
    + change (list_omap _ _ _ t) with (events_of t).
      cbn [produce fold_left]. change (fold_left _ (events_of t) ?x)
        with (produce (thread_handler unescape) (events_of t) x).
      destruct (produce1_sim _ (thread_handler_ctl unescape) e s p Hc)
        as (Hc' & d & Hs & Hp).
      destruct (IH (produce1 (thread_handler unescape) e s) b
                   (produce1 (thread_handler unescape) e p) taken o0) as (tk & H);
        [ by apply (produce1_wf _ 1%nat (thread_handler_wf unescape)) | done
        | by rewrite Hs, Hp, Hq, <- app_assoc | done | ].
      exists tk.
      destruct (thread_run unescape blockquotify t _) as [[s2 b2] o2]. done.
    + change (list_omap _ _ _ t) with (events_of t).
      pose proof (thread_pull_spec s b Hwf) as Hpull.
      destruct (queue s) as [|r q] eqn:Hqs.
      * rewrite Hpull.
        destruct (IH s b p taken o0 Hwf Hc) as (tk & H); [by rewrite Hqs | done |].
        exists tk.
        destruct (thread_run unescape blockquotify t (s, b)) as [[s2 b2] o2]. done.
      * destruct Hpull as (s' & o & -> & Hwf' & Hc' & Hq' & Ho).
        destruct (IH s' true p (taken ++ [r]) (o0 ++ [o])) as (tk & H);
          [ done | congruence | by rewrite Hq', <- app_assoc | | ].
        { by apply (thread_inv_pull b). }
        exists tk.
        destruct (thread_run unescape blockquotify t (s', true)) as [[s2 b2] o2].
        simpl in *. by rewrite <- app_assoc in H.
Qed.

Lemma thread_pulls_fifo n : forall s b taken o0,
  wf 1 s -> thread_inv b taken o0 ->
  wf 1 (fst (fst (thread_pulls blockquotify n (s, b)))) /\
  ctl (fst (fst (thread_pulls blockquotify n (s, b)))) = ctl s /\
  queue (fst (fst (thread_pulls blockquotify n (s, b)))) = drop n (queue s) /\
  thread_inv (snd (fst (thread_pulls blockquotify n (s, b))))
             (taken ++ take n (queue s))
             (o0 ++ snd (thread_pulls blockquotify n (s, b))).
Proof.
  induction n as [|n IH]; intros s b taken o0 Hwf Hinv; cbn [thread_pulls].
  - simpl. by rewrite drop_0, !app_nil_r.
  - pose proof (thread_pull_spec s b Hwf) as Hpull.
    destruct (queue s) as [|r q] eqn:Hqs.
    + rewrite Hpull. specialize (IH s b taken o0 Hwf Hinv). rewrite Hqs in IH.
      destruct (thread_pulls blockquotify n (s, b)) as [[s2 b2] o2]. simpl in *.
      by rewrite take_nil, drop_nil in *.
    + destruct Hpull as (s' & o & -> & Hwf' & Hc' & Hq' & Ho).
      destruct (IH s' true (taken ++ [r]) (o0 ++ [o]) Hwf') as (H1 & H2 & H3 & H4).
      { by apply (thread_inv_pull b). }
      destruct (thread_pulls blockquotify n (s', true)) as [[s2 b2] o2]. simpl in *.
      rewrite Hq' in *. rewrite <- !app_assoc in H4. simpl in H4.
      split; [done|]. split; [congruence|]. done.
Qed.

(** What the caller of [commentsGenerator] receives: if anything was
    dispatched, or if the pass ends well, the header and then one record
    for every event dispatched after the first one; the last request ends
    according to how the pass ends. *)
Lemma commentsGenerator_spec t e :
  let p := produce (thread_handler unescape) (events_of t) thread_init in
  let res := commentsGenerator unescape blockquotify t e in
  last res = (if consume p e then Returned else Pending) /\
  ((exists h kids,
       outputs res = OHeader h :: kids /\
       forallb is_record kids = true /\
       record_refs kids = tail (queue p) /\
       more res = Some (race_moreLink p (consume p e))) \/
   (consume p e = false /\ queue p = [] /\ outputs res = [] /\ more res = None)).
Proof.
  intros p res. unfold res, commentsGenerator.
  destruct (thread_run_fifo t thread_init false thread_init [] [] wf_thread_init
              eq_refl eq_refl (conj eq_refl eq_refl)) as (tk & Hwf1 & Hc1 & Hq1 & Hi1).
  fold p in Hc1, Hq1.
  destruct (thread_run unescape blockquotify t (thread_init, false)) as [[s1 b1] o1].
  cbn [fst snd] in *.
  destruct (thread_pulls_fifo (length (queue s1)) s1 b1 tk o1 Hwf1 Hi1)
    as (Hwf2 & Hc2 & Hq2 & Hi2).
  destruct (thread_pulls blockquotify (length (queue s1)) (s1, b1)) as [[s2 b2] o2].
  cbn [fst snd] in *.
  rewrite firstn_all, <- Hq1 in Hi2. rewrite drop_all in Hq2.
  destruct (ctl_eq_inv _ _ Hc1) as (_ & _ & Hml1 & Hf1).
  destruct (ctl_eq_inv _ _ Hc2) as (_ & _ & Hml2 & _).
  assert (Hw : consume s1 e = consume p e) by (unfold consume; by rewrite Hf1).
  rewrite Hw. unfold thread_inv in Hi2. destruct b2.
  - destruct Hi2 as (h & kids & r0 & Hp & Ho & Hk). cbn [last outputs more].
    split; [done|]. left. exists h, kids. split; [done|]. split; [done|].
    split; [by rewrite Hp|]. unfold race_moreLink. by rewrite Hml2, Hml1.
  - destruct Hi2 as [Hp Ho]. destruct (consume p e) eqn:Hwell.
    + unfold header_step.
      destruct (lookup_lt_is_Some_2
                  (heap (on_object header_ref (fix_header blockquotify) s2))
                  header_ref) as [v Hv].
      { destruct Hwf2 as (Hb & _). simpl. rewrite length_alter.
        unfold header_ref. lia. }
      rewrite Hv. cbn [last outputs more]. split; [done|]. left.
      exists v, []. rewrite app_assoc, Ho, Hp. simpl.
      split; [done|]. split; [done|]. split; [done|].
      unfold race_moreLink; simpl. by rewrite Hml2, Hml1.
    + cbn [last outputs more]. split; [done|]. right. done.
Qed.

Lemma thread_pulls_as_run n : forall c,
  thread_pulls blockquotify n c = thread_run unescape blockquotify (replicate n Pull) c.
Proof.
  induction n as [|n IH]; intros c; [done|].
  cbn [thread_pulls replicate thread_run thread_step].
  destruct (thread_pull blockquotify c) as [c1 o1]. by rewrite IH.
Qed.

Lemma thread_run_app t1 t2 c :
  thread_run unescape blockquotify (t1 ++ t2) c =
  (fst (thread_run unescape blockquotify t2 (fst (thread_run unescape blockquotify t1 c))),
   snd (thread_run unescape blockquotify t1 c) ++
   snd (thread_run unescape blockquotify t2 (fst (thread_run unescape blockquotify t1 c)))).
Proof.
  revert c. induction t1 as [|a t1 IH]; intros c.
  - simpl. by destruct (thread_run unescape blockquotify t2 c).
  - cbn [app thread_run]. destruct (thread_step unescape blockquotify a c) as [c1 o1].
    rewrite IH. destruct (thread_run unescape blockquotify t1 c1) as [c2 o2]. simpl.
    destruct (thread_run unescape blockquotify t2 c2) as [c3 o3]. simpl.
    by rewrite app_assoc.
Qed.

(** Until the function returns, the consumer has changed nothing: the
    store is the one of the handlers alone.  The function returns with the
    header as the store has it at the first pull that finds an event. *)
Lemma thread_run_header t : forall s,
  wf 1 s ->
  (thread_run unescape blockquotify t (s, false) =
     ((produce (thread_handler unescape) (events_of t) s, false), [])) \/
  (exists t1 t2 c kids,
      t = t1 ++ Pull :: t2 /\
      thread_run unescape blockquotify t1 (s, false) =
        ((produce (thread_handler unescape) (events_of t1) s, false), []) /\
      queue (produce (thread_handler unescape) (events_of t1) s) <> [] /\
      heap (produce (thread_handler unescape) (events_of t1) s) !! header_ref = Some c /\
      snd (thread_run unescape blockquotify t (s, false)) =
        OHeader (fix_header blockquotify c) :: kids).
Proof.
  induction t as [|a t IH]; intros s Hwf; [by left|].
  destruct a as [e|]; cbn [thread_run thread_step fst snd].
  - rewrite events_of_Ev, produce_cons.
    destruct (IH (produce1 (thread_handler unescape) e s)) as [->|H].
    + by apply (produce1_wf _ 1%nat (thread_handler_wf unescape)).
    + by left.
    + right. destruct H as (t1 & t2 & c & kids & -> & Hrun & Hq & Hc & Hout).
      exists (Ev e :: t1), t2, c, kids. rewrite events_of_Ev, produce_cons.
      split; [done|]. split; [cbn [thread_run thread_step fst snd]; rewrite Hrun; reflexivity|].
      split; [done|]. split; [done|].
      destruct (thread_run unescape blockquotify (t1 ++ Pull :: t2) _) as [c2 o2].
      by simpl in *.
  - rewrite events_of_Pull. unfold thread_pull.
    destruct (queue s) as [|r0 q] eqn:Hq.
    + destruct (IH s Hwf) as [->|H]; [by left|]. right.
      destruct H as (t1 & t2 & c & kids & -> & Hrun & Hq1 & Hc & Hout).
      exists (Pull :: t1), t2, c, kids. rewrite events_of_Pull.
      split; [done|].
      split; [cbn [thread_run thread_step]; unfold thread_pull; rewrite Hq, Hrun; reflexivity|].
      split; [done|]. split; [done|].
      destruct (thread_run unescape blockquotify (t1 ++ Pull :: t2) _) as [c2 o2].
      by simpl in *.
    + right. destruct (lookup_lt_is_Some_2 (heap s) header_ref) as [c Hc].
      { destruct Hwf as (Hb & _). unfold header_ref. lia. }
      unfold header_step, on_object. cbn [heap set_heap set_queue].
      rewrite list_lookup_alter_eq, Hc. cbn [fmap option_fmap option_map].
      destruct (thread_run unescape blockquotify t _) as [c2 o2].
      exists [], t, c, o2. cbn [events_of omap list_omap produce fold_left app snd].
      split; [done|]. split; [done|]. split; [by rewrite Hq|]. done.
Qed.

Lemma thread_pulls_queue n : forall s b,
  queue (fst (fst (thread_pulls blockquotify n (s, b)))) = drop n (queue s).
Proof.
  induction n as [|n IH]; intros s b; [by rewrite drop_0|].
  cbn [thread_pulls]. unfold thread_pull, aMap_next, pull, header_step.
  destruct (queue s) as [|r q] eqn:Hq.
  - specialize (IH s b). rewrite Hq, drop_nil in IH.
    destruct b; destruct (thread_pulls blockquotify n _) as [[s2 b2] o2]; exact IH.
  - cbn [drop]. destruct b.
    + match goal with
      | |- context [thread_pulls blockquotify n (?s1, true)] =>
          specialize (IH s1 true);
          destruct (thread_pulls blockquotify n (s1, true)) as [[s2 b2] o2]
      end.
      exact IH.
    + match goal with
      | |- context [thread_pulls blockquotify n (?s1, true)] =>
          specialize (IH s1 true);
          destruct (thread_pulls blockquotify n (s1, true)) as [[s2 b2] o2]
      end.
      exact IH.
Qed.

(** The header that [commentsGenerator] returns is the header object as
    the handlers have built it when the first event is taken, or at the end
    of a pass that dispatches nothing, after the repair of its body. *)
Lemma commentsGenerator_header t e h kids :
  outputs (commentsGenerator unescape blockquotify t e) = OHeader h :: kids ->
  exists c, header_taken_as unescape blockquotify t c /\ h = fix_header blockquotify c.
Proof.
  unfold commentsGenerator.
  destruct (thread_run unescape blockquotify t (thread_init, false))
    as [[s1 r1] o1] eqn:Hr.
  pose proof (thread_pulls_queue (length (queue s1)) s1 r1) as Hqueue.
  destruct (thread_pulls blockquotify (length (queue s1)) (s1, r1))
    as [[s2 r2] o2] eqn:Hd.
  cbn [fst] in Hqueue. rewrite drop_all in Hqueue.
  pose proof (thread_run_header (t ++ replicate (length (queue s1)) Pull)
                thread_init wf_thread_init) as Hh.
  rewrite thread_run_app, Hr in Hh. cbn [fst snd] in Hh.
  rewrite <- thread_pulls_as_run, Hd in Hh. cbn [fst snd] in Hh.
  rewrite events_of_app, events_of_pulls, app_nil_r in Hh.
  destruct Hh as [[= -> -> Ho]|(t1 & t2 & c & kids' & Ht & Hrun & Hq & Hc & Ho)].
  - apply app_eq_nil in Ho as [-> ->].
    destruct (consume s1 e); [|done].
    unfold header_step, on_object. cbn [heap set_heap].
    rewrite list_lookup_alter_eq.
    destruct (heap (produce _ (events_of t) thread_init) !! header_ref) as [c|] eqn:Hc;
      [|done].
    cbn [fmap option_fmap option_map outputs app]. intros [= <- <-].
    exists c. split; [|done]. right. by split.
  - intros Hout.
    assert (Hhead : h = fix_header blockquotify c).
    { destruct r2; [|destruct (consume s1 e); [destruct (header_step _ _)|]];
        cbn [outputs] in Hout; rewrite ?app_assoc, Ho in Hout;
        by injection Hout as <-. }
    exists c. split; [|done]. left.
    by exists (length (queue s1)), t1, t2.
Qed.

(** A handler dispatches at most one object; only the handler of
    '.comment-tree' dispatches the header, the others dispatch the comment
    under construction. *)
Lemma thread_dispatch e s :
  wf 1 s -> (forall r, current s = Some r -> (1 <= r)%nat) ->
  (forall r, current (produce1 (thread_handler unescape) e s) = Some r -> (1 <= r)%nat) /\
  exists d,
    queue (produce1 (thread_handler unescape) e s) = queue s ++ d /\
    (length d <= 1)%nat /\
    (is_comment_tree e = false -> Forall (fun r => r <> header_ref) d).
Proof.
  intros (Hlen & _) Hcur.
  assert (Hsame : forall s', current s' = current s -> queue s' = queue s ->
            (forall r, current s' = Some r -> (1 <= r)%nat) /\
            exists d, queue s' = queue s ++ d /\ (length d <= 1)%nat /\
                      (is_comment_tree e = false -> Forall (fun r => r <> header_ref) d)).
  { intros s' Hc Hq. split; [by rewrite Hc|]. exists []. rewrite app_nil_r.
    split; [done|]. split; [simpl; lia|]. by intros _. }
  assert (Hdisp : is_comment_tree e = false ->
            exists d, queue (dispatch_if_defined s) = queue s ++ d /\ (length d <= 1)%nat /\
                      (is_comment_tree e = false -> Forall (fun r => r <> header_ref) d)).
  { intros _. unfold dispatch_if_defined. destruct (current s) as [r|] eqn:Hr.
    - exists [r]. split; [done|]. split; [simpl; lia|]. intros _. constructor; [|done].
      specialize (Hcur r eq_refl). unfold header_ref. lia.
    - exists []. rewrite app_nil_r. split; [done|]. split; [simpl; lia|]. by intros _. }
  unfold produce1. destruct (failed s); [by apply Hsame|].
  destruct (thread_handler unescape e s) as [s'|] eqn:He; [|by apply Hsame].
  destruct e as [| | | | | | | | | | | | | | | | | | | | |e'];
    cbn [thread_handler] in He; unfold set_if_number, on_post in He;
    try destruct (starts_with_digit chunk);
    try (cbn [fmap option_fmap option_map] in He; injection He as <-;
         unfold onEndTag, on_object, resolve_href, resolve;
         try destruct (canHaveContent el); try destruct (moreLink s);
         by apply Hsame).
  - injection He as <-. split; [exact Hcur|]. exists [header_ref]. split; [done|].
    split; [simpl; lia|]. done.
  - destruct e'; cbn [scrapeComments] in He;
      try (unfold on_current in He; destruct (current s) as [r0|] eqn:Hr0; [|done];
           cbn [fmap option_fmap option_map] in He; injection He as <-;
           unfold onEndTag; try destruct (canHaveContent el); by apply Hsame).
    + injection He as <-. split.
      * cbn [assign_new current]. intros r [= <-].
        unfold dispatch_if_defined. by destruct (current s).
      * cbn [assign_new queue]. by apply Hdisp.
    + injection He as <-. by apply Hsame.
    + injection He as <-. split.
      * unfold dispatch_if_defined. destruct (current s) eqn:Hc; [|by rewrite Hc].
        cbn [dispatchEvent set_queue current]. by rewrite Hc.
      * by apply Hdisp.
Qed.

Lemma thread_dispatch_run evs : forall s,
  wf 1 s -> (forall r, current s = Some r -> (1 <= r)%nat) ->
  Forall (fun e => is_comment_tree e = false) evs ->
  exists d,
    queue (produce (thread_handler unescape) evs s) = queue s ++ d /\
    Forall (fun r => r <> header_ref) d.
Proof.
  induction evs as [|e evs IH]; intros s Hwf Hcur Hevs.
  - exists []. by rewrite app_nil_r.
  - apply Forall_cons in Hevs as [He Hevs]. rewrite produce_cons.
    destruct (thread_dispatch e s Hwf Hcur) as (Hcur' & d1 & Hq1 & _ & Hd1).
    destruct (IH (produce1 (thread_handler unescape) e s)) as (d2 & Hq2 & Hd2);
      [by apply (produce1_wf _ 1%nat (thread_handler_wf unescape)) | done | done |].
    exists (d1 ++ d2). rewrite Hq2, Hq1, <- app_assoc. split; [done|].
    apply Forall_app. split; [by apply Hd1|done].
Qed.

Lemma thread_current evs : forall s,
  wf 1 s -> (forall r, current s = Some r -> (1 <= r)%nat) ->
  forall r, current (produce (thread_handler unescape) evs s) = Some r -> (1 <= r)%nat.
Proof.
  induction evs as [|e evs IH]; intros s Hwf Hcur; [done|].
  rewrite produce_cons. apply IH.
  - by apply (produce1_wf _ 1%nat (thread_handler_wf unescape)).
  - by apply thread_dispatch.
Qed.

(** Once the first event is dispatched, the header object is dispatched
    again only by a further '.comment-tree' element. *)
Lemma header_not_sealed_again pre e post :
  sealed (thread_handler unescape) pre thread_init = [] ->
  Forall (fun e' => is_comment_tree e' = false) post ->
  ~ In header_ref (tail (sealed (thread_handler unescape) (pre ++ e :: post) thread_init)).
Proof.
  unfold sealed. intros Hpre Hpost.
  rewrite produce_app, produce_cons.
  set (s := produce (thread_handler unescape) pre thread_init) in *.
  assert (Hwf : wf 1 s) by apply (produce_wf _ 1%nat (thread_handler_wf unescape)),
                             wf_thread_init.
  assert (Hcur : forall r, current s = Some r -> (1 <= r)%nat)
    by (by apply thread_current; [apply wf_thread_init|]).
  destruct (thread_dispatch e s Hwf Hcur) as (Hcur' & d1 & Hq1 & Hlen & _).
  destruct (thread_dispatch_run post (produce1 (thread_handler unescape) e s))
    as (d2 & Hq2 & Hd2);
    [by apply (produce1_wf _ 1%nat (thread_handler_wf unescape)) | done | done |].
  rewrite Hq2, Hq1, Hpre. cbn [app]. intros Hin.
  assert (Hin2 : In header_ref d2).
  { destruct d1 as [|r1 [|r2 d1]]; simpl in *; [|done|lia].
    destruct d2 as [|r2 d2]; [done|]. by right. }
  apply list_elem_of_In in Hin2. by apply (proj1 (Forall_forall _ _) Hd2 _ Hin2).
Qed.

(** A '.comment-tree' element that follows the first dispatch dispatches
    the header object again. *)
Lemma header_sealed_again pre post :
  failed (produce (thread_handler unescape) (pre ++ comment_tree :: post) thread_init)
    = false ->
  sealed (thread_handler unescape) pre thread_init <> [] ->
  In header_ref (tail (sealed (thread_handler unescape) (pre ++ comment_tree :: post)
                         thread_init)).
Proof.
  unfold sealed. rewrite produce_app, produce_cons.
  set (s := produce (thread_handler unescape) pre thread_init).
  intros Hf Hpre.
  assert (Hfs : failed s = false).
  { destruct (failed s) eqn:Hfs; [|done].
    assert (H1 : produce1 (thread_handler unescape) comment_tree s = s)
      by (unfold produce1; by rewrite Hfs).
    rewrite H1, (produce_failed_mono _ post s Hfs) in Hf. congruence. }
  assert (H1 : produce1 (thread_handler unescape) comment_tree s = dispatchEvent header_ref s)
    by (unfold produce1; by rewrite Hfs).
  rewrite H1.
  destruct (produce_queue_prefix _ (thread_handler_ctl unescape) post
              (dispatchEvent header_ref s)) as (d & ->).
  cbn [dispatchEvent set_queue queue].
  destruct (queue s) as [|r0 q]; [done|]. cbn [app tail].
  apply in_or_app. left. apply in_or_app. right. by left.
Qed.

(** C9, as the code has it: in a pass of [commentsGenerator] in which no
    handler throws and whose stream is read to its end, the caller receives
    the header first: it is the header object as the handlers have built it
    when the first event of the bridge is taken (or at the end of the pass,
    if nothing was dispatched), after the repair of its body.  The values
    of [post.kids] that follow, pulled when the caller asks for them, are
    the events that the handlers of this same pass dispatched on the same
    event target after the first one, in the order of dispatch; then the
    sequence ends.  The header object is not among them when no
    '.comment-tree' element follows the first dispatch, and it is among
    them, handed out as a comment, when one does. *)
Theorem header_then_comments_of_same_pass :
  forall t : list (action thread_event),
    no_throw (thread_handler unescape) (events_of t) thread_init ->
    exists c kids,
      header_taken_as unescape blockquotify t c /\
      outputs (commentsGenerator unescape blockquotify t Completed) =
        OHeader (fix_header blockquotify c) :: kids /\
      forallb is_record kids = true /\
      record_refs kids =
        tail (sealed (thread_handler unescape) (events_of t) thread_init) /\
      last (commentsGenerator unescape blockquotify t Completed) = Returned /\
      (forall pre e post,
          events_of t = pre ++ e :: post ->
          sealed (thread_handler unescape) pre thread_init = [] ->
          Forall (fun e' => is_comment_tree e' = false) post ->
          ~ In header_ref (record_refs kids)) /\
      (forall pre post,
          events_of t = pre ++ comment_tree :: post ->
          sealed (thread_handler unescape) pre thread_init <> [] ->
          In header_ref (record_refs kids)).
Proof.
  intros t Hok. unfold no_throw in Hok.
  destruct (commentsGenerator_spec t Completed) as (Hlast & Hout).
  assert (Hw : consume (produce (thread_handler unescape) (events_of t) thread_init)
                 Completed = true) by (unfold consume; by rewrite Hok).
  rewrite Hw in *.
  destruct Hout as [(h & kids & Ho & Hk & Hr & _) | (Hbad & _)]; [|done].
  destruct (commentsGenerator_header t Completed h kids Ho) as (c & Hc & ->).
  exists c, kids. repeat (split; [done|]). split.
  - intros pre e post Ht Hpre Hpost. rewrite Hr, Ht.
    by apply header_not_sealed_again.
  - intros pre post Ht Hpre. rewrite Hr, Ht.
    apply header_sealed_again; [by rewrite <- Ht|done].
Qed.

Lemma id_fixComment c : id_ (fixComment blockquotify c) = id_ c.
Proof. unfold fixComment. destruct (text c) as [t|]; [destruct (truthy (trim t))|]; done. Qed.

Lemma story_fixComment c : story (fixComment blockquotify c) = story c.
Proof. unfold fixComment. destruct (text c) as [t|]; [destruct (truthy (trim t))|]; done. Qed.

Lemma id_fix_header c : id_ (fix_header blockquotify c) = id_ c.
Proof. unfold fix_header. destruct (text c) as [t|]; [destruct (truthy (trim t))|]; done. Qed.

Lemma post_id_alter f r s :
  (forall o, id_ (f o) = id_ o) ->
  post_id (set_heap (alter f r (heap s)) s) = post_id s.
Proof.
  intros Hf. unfold post_id; simpl. destruct (decide (r = 0%nat)) as [->|Hne].
  - rewrite list_lookup_alter_eq. destruct (heap s !! 0%nat); simpl; [apply Hf|done].
  - by rewrite list_lookup_alter_ne.
Qed.

Lemma post_id_on_current f s s' :
  (forall o, id_ (f o) = id_ o) -> on_current f s = Some s' -> post_id s' = post_id s.
Proof.
  intros Hf. unfold on_current. destruct (current s) as [r|]; [|done].
  intros [= <-]. by apply post_id_alter.
Qed.

Lemma post_id_assign_new o s :
  (1 <= length (heap s))%nat -> post_id (assign_new o s) = post_id s.
Proof.
  intros Hlen. unfold post_id; simpl. by rewrite lookup_app_l by lia.
Qed.

Lemma post_id_dispatch_if_defined s : post_id (dispatch_if_defined s) = post_id s.
Proof. unfold dispatch_if_defined. by destruct (current s). Qed.

Lemma post_id_resolve v s : post_id (resolve v s) = post_id s.
Proof. unfold resolve. by destruct (moreLink s). Qed.

Lemma post_id_onEndTag el s : post_id (onEndTag el s) = post_id s.
Proof. unfold post_id. by rewrite heap_onEndTag. Qed.

Lemma scrapeComments_post_id e s s' :
  (1 <= length (heap s))%nat ->
  scrapeComments e s = Some s' -> post_id s' = post_id s.
Proof.
  intros Hlen.
  destruct e; simpl;
    first [ by apply post_id_on_current
          | intros (s0 & H0 & ->)%fmap_onEndTag_Some;
            rewrite post_id_onEndTag;
            by eapply post_id_on_current; [|exact H0]
          | intros [= <-]; rewrite ?post_id_assign_new, ?post_id_dispatch_if_defined;
            first [ done | unfold dispatch_if_defined; by destruct (current s) ] ].
Qed.

(** Only the handler of '.fatitem .athing[id]' writes [post.id]. *)
Lemma produce1_post_id a s :
  wf 1 s -> is_fat_athing (Ev a) = false ->
  post_id (produce1 (thread_handler unescape) a s) = post_id s.
Proof.
  intros Hwf Ha. unfold produce1. destruct (failed s); [done|].
  destruct (thread_handler unescape a s) as [s'|] eqn:Hs; [|done].
  destruct Hwf as (Hlen & _).
  destruct a; simpl in *; try done;
    unfold set_if_number, on_post, on_object, resolve_href in Hs;
    try destruct (starts_with_digit chunk);
    first [ by eapply scrapeComments_post_id
          | injection Hs as <-; rewrite ?post_id_onEndTag;
            first [ by apply post_id_alter | by apply post_id_resolve | done ] ].
Qed.

Lemma thread_pull_post_id s b i :
  wf 1 s -> post_id s = i ->
  post_id (fst (fst (thread_pull blockquotify (s, b)))) = i /\
  forall r v, In (ORecord r v) (snd (thread_pull blockquotify (s, b))) -> story v = i.
Proof.
  intros Hwf Hi. destruct b.
  - destruct (queue s) as [|r q] eqn:Hqs.
    + unfold thread_pull, aMap_next. rewrite (pull_nil _ s Hqs). by split.
    + destruct (pull_cons (emit_kid blockquotify) 1%nat s r q Hwf Hqs) as (c & Hc & Hp).
      unfold thread_pull, aMap_next. rewrite Hp. cbn [fst snd]. split.
      * rewrite <- Hi.
        apply (post_id_alter (emit_kid blockquotify (heap s)) r (set_queue q s)).
        intros o. unfold emit_kid. by rewrite id_fixComment.
      * intros r' v [[= <- <-]|[]]. unfold emit_kid. by rewrite story_fixComment.
  - unfold thread_pull. destruct (queue s) as [|r q] eqn:Hqs; [by split|].
    unfold header_step.
    destruct (heap (on_object header_ref (fix_header blockquotify) (set_queue q s))
                !! header_ref) as [v|]; cbn [fst snd]; (split;
      [ rewrite <- Hi;
        apply (post_id_alter (fix_header blockquotify) header_ref (set_queue q s)),
              id_fix_header
      | ]).
    + by intros r' v' [[=]|[]].
    + by intros r' v' [].
Qed.

Lemma thread_pull_wf s b : wf 1 s -> wf 1 (fst (fst (thread_pull blockquotify (s, b)))).
Proof.
  intros Hwf. pose proof (thread_pull_spec s b Hwf) as H.
  destruct (queue s) as [|r q]; [by rewrite H|].
  by destruct H as (s' & o & -> & Hwf' & _).
Qed.

Lemma thread_run_events evs t : forall s b,
  thread_run unescape blockquotify (map Ev evs ++ t) (s, b) =
  thread_run unescape blockquotify t (produce (thread_handler unescape) evs s, b).
Proof.
  induction evs as [|e evs IH]; intros s b; [done|].
  cbn [map app thread_run thread_step fst snd]. rewrite IH. cbn [produce fold_left].
  by destruct (thread_run unescape blockquotify t _) as [c2 o2].
Qed.

Lemma thread_run_story t : forall s b i,
  wf 1 s -> post_id s = i ->
  forallb (fun a => negb (is_fat_athing a)) t = true ->
  wf 1 (fst (fst (thread_run unescape blockquotify t (s, b)))) /\
  post_id (fst (fst (thread_run unescape blockquotify t (s, b)))) = i /\
  forall r v, In (ORecord r v) (snd (thread_run unescape blockquotify t (s, b))) ->
              story v = i.
Proof.
  induction t as [|a t IH]; intros s b i Hwf Hi Hno.
  - simpl. split; [done|]. split; [done|]. by intros r v [].
  - cbn [forallb] in Hno. apply andb_true_iff in Hno as [Ha Hno].
    apply negb_true_iff in Ha. cbn [thread_run].
    destruct a as [e|]; cbn [thread_step fst snd].
    + specialize (IH (produce1 (thread_handler unescape) e s) b i
                     (produce1_wf _ 1%nat (thread_handler_wf unescape) e s Hwf)).
      rewrite produce1_post_id in IH by done. specialize (IH Hi Hno).
      destruct (thread_run unescape blockquotify t _) as [[s2 b2] o2]. done.
    + pose proof (thread_pull_wf s b Hwf) as Hwf1.
      destruct (thread_pull_post_id s b i Hwf Hi) as (Hi1 & Ho1).
      destruct (thread_pull blockquotify (s, b)) as [[s1 b1] o1]. cbn [fst snd] in *.
      specialize (IH s1 b1 i Hwf1 Hi1 Hno).
      destruct (thread_run unescape blockquotify t (s1, b1)) as [[s2 b2] o2].
      cbn [fst snd] in *. destruct IH as (? & ? & Ho2).
      split; [done|]. split; [done|].
      intros r v Hin. apply in_app_or in Hin as [Hin|Hin]; eauto.
Qed.

Lemma thread_pulls_story n : forall s b i,
  wf 1 s -> post_id s = i ->
  forall r v, In (ORecord r v) (snd (thread_pulls blockquotify n (s, b))) -> story v = i.
Proof.
  induction n as [|n IH]; intros s b i Hwf Hi; cbn [thread_pulls].
  - by intros r v [].
  - pose proof (thread_pull_wf s b Hwf) as Hwf1.
    destruct (thread_pull_post_id s b i Hwf Hi) as (Hi1 & Ho1).
    destruct (thread_pull blockquotify (s, b)) as [[s1 b1] o1]. cbn [fst snd] in *.
    specialize (IH s1 b1 i Hwf1 Hi1).
    destruct (thread_pulls blockquotify n (s1, b1)) as [[s2 b2] o2].
    cbn [fst snd] in *.
    intros r v Hin. apply in_app_or in Hin as [Hin|Hin]; eauto.
Qed.

(** C10: each value of [post.kids] is handed out with [story] set to the
    [id] that the header has at that moment, whatever the comment held
    before; so in a pass where the header's id is written before the
    comments are pulled and not afterwards, every comment of [post.kids]
    carries that id. *)
Theorem kids_story_is_post_id :
  (forall (s : state) (r : nat) (q : list nat) (c : item),
      queue s = r :: q -> heap s !! r = Some c ->
      exists s' v,
        thread_pull blockquotify (s, true) = ((s', true), [ORecord r v]) /\
        story v = post_id s) /\
  (forall (hdr : list thread_event) (t : list (action thread_event)) (e : ending)
          (r : nat) (v : item),
      forallb (fun a => negb (is_fat_athing a)) t = true ->
      In (ORecord r v)
         (outputs (commentsGenerator unescape blockquotify (map Ev hdr ++ t) e)) ->
      story v = post_id (produce (thread_handler unescape) hdr thread_init)).
Proof.
  split.
  - intros s r q c Hq Hc. unfold thread_pull, aMap_next, pull. rewrite Hq.
    rewrite list_lookup_alter_eq, Hc. simpl. eexists _, _. split; [done|].
    unfold emit_kid. by rewrite story_fixComment.
  - intros hdr t e r v Hno. unfold commentsGenerator. rewrite thread_run_events.
    set (s0 := produce (thread_handler unescape) hdr thread_init).
    assert (Hwf0 : wf 1 s0).
    { apply (produce_wf _ 1%nat (thread_handler_wf unescape)), wf_thread_init. }
    destruct (thread_run_story t s0 false (post_id s0) Hwf0 eq_refl Hno)
      as (Hwf1 & Hi1 & Ho1).
    destruct (thread_run unescape blockquotify t (s0, false)) as [[s1 b1] o1].
    cbn [fst snd] in *.
    pose proof (thread_pulls_story (length (queue s1)) s1 b1 (post_id s0) Hwf1 Hi1)
      as Ho2.
    destruct (thread_pulls blockquotify (length (queue s1)) (s1, b1)) as [[s2 b2] o2].
    cbn [fst snd] in *.
    destruct b2; [|destruct (consume s1 e)]; cbn [outputs].
    + intros Hin. apply in_app_or in Hin as [Hin|Hin]; eauto.
    + unfold header_step.
      destruct (heap (on_object header_ref (fix_header blockquotify) s2) !! header_ref);
        cbn [outputs]; intros Hin;
        apply in_app_or in Hin as [Hin|Hin]; eauto;
        apply in_app_or in Hin as [Hin|Hin]; eauto.
      * by destruct Hin as [[=]|[]].
      * by destruct Hin.
    + intros Hin. apply in_app_or in Hin as [Hin|Hin]; eauto.
Qed.

End ThreadFacts.

(** ** The fields *)

Lemma append_cons (x : ascii) (a b : string) :
  String x a +:+ b = String x (a +:+ b).
Proof. reflexivity. Qed.

Lemma append_assoc (a b c : string) : (a +:+ b) +:+ c = a +:+ (b +:+ c).
Proof. induction a as [|x a IH]; [reflexivity|]. rewrite !append_cons. congruence. Qed.

Lemma append_empty_r (a : string) : a +:+ "" = a.
Proof. induction a as [|x a IH]; [reflexivity|]. rewrite append_cons. congruence. Qed.

(** A run of [+=] is the concatenation of the chunks. *)
Lemma plus_eq_chunks (chunks : list string) : forall t0 : string,
  fold_left plus_eq chunks (Some t0) = Some (t0 +:+ concat_chunks chunks).
Proof.
  induction chunks as [|c chunks IH]; intros t0.
  - simpl. by rewrite append_empty_r.
  - change (fold_left plus_eq (c :: chunks) (Some t0))
      with (fold_left plus_eq chunks (Some (t0 +:+ c))).
    rewrite IH. simpl. by rewrite append_assoc.
Qed.

Section FieldFacts.

Variable unescape : string -> string.

(** The fields built with [+=]: by induction on the chunks, each chunk
    being one more [+=] on the object under construction. *)
Ltac by_chunks handler ev setter getter :=
  let s := fresh "s" in let r := fresh "r" in let o := fresh "o" in
  let t0 := fresh "t0" in let chunks := fresh "chunks" in
  intros chunks s r o t0; rewrite <- plus_eq_chunks; revert s o t0;
  induction chunks as [|c chunks IH]; intros s o t0 Hf Hc Ho Ht;
  [ simpl; by rewrite Ho, <- Ht
  | cbn [map]; rewrite produce_cons;
    assert (Hs1 : produce1 handler (ev c) s =
                  set_heap (alter (fun x => setter (plus_eq (getter x) c) x)
                                  r (heap s)) s)
      by (unfold produce1; rewrite Hf; simpl; unfold on_current; by rewrite Hc);
    rewrite Hs1;
    apply (IH _ (setter (plus_eq (getter o) c) o) (t0 +:+ c)); simpl;
    [ done | done | by rewrite list_lookup_alter_eq, Ho | by rewrite Ht ] ].

(** The title of a listing is the concatenation of its chunks, however
    the text is split. *)
Lemma title_is_concatenation : forall (chunks : list string) s r o t0,
  failed s = false -> current s = Some r -> heap s !! r = Some o ->
  title o = Some t0 ->
  title <$> heap (produce (stories_handler unescape) (map titlelink_text chunks) s) !! r
  = Some (Some (t0 +:+ concat_chunks chunks)).
Proof. by_chunks (stories_handler unescape) titlelink_text set_title title. Qed.

(** The author of a listing, likewise. *)
Lemma author_is_concatenation : forall (chunks : list string) s r o t0,
  failed s = false -> current s = Some r -> heap s !! r = Some o ->
  by_ o = Some t0 ->
  by_ <$> heap (produce (stories_handler unescape) (map hnuser_text chunks) s) !! r
  = Some (Some (t0 +:+ concat_chunks chunks)).
Proof. by_chunks (stories_handler unescape) hnuser_text set_by by_. Qed.

(** The age label of a listing, likewise. *)
Lemma age_is_concatenation : forall (chunks : list string) s r o t0,
  failed s = false -> current s = Some r -> heap s !! r = Some o ->
  timeAgo o = Some t0 ->
  timeAgo <$> heap (produce (stories_handler unescape) (map age_text chunks) s) !! r
  = Some (Some (t0 +:+ concat_chunks chunks)).
Proof. by_chunks (stories_handler unescape) age_text set_timeAgo timeAgo. Qed.

(** The body of a comment is the concatenation of its text chunks. *)
Lemma body_is_concatenation : forall (chunks : list string) s r o t0,
  failed s = false -> current s = Some r -> heap s !! r = Some o ->
  text o = Some t0 ->
  text <$> heap (produce scrapeComments (map commtext_text chunks) s) !! r
  = Some (Some (t0 +:+ concat_chunks chunks)).
Proof. by_chunks scrapeComments commtext_text set_text text. Qed.

End FieldFacts.

(** C3: the score and the comment count are assigned from each chunk, not
    accumulated.  The text "123 points" gives the score 123 when it comes in
    one chunk and 3 when it comes as "12" and "3 points"; "45 comments" gives
    the count 45 in one chunk and 5 as "4" and "5 comments". *)
Theorem score_chunks_overwrite :
  score <$> heap (produce (stories_handler plain)
                    [athing (row "1"); score_text "123 points"] init) !! 0%nat
  = Some (Some (of_Z 123)) /\
  score <$> heap (produce (stories_handler plain)
                    [athing (row "1"); score_text "12"; score_text "3 points"] init) !! 0%nat
  = Some (Some (of_Z 3)) /\
  descendants <$> heap (produce (stories_handler plain)
                    [athing (row "1"); itemlink_text "45 comments"] init) !! 0%nat
  = Some (Some (of_Z 45)) /\
  descendants <$> heap (produce (stories_handler plain)
                    [athing (row "1"); itemlink_text "4"; itemlink_text "5 comments"] init)
                  !! 0%nat
  = Some (Some (of_Z 5)).
Proof. repeat split; reflexivity. Qed.

(** ** Numbers *)

Lemma Qred_inject_Z (n : Z) : Qred (inject_Z n) = inject_Z n.
Proof. apply Qcanon.Qred_identity. simpl. apply Z.gcd_1_r. Qed.

(** An integer up to [2^53] in magnitude is its own Number value. *)
Lemma to_double_safe (n : Z) :
  Z.abs n <= 2 ^ 53 -> to_double (inject_Z n) = of_Z n.
Proof.
  intros Hn. unfold to_double. rewrite Qred_inject_Z.
  unfold is_safe_integer. cbn [Qden Qnum inject_Z].
  apply Z.leb_le in Hn. by rewrite Hn.
Qed.

Lemma to_double_Qeq (q1 q2 : Q) : (q1 == q2)%Q -> to_double q1 = to_double q2.
Proof. intros H. unfold to_double. by rewrite (Qred_complete _ _ H). Qed.

Lemma pow2_pos (e : Z) : (0 < pow2 e)%Q.
Proof.
  unfold pow2. destruct (0 <=? e) eqn:He.
  - apply Z.leb_le in He. unfold Qlt. simpl.
    pose proof (Z.pow_pos_nonneg 2 e). lia.
  - apply Z.leb_gt in He. unfold Qdiv. rewrite Qmult_1_l.
    apply Qinv_lt_0_compat. unfold Qlt. simpl.
    pose proof (Z.pow_pos_nonneg 2 (- e)). lia.
Qed.

(** The Number value for a non-negative integer is a non-negative
    integer or the infinity: beyond [2^53] the doubles are multiples of a
    power of two. *)
Lemma round_pos_integer (n : Z) :
  2 ^ 53 < n -> is_count (round_pos (inject_Z n)).
Proof.
  intros Hn. unfold round_pos. cbn [Qnum Qden inject_Z].
  change (Z.log2 1) with 0. rewrite Z.sub_0_r.
  assert (Hlog : 53 <= Z.log2 n).
  { apply Z.log2_le_pow2; lia. }
  assert (Hpow : 2 ^ Z.log2 n <= n) by (apply Z.log2_spec; lia).
  assert (He : Qle_bool (pow2 (Z.log2 n)) (inject_Z n) = true).
  { apply Qle_bool_iff. unfold pow2.
    destruct (0 <=? Z.log2 n) eqn:H0; [|apply Z.leb_gt in H0; lia].
    unfold Qle. simpl. lia. }
  rewrite He. rewrite Z.max_l by lia.
  set (u := Z.log2 n - 52).
  assert (Hu : pow2 u = inject_Z (2 ^ u)).
  { unfold pow2. destruct (0 <=? u) eqn:H0; [done|]. apply Z.leb_gt in H0. lia. }
  rewrite Hu.
  set (m := (inject_Z n / inject_Z (2 ^ u))%Q).
  assert (Hm : (0 <= m)%Q).
  { unfold m, Qdiv. apply Qmult_le_0_compat; [unfold Qle; simpl; lia|].
    apply Qinv_le_0_compat. unfold Qle. simpl.
    pose proof (Z.pow_pos_nonneg 2 u). lia. }
  assert (Hfl : 0 <= Qfloor m) by (change 0 with (Qfloor 0); by apply Qfloor_resp_le).
  set (n' := match (m - inject_Z (Qfloor m) ?= 1 # 2)%Q with
             | Eq => _ | Lt => _ | Gt => _ end).
  assert (Hn' : 0 <= n').
  { unfold n'. destruct (_ ?= _)%Q; [destruct (Z.even _)| |]; lia. }
  destruct (Qle_bool (pow2 1024) _); [by left|]. right.
  exists (n' * 2 ^ u). split.
  - pose proof (Z.pow_pos_nonneg 2 u). nia.
  - unfold of_Z. f_equal.
    rewrite (Qred_complete _ (inject_Z (n' * 2 ^ u))); [apply Qred_inject_Z|].
    by rewrite inject_Z_mult.
Qed.

Lemma to_double_integer (n : Z) : 0 <= n -> is_count (to_double (inject_Z n)).
Proof.
  intros Hn. destruct (Z.le_gt_cases n (2 ^ 53)) as [Hle|Hgt].
  - rewrite to_double_safe by lia. right. by exists n.
  - unfold to_double. rewrite Qred_inject_Z. unfold is_safe_integer.
    cbn [Qnum Qden inject_Z].
    assert (Hf : (Z.abs n <=? 2 ^ 53) = false) by (apply Z.leb_gt; lia).
    rewrite Hf. cbn [andb Pos.eqb].
    destruct n as [|p|p]; [lia| |lia].
    by apply round_pos_integer.
Qed.

Lemma digit_is_no_sign c s :
  is_digit c = true -> split_sign (String c s) = (1, String c s).
Proof.
  destruct c as [[] [] [] [] [] [] [] []]; intros H; try discriminate H; reflexivity.
Qed.

Lemma digit_is_no_space c : is_digit c = true -> is_ws c = false.
Proof.
  destruct c as [[] [] [] [] [] [] [] []]; intros H; try discriminate H; reflexivity.
Qed.

Lemma digit_val_nonneg c : is_digit c = true -> 0 <= digit_val c.
Proof.
  destruct c as [[] [] [] [] [] [] [] []]; intros H; try discriminate H;
    vm_compute; discriminate.
Qed.

Lemma span_digits_all_digits s : all_digits (fst (span_digits s)) = true.
Proof.
  induction s as [|c s IH]; [done|]. simpl.
  destruct (is_digit c) eqn:Hc; [|done].
  destruct (span_digits s) as [d r]. simpl in *. by rewrite Hc, IH.
Qed.

Lemma span_digits_app ds rest :
  all_digits ds = true -> no_leading_digit rest = true ->
  span_digits (ds +:+ rest) = (ds, rest).
Proof.
  intros Hds Hrest. induction ds as [|c ds IH].
  - destruct rest as [|c r]; [done|]. simpl in *.
    by destruct (is_digit c).
  - simpl in Hds. apply andb_true_iff in Hds as [Hc Hds].
    rewrite append_cons. simpl. by rewrite Hc, IH.
Qed.

Lemma digits_value_nonneg ds : forall acc,
  all_digits ds = true -> 0 <= acc -> 0 <= digits_value acc ds.
Proof.
  induction ds as [|c ds IH]; intros acc Hds Hacc; [done|].
  simpl in *. apply andb_true_iff in Hds as [Hc Hds].
  apply IH; [done|]. pose proof (digit_val_nonneg c Hc). lia.
Qed.

Lemma trimStart_digits ds : all_digits ds = true -> trimStart ds = ds.
Proof.
  destruct ds as [|c ds]; [done|]. simpl. intros H.
  apply andb_true_iff in H as [Hc _]. by rewrite (digit_is_no_space c Hc).
Qed.

Lemma trimEnd_digits ds : all_digits ds = true -> trimEnd ds = ds.
Proof.
  induction ds as [|c ds IH]; [done|]. simpl. intros H.
  apply andb_true_iff in H as [Hc Hds]. rewrite (IH Hds).
  destruct ds; [by rewrite (digit_is_no_space c Hc)|done].
Qed.

(** [parseInt] of a chunk that starts with a digit, after white space, is
    the Number value for the digits read. *)
Lemma parseInt_digit_led_value (chunk : string) :
  starts_with_digit chunk = true ->
  exists ds, ds <> "" /\ all_digits ds = true /\
    fst (span_digits (trimStart chunk)) = ds /\
    parseInt chunk = to_double (inject_Z (digits_value 0 ds)).
Proof.
  unfold starts_with_digit, parseInt.
  destruct (trimStart chunk) as [|c s]; [done|]. intros Hc.
  rewrite (digit_is_no_sign c s Hc).
  pose proof (span_digits_all_digits (String c s)) as Hall.
  cbn [span_digits] in *. rewrite Hc in *.
  destruct (span_digits s) as [d r]. cbn [fst] in *.
  exists (String c d). split; [done|]. split; [done|]. split; [done|].
  by rewrite Z.mul_1_l.
Qed.

(** A chunk that starts with a digit, after white space, parses to a
    non-negative integer, or to the infinity. *)
Lemma parseInt_digit_led (chunk : string) :
  starts_with_digit chunk = true -> is_count (parseInt chunk).
Proof.
  intros (ds & _ & Hds & _ & ->)%parseInt_digit_led_value.
  apply to_double_integer. by apply digits_value_nonneg.
Qed.

Lemma non_decimal_digits (ds : string) : all_digits ds = true -> non_decimal ds = None.
Proof.
  destruct ds as [|c [|c' ds]]; [done| |].
  - intros _. by destruct c as [[] [] [] [] [] [] [] []].
  - simpl. intros (_ & (Hc' & _)%andb_true_iff)%andb_true_iff.
    destruct c' as [[] [] [] [] [] [] [] []]; try discriminate Hc';
      by destruct c as [[] [] [] [] [] [] [] []].
Qed.

(** [Number] on a string of digits is the Number value for the integer
    they write. *)
Lemma Number_digits (ds : string) :
  ds <> "" -> all_digits ds = true ->
  Number ds = to_double (inject_Z (digits_value 0 ds)).
Proof.
  intros Hne Hds. unfold Number, trim.
  rewrite (trimEnd_digits ds Hds), (trimStart_digits ds Hds).
  destruct ds as [|c ds]; [done|].
  rewrite (non_decimal_digits _ Hds).
  pose proof Hds as Hall.
  simpl in Hds. apply andb_true_iff in Hds as [Hc Hds].
  rewrite (digit_is_no_sign c ds Hc). cbn [Z.eqb Pos.eqb].
  unfold unsigned_decimal.
  assert (Hinf : String.eqb (String c ds) "Infinity" = false).
  { simpl. by destruct c as [[] [] [] [] [] [] [] []]. }
  rewrite Hinf.
  pose proof (span_digits_app (String c ds) "" Hall eq_refl) as Hsp.
  rewrite append_empty_r in Hsp. rewrite Hsp, append_empty_r.
  cbn [exponent_part String.length]. apply to_double_Qeq.
  unfold pow10. simpl. unfold Qeq. simpl. lia.
Qed.

(** ** Depth *)


(** ** Repair at emission *)

Lemma run_emitted {E} (handler : E -> state -> option state) emit t : forall s r v,
  In (ORecord r v) (snd (run handler emit t s)) -> exists h c, v = emit h c.
Proof.
  induction t as [|a t IH]; intros s r v; simpl; [done|].
  destruct a as [e|]; simpl.
  - destruct (run handler emit t (produce1 handler e s)) as [s2 o2] eqn:Hr.
    simpl. intros Hin. apply (IH (produce1 handler e s) r v). by rewrite Hr.
  - destruct (pull emit s) as [s1 o1] eqn:Hp.
    destruct (run handler emit t s1) as [s2 o2] eqn:Hr. simpl.
    intros Hin. apply in_app_or in Hin as [Hin|Hin].
    + unfold pull in Hp. destruct (queue s) as [|r' q]; [by injection Hp as <- <-|].
      injection Hp as <- <-. rewrite list_lookup_alter_eq in Hin.
      destruct (heap s !! r') as [c|]; simpl in Hin; [|done].
      destruct Hin as [[= <- <-]|[]]. by eexists _, _.
    + apply (IH s1 r v). by rewrite Hr.
Qed.

Lemma pulls_emitted emit n : forall s r v,
  In (ORecord r v) (snd (pulls emit n s)) -> exists h c, v = emit h c.
Proof.
  induction n as [|n IH]; intros s r v; simpl; [done|].
  destruct (pull emit s) as [s1 o1] eqn:Hp.
  destruct (pulls emit n s1) as [s2 o2] eqn:Hr. simpl.
  intros Hin. apply in_app_or in Hin as [Hin|Hin].
  - unfold pull in Hp. destruct (queue s) as [|r' q]; [by injection Hp as <- <-|].
    injection Hp as <- <-. rewrite list_lookup_alter_eq in Hin.
    destruct (heap s !! r') as [c|]; simpl in Hin; [|done].
    destruct Hin as [[= <- <-]|[]]. by eexists _, _.
  - apply (IH s1 r v). by rewrite Hr.
Qed.

Lemma generator_emitted {E} (handler : E -> state -> option state) emit t e s0 r v :
  In (ORecord r v) (fst (generator handler emit t e s0)) -> exists h c, v = emit h c.
Proof.
  unfold generator.
  destruct (run handler emit t s0) as [s1 o1] eqn:Hr.
  destruct (drain emit s1) as [s2 o2] eqn:Hd.
  assert (H : In (ORecord r v) (o1 ++ o2) -> exists h c, v = emit h c).
  { intros Hin. apply in_app_or in Hin as [Hin|Hin].
    - apply (run_emitted handler emit t s0 r v). by rewrite Hr.
    - apply (pulls_emitted emit (length (queue s1)) s1 r v). unfold drain in Hd.
      by rewrite Hd. }
  destruct (consume s1 e); simpl; [|done].
  intros Hin. rewrite app_assoc in Hin. apply in_app_or in Hin as [Hin|Hin]; [auto|].
  by destruct Hin as [[=]|[]].
Qed.

(** *** What the store holds when an object is taken *)

Lemma last_record_app r (o1 o2 : list output) :
  last_record r (o1 ++ o2) =
    match last_record r o2 with Some v => Some v | None => last_record r o1 end.
Proof.
  induction o1 as [|o o1 IH]; simpl.
  - by destruct (last_record r o2).
  - rewrite IH. by destruct (last_record r o2).
Qed.

Lemma app_cons_eq_snoc {A} (l1 l2 l3 : list A) (a b : A) :
  l1 ++ a :: l2 = l3 ++ [b] -> a <> b ->
  exists l2', l2 = l2' ++ [b] /\ l3 = l1 ++ a :: l2'.
Proof.
  intros Heq Hne. destruct l2 as [|x l2] using rev_ind.
  - apply app_inj_tail in Heq as [_ ?]. done.
  - clear IHl2. change (l1 ++ a :: l2 ++ [x]) with (l1 ++ (a :: l2) ++ [x]) in Heq.
    rewrite app_assoc in Heq. apply app_inj_tail in Heq as [<- <-]. by exists l2.
Qed.

Lemma step_respects_refl R s s' : heap s' = heap s -> step_respects R s s'.
Proof.
  intros Hh. unfold step_respects. rewrite Hh. split; [done|].
  intros r c' ->. done.
Qed.

Lemma step_respects_alter R f r0 s s' :
  (forall ov c, R ov c -> R ov (f c)) ->
  heap s' = alter f r0 (heap s) -> step_respects R s s'.
Proof.
  intros Hf Hh. unfold step_respects. rewrite Hh, length_alter. split; [done|].
  intros r c' Hc'. destruct (decide (r0 = r)) as [->|Hne].
  - rewrite list_lookup_alter_eq in Hc'.
    destruct (heap s !! r) as [c|]; [|done]. injection Hc' as <-. intros ov. apply Hf.
  - rewrite list_lookup_alter_ne in Hc' by done. by rewrite Hc'.
Qed.

Lemma step_respects_on_current R f s s' :
  (forall ov c, R ov c -> R ov (f c)) ->
  on_current f s = Some s' -> step_respects R s s'.
Proof.
  intros Hf. unfold on_current. destruct (current s) as [r0|]; [|done].
  intros [= <-]. by apply (step_respects_alter R f r0).
Qed.

Lemma step_respects_onEndTag R el f s s' :
  (forall ov c, R ov c -> R ov (f c)) ->
  onEndTag el <$> on_current f s = Some s' -> step_respects R s s'.
Proof.
  intros Hf (s0 & H0 & ->)%fmap_onEndTag_Some.
  unfold on_current in H0. destruct (current s) as [r0|]; [|done].
  injection H0 as <-. apply (step_respects_alter R f r0); [done|].
  by rewrite heap_onEndTag.
Qed.

Lemma step_respects_new R o s s' :
  R None o -> heap s' = heap s ++ [o] -> step_respects R s s'.
Proof.
  intros Ho Hh. unfold step_respects. rewrite Hh, length_app. split; [lia|].
  intros r c' Hc'. apply lookup_app_Some in Hc' as [Hc'|[Hlen Hc']].
  - by rewrite Hc'.
  - rewrite (proj2 (lookup_ge_None (heap s) r)) by lia.
    destruct (r - length (heap s))%nat; [|done]. by injection Hc' as <-.
Qed.

Lemma heap_dispatch_if_defined s : heap (dispatch_if_defined s) = heap s.
Proof. unfold dispatch_if_defined. by destruct (current s). Qed.

Lemma heap_resolve v s : heap (resolve v s) = heap s.
Proof. unfold resolve. by destruct (moreLink s). Qed.

Section EmissionFacts.

Context {E : Type}.
Variable handler : E -> state -> option state.
Variable emit : list item -> item -> item.
Variable R : option item -> item -> Prop.
Variable base : nat.

Hypothesis handler_R : respects R handler.
Hypothesis emit_R : forall h c, R (Some (emit h c)) (emit h c).

Lemma produce1_inv e s out :
  emission_inv R base s out -> emission_inv R base (produce1 handler e s) out.
Proof.
  intros [H1 H2]. unfold produce1. destruct (failed s); [done|].
  destruct (handler e s) as [s'|] eqn:He; [|done].
  destruct (handler_R e s s' He) as [Hlen Hobj]. split.
  - intros r c' Hb Hc'. specialize (Hobj r c' Hc').
    destruct (heap s !! r) as [c|] eqn:Hc.
    + by apply Hobj, H1.
    + by rewrite (H2 r Hc).
  - intros r Hr. apply H2. apply lookup_ge_None. apply lookup_ge_None in Hr. lia.
Qed.

Lemma pull_inv s out :
  emission_inv R base s out ->
  emission_inv R base (fst (pull emit s)) (out ++ snd (pull emit s)).
Proof.
  intros [H1 H2]. unfold pull. destruct (queue s) as [|r0 q]; cbn [fst snd].
  { by rewrite app_nil_r. }
  rewrite list_lookup_alter_eq. unfold emission_inv. cbn [heap set_heap set_queue].
  destruct (heap s !! r0) as [c0|] eqn:Hc0; simpl.
  - split.
    + intros r c Hb Hc. rewrite last_record_app. simpl.
      destruct (decide (r0 = r)) as [->|Hne].
      * rewrite list_lookup_alter_eq, Hc0 in Hc. injection Hc as <-. apply emit_R.
      * rewrite list_lookup_alter_ne in Hc by done. by apply H1.
    + intros r Hr. rewrite last_record_app. simpl.
      destruct (decide (r0 = r)) as [->|Hne].
      * by rewrite list_lookup_alter_eq, Hc0 in Hr.
      * rewrite list_lookup_alter_ne in Hr by done. by apply H2.
  - rewrite app_nil_r. split.
    + intros r c Hb Hc. destruct (decide (r0 = r)) as [->|Hne].
      * by rewrite list_lookup_alter_eq, Hc0 in Hc.
      * rewrite list_lookup_alter_ne in Hc by done. by apply H1.
    + intros r Hr. apply H2. apply lookup_ge_None. apply lookup_ge_None in Hr.
      by rewrite length_alter in Hr.
Qed.

Lemma run_inv t : forall s out,
  emission_inv R base s out ->
  emission_inv R base (fst (run handler emit t s)) (out ++ snd (run handler emit t s)).
Proof.
  induction t as [|a t IH]; intros s out Hinv.
  - simpl. by rewrite app_nil_r.
  - cbn [run]. destruct a as [e|]; cbn [step].
    + specialize (IH _ out (produce1_inv e s out Hinv)).
      destruct (run handler emit t (produce1 handler e s)) as [s2 o2]. exact IH.
    + pose proof (pull_inv s out Hinv) as Hp.
      destruct (pull emit s) as [s1 o1]. cbn [fst snd] in Hp.
      specialize (IH s1 _ Hp).
      destruct (run handler emit t s1) as [s2 o2]. cbn [fst snd] in *.
      by rewrite app_assoc.
Qed.

(** A record of a run is the stored object at the pull of the run that
    takes it, after the loop body. *)
Lemma run_split t : forall s pre r v post,
  snd (run handler emit t s) = pre ++ ORecord r v :: post ->
  exists t1 t2 c,
    t = t1 ++ Pull :: t2 /\
    snd (run handler emit t1 s) = pre /\
    head (queue (fst (run handler emit t1 s))) = Some r /\
    heap (fst (run handler emit t1 s)) !! r = Some c /\
    v = emit (heap (fst (run handler emit t1 s))) c.
Proof.
  induction t as [|a t IH]; intros s pre r v post Hout.
  - by destruct pre.
  - cbn [run] in Hout. destruct a as [e|]; cbn [step] in Hout.
    + destruct (run handler emit t (produce1 handler e s)) as [s2 o2] eqn:Hr.
      cbn [snd app] in Hout.
      destruct (IH (produce1 handler e s) pre r v post)
        as (t1 & t2 & c & -> & H1 & H2 & H3 & H4); [by rewrite Hr|].
      exists (Ev e :: t1), t2, c. cbn [run step app].
      destruct (run handler emit t1 (produce1 handler e s)) as [s3 o3].
      by cbn [fst snd app] in *.
    + destruct (queue s) as [|r0 q] eqn:Hq.
      * rewrite (pull_nil _ s Hq) in Hout.
        destruct (run handler emit t s) as [s2 o2] eqn:Hr. cbn [snd app] in Hout.
        destruct (IH s pre r v post) as (t1 & t2 & c & -> & H1 & H2 & H3 & H4);
          [by rewrite Hr|].
        exists (Pull :: t1), t2, c. cbn [run step app]. rewrite (pull_nil _ s Hq).
        destruct (run handler emit t1 s) as [s3 o3].
        by cbn [fst snd app] in *.
      * unfold pull in Hout. rewrite Hq in Hout.
        rewrite list_lookup_alter_eq in Hout.
        set (s1 := set_queue q _) in Hout.
        destruct (heap s !! r0) as [c0|] eqn:Hc0; cbn [fmap option_fmap option_map] in Hout.
        -- destruct (run handler emit t s1) as [s2 o2] eqn:Hr. cbn [snd app] in Hout.
           destruct pre as [|x pre].
           ++ injection Hout as -> <- ->. exists [], t, c0. cbn [run fst snd app].
              by rewrite Hq.
           ++ injection Hout as <- Hout.
              destruct (IH s1 pre r v post)
                as (t1 & t2 & c & -> & H1 & H2 & H3 & H4); [by rewrite Hr|].
              exists (Pull :: t1), t2, c. cbn [run step app].
              unfold pull. rewrite Hq, list_lookup_alter_eq, Hc0.
              cbn [fmap option_fmap option_map]. fold s1.
              destruct (run handler emit t1 s1) as [s3 o3].
              cbn [fst snd app] in *. by rewrite H1.
        -- destruct (run handler emit t s1) as [s2 o2] eqn:Hr. cbn [snd app] in Hout.
           destruct (IH s1 pre r v post)
             as (t1 & t2 & c & -> & H1 & H2 & H3 & H4); [by rewrite Hr|].
           exists (Pull :: t1), t2, c. cbn [run step app].
           unfold pull. rewrite Hq, list_lookup_alter_eq, Hc0.
           cbn [fmap option_fmap option_map]. fold s1.
           destruct (run handler emit t1 s1) as [s3 o3].
           by cbn [fst snd app] in *.
Qed.

(** The records of a generator are those of the interleaving followed by
    the pulls that drain the bridge. *)
Lemma generator_records_split t e s0 pre r v post :
  fst (generator handler emit t e s0) = pre ++ ORecord r v :: post ->
  exists n post',
    snd (run handler emit (t ++ replicate n Pull) s0) = pre ++ ORecord r v :: post'.
Proof.
  unfold generator.
  destruct (run handler emit t s0) as [s1 o1] eqn:Hr.
  destruct (drain emit s1) as [s2 o2] eqn:Hd.
  intros Hout. exists (length (queue s1)).
  rewrite (run_app handler), Hr. cbn [fst snd]. rewrite <- (pulls_as_run handler).
  unfold drain in Hd. rewrite Hd. cbn [snd].
  destruct (consume s1 e); cbn [fst] in Hout; [|by exists post].
  rewrite app_assoc in Hout. symmetry in Hout.
  apply app_cons_eq_snoc in Hout as (post' & _ & ->); [|done]. by exists post'.
Qed.

(** A record of a generator is the stored object at the moment it is
    taken, after the loop body, and the object is in [R] with the value it
    was handed out with before. *)
Lemma generator_taken t e s0 pre r v post :
  emission_inv R base s0 [] ->
  fst (generator handler emit t e s0) = pre ++ ORecord r v :: post ->
  exists c h,
    taken_as handler emit t s0 pre r c /\ v = emit h c /\
    ((base <= r)%nat -> R (last_record r pre) c).
Proof.
  intros Hinv (n & post' & Hout)%generator_records_split.
  apply run_split in Hout as (t1 & t2 & c & Ht & Hpre & Hhd & Hc & Hv).
  exists c, (heap (fst (run handler emit t1 s0))). split; [|split; [done|]].
  - by exists n, t1, t2.
  - intros Hb. destruct (run_inv t1 s0 [] Hinv) as [H1 _].
    rewrite app_nil_l, Hpre in H1. by apply H1.
Qed.

End EmissionFacts.

Lemma emission_inv_init R : emission_inv R 0 init [].
Proof. split; [by intros r c _ Hc|done]. Qed.

Section RepairFacts.

Variable unescape : string -> string.
Variable blockquotify : string -> string.

(** The handlers of [scrapeComments] never write [deleted] and leave every
    comment with a body. *)
Lemma scrapeComments_respects : respects repair_state scrapeComments.
Proof.
  assert (Hrefl : forall (f : item -> item),
             (forall c, deleted (f c) = deleted c) ->
             (forall c body, text c = Some body -> exists body', text (f c) = Some body') ->
             forall ov c, repair_state ov c -> repair_state ov (f c)).
  { intros f Hd Ht [v|] c; simpl.
    - by rewrite Hd.
    - intros (Hdel & body & Hb). rewrite Hd. split; [done|]. by eapply Ht. }
  intros e s s'. destruct e; cbn [scrapeComments];
    first [ apply step_respects_on_current, Hrefl; [done | simpl; eauto]
          | apply step_respects_onEndTag, Hrefl; [done | simpl; eauto]
          | intros [= <-] ].
  - eapply step_respects_new; last first.
    { cbn [assign_new heap]. by rewrite heap_dispatch_if_defined. }
    simpl. eauto.
  - by apply step_respects_refl.
  - apply step_respects_refl. by rewrite heap_dispatch_if_defined.
Qed.

Lemma threads_handler_respects : respects repair_state (threads_handler unescape).
Proof.
  intros e s s'. destruct e as [a|e]; cbn [threads_handler].
  - intros [= <-]. apply step_respects_refl. apply heap_resolve.
  - apply scrapeComments_respects.
Qed.

(** The handlers of the header write the header only, and never
    [deleted]. *)
Lemma thread_handler_respects : respects repair_state (thread_handler unescape).
Proof.
  assert (Hrefl : forall (f : item -> item),
             (forall c, deleted (f c) = deleted c) ->
             (forall c body, text c = Some body -> exists body', text (f c) = Some body') ->
             forall ov c, repair_state ov c -> repair_state ov (f c)).
  { intros f Hd Ht [v|] c; simpl.
    - by rewrite Hd.
    - intros (Hdel & body & Hb). rewrite Hd. split; [done|]. by eapply Ht. }
  intros e s s'. destruct e; cbn [thread_handler]; unfold set_if_number, on_post;
    try destruct (starts_with_digit chunk);
    first [ apply scrapeComments_respects
          | intros [= <-]; unfold on_object, resolve_href;
            first [ by apply step_respects_refl
                  | apply step_respects_refl; apply heap_resolve
                  | eapply step_respects_alter; last first;
                    [ rewrite ?heap_onEndTag; reflexivity
                    | apply Hrefl; [done | simpl; eauto] ] ] ].
Qed.

(** The handlers of [storiesGenerator] never write [type]. *)
Lemma stories_handler_respects : respects kind_state (stories_handler unescape).
Proof.
  assert (Hrefl : forall (f : item -> item),
             (forall c, type_ (f c) = type_ c) ->
             forall ov c, kind_state ov c -> kind_state ov (f c)).
  { intros f Hf [v|] c; simpl; by rewrite Hf. }
  intros e s s'. destruct e; cbn [stories_handler]; unfold set_if_number;
    try destruct (starts_with_digit chunk);
    first [ by apply step_respects_on_current, Hrefl
          | intros [= <-] ].
  - eapply step_respects_new; last first.
    { cbn [assign_new heap]. by rewrite heap_dispatch_if_defined. }
    done.
  - by apply step_respects_refl.
  - by apply step_respects_refl.
  - apply step_respects_refl. apply heap_resolve.
  - apply step_respects_refl. by rewrite heap_dispatch_if_defined.
Qed.

Lemma fixComment_spec (c : item) (body : string) :
  text c = Some body -> deleted c = None ->
  (deleted (fixComment blockquotify c) = Some true <-> trim body = "") /\
  (trim body = "" -> text (fixComment blockquotify c) = Some " [flagged] ") /\
  (trim body <> "" ->
     text (fixComment blockquotify c) = Some (blockquotify ("<p>" +:+ body)) /\
     deleted (fixComment blockquotify c) = None).
Proof.
  intros Ht Hd. unfold fixComment. rewrite Ht.
  destruct (trim body) as [|a t'] eqn:Htrim; simpl.
  - split; [done|]. split; [done|]. by intros [].
  - rewrite Hd. split; [split; done|]. split; [done|]. done.
Qed.

Lemma deleted_fixComment (c : item) :
  deleted c = Some true -> deleted (fixComment blockquotify c) = Some true.
Proof.
  intros Hd. unfold fixComment.
  destruct (text c) as [t|]; [destruct (truthy (trim t))|]; done.
Qed.

(** *** The values of [post.kids] *)

Lemma thread_pull_inv s b out :
  emission_inv repair_state 1 s out ->
  emission_inv repair_state 1 (fst (fst (thread_pull blockquotify (s, b))))
               (out ++ snd (thread_pull blockquotify (s, b))).
Proof.
  intros Hinv. unfold thread_pull. destruct b.
  - unfold aMap_next.
    pose proof (pull_inv (emit_kid blockquotify) repair_state 1%nat
                  (fun _ _ => eq_refl) s out Hinv) as Hp.
    by destruct (pull (emit_kid blockquotify) s) as [s1 o1].
  - destruct (queue s) as [|r0 q]; [by rewrite app_nil_r|].
    unfold header_step, on_object. cbn [heap set_heap set_queue].
    destruct Hinv as [H1 H2].
    assert (Hout : forall r,
               last_record r
                 (out ++ match alter (fix_header blockquotify) header_ref (heap s)
                               !! header_ref with
                         | Some v => [OHeader v]
                         | None => []
                         end) = last_record r out).
    { intros r. rewrite last_record_app. by destruct (_ !! header_ref). }
    cbn [fst snd]. split.
    + intros r c Hb Hc. rewrite Hout. cbn [heap set_heap] in Hc.
      rewrite list_lookup_alter_ne in Hc by (unfold header_ref; lia). by apply H1.
    + intros r Hr. rewrite Hout. apply H2. cbn [heap set_heap] in Hr.
      apply lookup_ge_None. apply lookup_ge_None in Hr.
      by rewrite length_alter in Hr.
Qed.

Lemma thread_run_inv t : forall s b out,
  emission_inv repair_state 1 s out ->
  emission_inv repair_state 1
    (fst (fst (thread_run unescape blockquotify t (s, b))))
    (out ++ snd (thread_run unescape blockquotify t (s, b))).
Proof.
  induction t as [|a t IH]; intros s b out Hinv.
  - simpl. by rewrite app_nil_r.
  - cbn [thread_run]. destruct a as [e|]; cbn [thread_step fst snd].
    + specialize (IH _ b out
                    (produce1_inv _ repair_state 1%nat thread_handler_respects e s out Hinv)).
      destruct (thread_run unescape blockquotify t _) as [[s2 b2] o2]. exact IH.
    + pose proof (thread_pull_inv s b out Hinv) as Hp.
      destruct (thread_pull blockquotify (s, b)) as [[s1 b1] o1]. cbn [fst snd] in Hp.
      specialize (IH s1 b1 _ Hp).
      destruct (thread_run unescape blockquotify t (s1, b1)) as [[s2 b2] o2].
      cbn [fst snd] in *. by rewrite app_assoc.
Qed.

Lemma thread_run_split t : forall s b pre r v post,
  snd (thread_run unescape blockquotify t (s, b)) = pre ++ ORecord r v :: post ->
  exists t1 t2 c,
    t = t1 ++ Pull :: t2 /\
    snd (thread_run unescape blockquotify t1 (s, b)) = pre /\
    snd (fst (thread_run unescape blockquotify t1 (s, b))) = true /\
    head (queue (fst (fst (thread_run unescape blockquotify t1 (s, b))))) = Some r /\
    heap (fst (fst (thread_run unescape blockquotify t1 (s, b)))) !! r = Some c /\
    v = emit_kid blockquotify
          (heap (fst (fst (thread_run unescape blockquotify t1 (s, b))))) c.
Proof.
  induction t as [|a t IH]; intros s b pre r v post Hout.
  - by destruct pre.
  - cbn [thread_run] in Hout. destruct a as [e|]; cbn [thread_step fst snd] in Hout.
    + destruct (thread_run unescape blockquotify t (produce1 _ e s, b))
        as [[s2 b2] o2] eqn:Hr. cbn [snd app] in Hout.
      destruct (IH (produce1 (thread_handler unescape) e s) b pre r v post)
        as (t1 & t2 & c & -> & H1 & H2 & H3 & H4 & H5); [by rewrite Hr|].
      exists (Ev e :: t1), t2, c. cbn [thread_run thread_step app fst snd].
      destruct (thread_run unescape blockquotify t1 _) as [[s3 b3] o3].
      by cbn [fst snd app] in *.
    + destruct (thread_pull blockquotify (s, b)) as [[s1 b1] o1] eqn:Hp.
      destruct (thread_run unescape blockquotify t (s1, b1)) as [[s2 b2] o2] eqn:Hr.
      cbn [snd] in Hout.
      assert (Hcase : o1 = [] \/ (exists v0, o1 = [OHeader v0]) \/
                (exists r0 c0, o1 = [ORecord r0 (emit_kid blockquotify (heap s) c0)] /\
                               b = true /\ head (queue s) = Some r0 /\
                               heap s !! r0 = Some c0)).
      { unfold thread_pull in Hp. destruct b.
        - unfold aMap_next, pull in Hp. destruct (queue s) as [|r0 q].
          + injection Hp as <- <- <-. by left.
          + rewrite list_lookup_alter_eq in Hp.
            destruct (heap s !! r0) as [c0|] eqn:Hc0; injection Hp as <- <- <-.
            * right. right. by exists r0, c0.
            * by left.
        - destruct (queue s) as [|r0 q].
          + injection Hp as <- <- <-. by left.
          + unfold header_step in Hp.
            destruct (heap _ !! header_ref) as [v0|]; injection Hp as <- <- <-.
            * right. left. by exists v0.
            * by left. }
      assert (Hrec : forall t1 t2 c,
                 t = t1 ++ Pull :: t2 ->
                 snd (thread_run unescape blockquotify t1 (s1, b1)) = drop (length o1) pre ->
                 (length o1 <= length pre)%nat -> take (length o1) pre = o1 ->
                 snd (fst (thread_run unescape blockquotify t1 (s1, b1))) = true ->
                 head (queue (fst (fst (thread_run unescape blockquotify t1 (s1, b1)))))
                   = Some r ->
                 heap (fst (fst (thread_run unescape blockquotify t1 (s1, b1)))) !! r
                   = Some c ->
                 v = emit_kid blockquotify
                       (heap (fst (fst (thread_run unescape blockquotify t1 (s1, b1))))) c ->
                 exists t1' t2' c',
                   Pull :: t = t1' ++ Pull :: t2' /\
                   snd (thread_run unescape blockquotify t1' (s, b)) = pre /\
                   snd (fst (thread_run unescape blockquotify t1' (s, b))) = true /\
                   head (queue (fst (fst (thread_run unescape blockquotify t1' (s, b)))))
                     = Some r /\
                   heap (fst (fst (thread_run unescape blockquotify t1' (s, b)))) !! r
                     = Some c' /\
                   v = emit_kid blockquotify
                         (heap (fst (fst (thread_run unescape blockquotify t1' (s, b))))) c').
      { intros t1 t2 c -> H1 Hlen Htake Hb Hhd H2 H3.
        exists (Pull :: t1), t2, c. cbn [thread_run thread_step app]. rewrite Hp.
        destruct (thread_run unescape blockquotify t1 (s1, b1)) as [[s3 b3] o3].
        cbn [fst snd] in *. rewrite H1, <- Htake at 1. by rewrite take_drop. }
      destruct Hcase as [->|[[v0 ->]|(r0 & c0 & -> & Hb0 & Hhd0 & Hc0)]].
      * cbn [app] in Hout.
        destruct (IH s1 b1 pre r v post) as (t1 & t2 & c & Ht & H1 & H2 & H3 & H4 & H5);
          [by rewrite Hr|].
        apply (Hrec t1 t2 c); simpl; first [done | lia].
      * destruct pre as [|x pre]; [done|]. injection Hout as <- Hout.
        destruct (IH s1 b1 pre r v post) as (t1 & t2 & c & Ht & H1 & H2 & H3 & H4 & H5);
          [by rewrite Hr|].
        apply (Hrec t1 t2 c); simpl; first [done | lia].
      * destruct pre as [|x pre].
        -- injection Hout as <- <- <-. exists [], t, c0.
           by cbn [thread_run fst snd app].
        -- injection Hout as <- Hout.
           destruct (IH s1 b1 pre r v post)
             as (t1 & t2 & c & Ht & H1 & H2 & H3 & H4 & H5); [by rewrite Hr|].
           apply (Hrec t1 t2 c); simpl; first [done | lia].
Qed.

Lemma commentsGenerator_outputs t e pre r v post :
  outputs (commentsGenerator unescape blockquotify t e) = pre ++ ORecord r v :: post ->
  exists n post',
    snd (thread_run unescape blockquotify (t ++ replicate n Pull) (thread_init, false))
      = pre ++ ORecord r v :: post'.
Proof.
  unfold commentsGenerator.
  destruct (thread_run unescape blockquotify t (thread_init, false))
    as [[s1 r1] o1] eqn:Hr.
  destruct (thread_pulls blockquotify (length (queue s1)) (s1, r1))
    as [[s2 r2] o2] eqn:Hd.
  intros Hout. exists (length (queue s1)).
  rewrite thread_run_app, Hr. cbn [fst snd]. rewrite <- thread_pulls_as_run, Hd.
  cbn [snd].
  destruct r2; [by exists post|].
  destruct (consume s1 e); [|by exists post].
  unfold header_step in Hout.
  destruct (heap _ !! header_ref) as [v0|]; cbn [outputs] in Hout.
  - rewrite app_assoc in Hout. symmetry in Hout.
    apply app_cons_eq_snoc in Hout as (post' & _ & ->); [|done]. by exists post'.
  - rewrite app_nil_r in Hout. by exists post.
Qed.

Lemma emission_inv_thread_init : emission_inv repair_state 1 thread_init [].
Proof.
  split.
  - intros [|r] c Hb Hc; [lia|done].
  - done.
Qed.

(** C7, as the code has it: a comment that is handed out for the first
    time, by [threadsGenerator] or in [post.kids], is the stored object as
    [scrapeComments] has built it when the consumer takes it, repaired by
    [fixComment]: it has [deleted = true] exactly when its body is empty or
    white space, its body is then the placeholder, and otherwise the
    normalized body.  A comment that has been dispatched again is repaired
    again when it is handed out again: once [deleted], it stays so,
    whatever its body has become. *)
Theorem deleted_iff_blank_body :
  (forall (c : item) (body : string),
      text c = Some body -> deleted c = None ->
      (deleted (fixComment blockquotify c) = Some true <-> trim body = "") /\
      (trim body = "" -> text (fixComment blockquotify c) = Some " [flagged] ") /\
      (trim body <> "" ->
         text (fixComment blockquotify c) = Some (blockquotify ("<p>" +:+ body)) /\
         deleted (fixComment blockquotify c) = None)) /\
  (forall (t : list (action threads_event)) (e : ending)
          (pre post : list output) (r : nat) (v : item),
      fst (threadsGenerator unescape blockquotify t e) = pre ++ ORecord r v :: post ->
      last_record r pre = None ->
      exists c body,
        taken_as (threads_handler unescape) (fun _ => fixComment blockquotify)
                 t init pre r c /\
        text c = Some body /\ deleted c = None /\
        v = fixComment blockquotify c /\
        (deleted v = Some true <-> trim body = "") /\
        (trim body = "" -> text v = Some " [flagged] ") /\
        (trim body <> "" -> text v = Some (blockquotify ("<p>" +:+ body)))) /\
  (forall (t : list (action thread_event)) (e : ending)
          (pre post : list output) (r : nat) (v : item),
      outputs (commentsGenerator unescape blockquotify t e) = pre ++ ORecord r v :: post ->
      r <> header_ref -> last_record r pre = None ->
      exists c body sid,
        kid_taken_as unescape blockquotify t pre r c /\
        text c = Some body /\ deleted c = None /\
        v = fixComment blockquotify (set_story sid c) /\
        (deleted v = Some true <-> trim body = "") /\
        (trim body = "" -> text v = Some " [flagged] ") /\
        (trim body <> "" -> text v = Some (blockquotify ("<p>" +:+ body)))) /\
  (forall (t : list (action threads_event)) (e : ending)
          (pre post : list output) (r : nat) (v v1 : item),
      fst (threadsGenerator unescape blockquotify t e) = pre ++ ORecord r v :: post ->
      last_record r pre = Some v1 ->
      exists c,
        taken_as (threads_handler unescape) (fun _ => fixComment blockquotify)
                 t init pre r c /\
        deleted c = deleted v1 /\
        v = fixComment blockquotify c /\
        (deleted v1 = Some true -> deleted v = Some true)).
Proof.
  split; [exact fixComment_spec|]. split; [|split].
  - intros t e pre post r v Hout Hfirst. unfold threadsGenerator in Hout.
    destruct (generator_taken _ _ repair_state 0%nat threads_handler_respects
                (fun _ _ => eq_refl) t e init pre r v post (emission_inv_init _) Hout)
      as (c & h & Htaken & -> & HR).
    specialize (HR (Nat.le_0_l r)). rewrite Hfirst in HR.
    destruct HR as (Hd & body & Hb). exists c, body.
    destruct (fixComment_spec c body Hb Hd) as (H1 & H2 & H3).
    split; [done|]. split; [done|]. split; [done|]. split; [done|].
    split; [done|]. split; [done|]. intros Hne. by destruct (H3 Hne).
  - intros t e pre post r v Hout Hr Hfirst.
    apply commentsGenerator_outputs in Hout as (n & post' & Hout).
    apply thread_run_split in Hout as (t1 & t2 & c & Ht & Hpre & Hb1 & Hhd & Hc & ->).
    destruct (thread_run_inv t1 thread_init false [] emission_inv_thread_init) as [H1 _].
    rewrite app_nil_l, Hpre in H1.
    assert (Hb : (1 <= r)%nat) by (unfold header_ref in Hr; lia).
    specialize (H1 r c Hb Hc). rewrite Hfirst in H1.
    destruct H1 as (Hd & body & Hbody).
    exists c, body. eexists. split; [by exists n, t1, t2|].
    split; [done|]. split; [done|]. unfold emit_kid. split; [reflexivity|].
    match goal with
    | |- context [fixComment blockquotify ?x] =>
        destruct (fixComment_spec x body Hbody Hd) as (H1 & H2 & H3)
    end.
    split; [exact H1|]. split; [exact H2|]. intros Hne. by destruct (H3 Hne).
  - intros t e pre post r v v1 Hout Hlast. unfold threadsGenerator in Hout.
    destruct (generator_taken _ _ repair_state 0%nat threads_handler_respects
                (fun _ _ => eq_refl) t e init pre r v post (emission_inv_init _) Hout)
      as (c & h & Htaken & -> & HR).
    specialize (HR (Nat.le_0_l r)). rewrite Hlast in HR. simpl in HR.
    exists c. split; [done|]. split; [done|]. split; [done|].
    intros Hd. apply deleted_fixComment. by rewrite HR.
Qed.

Lemma classify_kind (c : item) : truthy_opt (type_ (classify c)) = true.
Proof.
  unfold classify. simpl. destruct (truthy_opt (by_ c)); simpl; [|done].
  destruct (type_ c) as [ty|]; simpl; [|done].
  by destruct (truthy ty) eqn:Hty.
Qed.

(** C8: a listing that [storiesGenerator] yields is the stored object at
    the moment the consumer takes it, after the loop body.  With an empty
    author its type is 'job'.  With an author it is 'story' when the
    listing is yielded for the first time, as the handlers never set a
    type, and the type it was yielded with before when the listing has been
    dispatched again. *)
Theorem empty_author_is_job :
  forall (t : list (action story_event)) (e : ending)
         (pre post : list output) (r : nat) (v : item),
    fst (storiesGenerator unescape t e) = pre ++ ORecord r v :: post ->
    exists c,
      taken_as (stories_handler unescape) (fun _ => classify) t init pre r c /\
      v = classify c /\
      by_ v = by_ c /\
      (truthy_opt (by_ c) = false -> type_ v = Some "job") /\
      (truthy_opt (by_ c) = true ->
         type_ v = match last_record r pre with
                   | Some v1 => type_ v1
                   | None => Some "story"
                   end).
Proof.
  intros t e pre post r v Hout. unfold storiesGenerator in Hout.
  destruct (generator_taken _ _ kind_state 0%nat stories_handler_respects
              (fun _ c => conj eq_refl (classify_kind c))
              t e init pre r v post (emission_inv_init _) Hout)
    as (c & h & Htaken & -> & HR).
  specialize (HR (Nat.le_0_l r)). exists c.
  split; [done|]. split; [done|]. unfold classify. simpl.
  destruct (truthy_opt (by_ c)) eqn:Hby; simpl.
  - split; [done|]. split; [done|]. intros _.
    destruct (last_record r pre) as [v1|]; simpl in HR.
    + destruct HR as [-> Hty]. rewrite Hty.
      destruct (type_ v1); [done|discriminate Hty].
    + by rewrite HR.
  - split; [done|]. split; [done|]. done.
Qed.

End RepairFacts.

(** ** Failure *)

Section FailureFacts.

Variable unescape : string -> string.
Variable blockquotify : string -> string.

(** C5, as the code has it: when a pass does not end well (a handler
    throws, or the read or the parse fails), no error reaches the consumer
    through the bridge.  The caller of [storiesGenerator] still receives
    the records sealed before, and nothing else: no continuation, and its
    last request stays pending.  The caller of [commentsGenerator] receives
    nothing at all, or the header and the comments dispatched before, and
    then waits in the same way; only [post.moreLink] is rejected, when no
    anchor was captured.  A record under construction has not been sealed,
    so it is never handed out. *)
Theorem failure_leaves_consumer_pending :
  (forall (t : list (action story_event)) (e : ending),
      consume (produce (stories_handler unescape) (events_of t) init) e = false ->
      snd (storiesGenerator unescape t e) = Pending /\
      forallb is_record (fst (storiesGenerator unescape t e)) = true /\
      record_refs (fst (storiesGenerator unescape t e)) =
        sealed (stories_handler unescape) (events_of t) init) /\
  (forall (t : list (action thread_event)) (e : ending),
      let p := produce (thread_handler unescape) (events_of t) thread_init in
      let res := commentsGenerator unescape blockquotify t e in
      consume p e = false ->
      last res = Pending /\
      ((outputs res = [] /\ more res = None) \/
       (exists h kids,
           outputs res = OHeader h :: kids /\
           forallb is_record kids = true /\
           record_refs kids = tail (sealed (thread_handler unescape) (events_of t)
                                           thread_init) /\
           more res = Some (match moreLink p with
                            | Some v => Fulfilled v
                            | None => Rejected
                            end)))).
Proof.
  split.
  - intros t e Hbad.
    destruct (storiesGenerator_spec unescape t e) as (recs & Hrec & Href & ->).
    rewrite Hbad. done.
  - intros t e p res Hbad.
    destruct (commentsGenerator_spec unescape blockquotify t e) as (Hlast & Hout).
    fold p res in Hlast, Hout. rewrite Hbad in *. split; [done|].
    destruct Hout as [(h & kids & Ho & Hk & Hr & Hm) | (_ & _ & Ho & Hm)].
    + right. exists h, kids. by repeat split.
    + by left.
Qed.

End FailureFacts.

(** * Instances *)

(** ** On the sample inputs *)

Example parseInt_points : parseInt "123 points" = of_Z 123.
Proof. reflexivity. Qed.

Example parseInt_leading_space : parseInt " 45 comments" = of_Z 45.
Proof. reflexivity. Qed.

Example parseInt_discuss : parseInt "discuss" = NaN.
Proof. reflexivity. Qed.

Example Number_id : Number "28043776" = of_Z 28043776.
Proof. reflexivity. Qed.

Example Number_not_a_number : Number "12a" = NaN.
Proof. reflexivity. Qed.

Example extractId_item : extractId (Some "item?id=77&p=2") = of_Z 77.
Proof. reflexivity. Qed.

Example extractId_other : extractId (Some "user?id=pg") = NaN.
Proof. reflexivity. Qed.

Example trim_both_ends : trim "  a b  " = "a b".
Proof. reflexivity. Qed.

Example elToTagOpen_link :
  elToTagOpen (elem "i" []) = "<i >".
Proof. reflexivity. Qed.

Example sample_listing_refs :
  record_refs (fst (storiesGenerator plain sample_listing Completed)) = [0; 1]%nat.
Proof. reflexivity. Qed.

Example sample_threads_refs :
  record_refs (fst (threadsGenerator plain plain sample_threads Completed)) = [0; 1]%nat.
Proof. reflexivity. Qed.

(** An element without an end tag in a comment body: its handler has
    appended the open tag when [onEndTag] throws; the pass is lost, the
    comment is never dispatched, and the caller waits. *)
Example line_break_aborts :
  failed (produce (threads_handler plain) (events_of line_break_threads) init) = true /\
  text <$> heap (produce (threads_handler plain) (events_of line_break_threads) init)
             !! 0%nat = Some (Some "one<br >") /\
  threadsGenerator plain plain line_break_threads Completed = ([], Pending).
Proof. repeat split; reflexivity. Qed.

(** C1, on the sample page: two listings, then the continuation. *)
Lemma continuation_is_last_value_witness :
  no_throw (stories_handler plain) (events_of sample_listing) init /\
  no_throw (threads_handler plain) (events_of sample_threads) init /\
  continuation (stories_anchor plain) (events_of sample_listing) = "news?p=2" /\
  sealed (stories_handler plain) (events_of sample_listing) init = [0; 1]%nat /\
  (exists recs,
      forallb is_record recs = true /\
      record_refs recs = sealed (stories_handler plain) (events_of sample_listing) init /\
      storiesGenerator plain sample_listing Completed =
        (recs ++ [OMore (continuation (stories_anchor plain) (events_of sample_listing))],
         Returned)) /\
  (exists recs,
      forallb is_record recs = true /\
      record_refs recs = sealed (threads_handler plain) (events_of sample_threads) init /\
      threadsGenerator plain plain sample_threads Completed =
        (recs ++ [OMore (continuation (threads_anchor plain) (events_of sample_threads))],
         Returned)).
Proof.
  split; [reflexivity|]. split; [reflexivity|]. split; [reflexivity|].
  split; [reflexivity|]. split.
  - apply (proj1 (continuation_is_last_value plain plain) sample_listing). reflexivity.
  - apply (proj1 (proj2 (continuation_is_last_value plain plain)) sample_threads).
    reflexivity.
Defined.

(** C2 fails: after a burst of three start-of-record elements, two completed
    records wait in the bridge and the handlers are building the third. *)
Lemma sealed_records_pile_up :
  queue (fst (run (stories_handler plain) (fun _ => classify) burst init)) = [0; 1]%nat /\
  current (fst (run (stories_handler plain) (fun _ => classify) burst init)) = Some 2%nat /\
  failed (fst (run (stories_handler plain) (fun _ => classify) burst init)) = false.
Proof. repeat split; reflexivity. Qed.

(** C2, after two start-of-record elements: with one record already
    waiting in the bridge, the third element seals the second record and
    starts the third. *)
Lemma bridge_queues_without_bound_witness :
  current (produce (stories_handler plain) [athing (row "1"); athing (row "2")] init)
    = Some 1%nat /\
  queue (produce (stories_handler plain) [athing (row "1"); athing (row "2")] init)
    = [0%nat] /\
  exists s',
    stories_handler plain (athing (row "3"))
      (produce (stories_handler plain) [athing (row "1"); athing (row "2")] init)
      = Some s' /\
    queue s' =
      queue (produce (stories_handler plain) [athing (row "1"); athing (row "2")] init)
      ++ [1%nat] /\
    current s' =
      Some (length (heap (produce (stories_handler plain)
                            [athing (row "1"); athing (row "2")] init))).
Proof.
  split; [reflexivity|]. split; [reflexivity|].
  apply (proj1 (bridge_queues_without_bound plain)). reflexivity.
Defined.

(** C4 fails: on a page that breaks off inside its first listing, the caller
    receives the continuation and no record. *)
Lemma truncated_page_loses_pending_record :
  storiesGenerator plain truncated_listing Completed = ([OMore ""], Returned) /\
  current (produce (stories_handler plain) (events_of truncated_listing) init)
    = Some 0%nat.
Proof. split; reflexivity. Qed.

(** C4, on the truncated page: the record started is not handed out. *)
Lemma pending_record_needs_boundary_witness :
  forallb (fun ev => negb (is_boundary ev))
          (events_of [Ev (titlelink_text "Show HN") : action story_event]) = true /\
  ~ In (length (heap (produce (stories_handler plain) (events_of []) init)))
       (record_refs (fst (storiesGenerator plain
                            ([] ++ Ev (athing (row "1")) :: [Ev (titlelink_text "Show HN")])
                            Completed))).
Proof.
  split; [reflexivity|].
  apply (pending_record_needs_boundary plain [] [Ev (titlelink_text "Show HN")]
           (row "1") Completed).
  reflexivity.
Defined.

(** C5 fails: the read fails after two listings were started; the caller
    receives the first listing and then waits for ever, with no error. *)
Lemma failed_read_gives_no_error :
  snd (storiesGenerator plain interrupted_listing Failed) = Pending /\
  record_refs (fst (storiesGenerator plain interrupted_listing Failed)) = [0%nat] /\
  current (produce (stories_handler plain) (events_of interrupted_listing) init)
    = Some 1%nat.
Proof. repeat split; reflexivity. Qed.

(** C5, on the interrupted page and on an item page whose read fails. *)
Lemma failure_leaves_consumer_pending_witness :
  consume (produce (stories_handler plain) (events_of interrupted_listing) init) Failed
    = false /\
  snd (storiesGenerator plain interrupted_listing Failed) = Pending /\
  forallb is_record (fst (storiesGenerator plain interrupted_listing Failed)) = true /\
  record_refs (fst (storiesGenerator plain interrupted_listing Failed)) =
    sealed (stories_handler plain) (events_of interrupted_listing) init.
Proof.
  split; [reflexivity|].
  apply (proj1 (failure_leaves_consumer_pending plain plain) interrupted_listing Failed).
  reflexivity.
Defined.



(** C7 fails: on a threads page whose footer matches twice, the comment,
    whose body is blank, is handed out twice; the second time it has
    [deleted = true] and its body is not the placeholder but the normalized
    placeholder. *)
Lemma blank_comment_sealed_twice :
  text <$> heap (produce (threads_handler plain) (events_of twice_sealed_threads) init)
             !! 0%nat = Some (Some "  ") /\
  record_refs (fst (threadsGenerator plain plain twice_sealed_threads Completed))
    = [0; 0]%nat /\
  deleted <$> last_record 0 (fst (threadsGenerator plain plain twice_sealed_threads
                                    Completed)) = Some (Some true) /\
  text <$> last_record 0 (fst (threadsGenerator plain plain twice_sealed_threads
                                 Completed)) = Some (Some "<p> [flagged] ").
Proof. repeat split; reflexivity. Qed.

(** C7, on a comment whose body is white space, on the blank comment of
    the sample threads page, on the first comment of the sample item page
    and on the comment that is handed out twice. *)
Lemma deleted_iff_blank_body_witness :
  (text (comment_with_body "  ") = Some "  " /\
   deleted (comment_with_body "  ") = None /\
   trim "  " = "" /\
   (deleted (fixComment plain (comment_with_body "  ")) = Some true <-> trim "  " = "") /\
   (trim "  " = "" ->
      text (fixComment plain (comment_with_body "  ")) = Some " [flagged] ") /\
   (trim "  " <> "" ->
      text (fixComment plain (comment_with_body "  ")) = Some (plain ("<p>" +:+ "  ")) /\
      deleted (fixComment plain (comment_with_body "  ")) = None)) /\
  (exists c body,
     taken_as (threads_handler plain) (fun _ => fixComment plain) sample_threads init
              (take 1 (fst (threadsGenerator plain plain sample_threads Completed)))
              1 c /\
     text c = Some body /\ deleted c = None /\
     sample_flagged = fixComment plain c /\
     (deleted sample_flagged = Some true <-> trim body = "") /\
     (trim body = "" -> text sample_flagged = Some " [flagged] ") /\
     (trim body <> "" -> text sample_flagged = Some (plain ("<p>" +:+ body)))) /\
  (exists c body sid,
     kid_taken_as plain plain sample_thread
                  (take 1 (outputs (commentsGenerator plain plain sample_thread Completed)))
                  1 c /\
     text c = Some body /\ deleted c = None /\
     sample_kid = fixComment plain (set_story sid c) /\
     (deleted sample_kid = Some true <-> trim body = "") /\
     (trim body = "" -> text sample_kid = Some " [flagged] ") /\
     (trim body <> "" -> text sample_kid = Some (plain ("<p>" +:+ body)))) /\
  (exists c,
     taken_as (threads_handler plain) (fun _ => fixComment plain) twice_sealed_threads
              init [ORecord 0 sample_blank] 0 c /\
     deleted c = deleted sample_blank /\
     sample_blank_again = fixComment plain c /\
     (deleted sample_blank = Some true -> deleted sample_blank_again = Some true)).
Proof.
  split; [|split; [|split]].
  - split; [reflexivity|]. split; [reflexivity|]. split; [reflexivity|].
    apply (proj1 (deleted_iff_blank_body plain plain) (comment_with_body "  ") "  ");
      reflexivity.
  - apply (proj1 (proj2 (deleted_iff_blank_body plain plain)) sample_threads Completed
             (take 1 (fst (threadsGenerator plain plain sample_threads Completed)))
             [OMore "threads?id=pg&next=7"] 1%nat sample_flagged);
      reflexivity.
  - apply (proj1 (proj2 (proj2 (deleted_iff_blank_body plain plain)))
             sample_thread Completed
             (take 1 (outputs (commentsGenerator plain plain sample_thread Completed)))
             (drop 2 (outputs (commentsGenerator plain plain sample_thread Completed)))
             1%nat sample_kid);
      [reflexivity | discriminate | reflexivity].
  - apply (proj2 (proj2 (proj2 (deleted_iff_blank_body plain plain)))
             twice_sealed_threads Completed [ORecord 0 sample_blank] [OMore ""]
             0%nat sample_blank_again sample_blank);
      reflexivity.
Defined.

(** C8, on the second listing of the sample page, which has no author, and
    on the first, which has one. *)
Lemma empty_author_is_job_witness :
  (by_ sample_job = Some "" /\
   type_ sample_job = Some "job" /\
   exists c,
     taken_as (stories_handler plain) (fun _ => classify) sample_listing init
              [ORecord 0 sample_story] 1 c /\
     sample_job = classify c /\
     by_ sample_job = by_ c /\
     (truthy_opt (by_ c) = false -> type_ sample_job = Some "job") /\
     (truthy_opt (by_ c) = true ->
        type_ sample_job = match last_record 1 [ORecord 0 sample_story] with
                           | Some v1 => type_ v1
                           | None => Some "story"
                           end)) /\
  (by_ sample_story = Some "pg" /\
   type_ sample_story = Some "story" /\
   exists c,
     taken_as (stories_handler plain) (fun _ => classify) sample_listing init [] 0 c /\
     sample_story = classify c /\
     by_ sample_story = by_ c /\
     (truthy_opt (by_ c) = false -> type_ sample_story = Some "job") /\
     (truthy_opt (by_ c) = true ->
        type_ sample_story = match last_record 0 [] with
                             | Some v1 => type_ v1
                             | None => Some "story"
                             end)).
Proof.
  split.
  - split; [reflexivity|]. split; [reflexivity|].
    apply (empty_author_is_job plain sample_listing Completed
             [ORecord 0 sample_story] [OMore "news?p=2"] 1%nat sample_job).
    reflexivity.
  - split; [reflexivity|]. split; [reflexivity|].
    apply (empty_author_is_job plain sample_listing Completed
             [] [ORecord 1 sample_job; OMore "news?p=2"] 0%nat sample_story).
    reflexivity.
Defined.

(** C9 fails: on an item page on which '.comment-tree' matches twice, the
    caller receives the header and then, as the one value of [post.kids],
    the header object again. *)
Lemma header_handed_out_as_comment :
  no_throw (thread_handler plain) (events_of two_comment_trees) thread_init /\
  sealed (thread_handler plain) (events_of two_comment_trees) thread_init
    = [header_ref; header_ref] /\
  map is_record (outputs (commentsGenerator plain plain two_comment_trees Completed))
    = [false; true] /\
  record_refs (outputs (commentsGenerator plain plain two_comment_trees Completed))
    = [header_ref] /\
  title <$> last_record header_ref
              (outputs (commentsGenerator plain plain two_comment_trees Completed))
    = Some (Some "Ask HN") /\
  deleted <$> last_record header_ref
                (outputs (commentsGenerator plain plain two_comment_trees Completed))
    = Some (Some true).
Proof. repeat split; reflexivity. Qed.

(** C9, on the sample item page: the header, then the two comments that
    were dispatched after it. *)
Lemma header_then_comments_of_same_pass_witness :
  no_throw (thread_handler plain) (events_of sample_thread) thread_init /\
  sealed (thread_handler plain) (events_of sample_thread) thread_init = [0; 1; 2]%nat /\
  exists c kids,
    header_taken_as plain plain sample_thread c /\
    outputs (commentsGenerator plain plain sample_thread Completed) =
      OHeader (fix_header plain c) :: kids /\
    forallb is_record kids = true /\
    record_refs kids =
      tail (sealed (thread_handler plain) (events_of sample_thread) thread_init) /\
    last (commentsGenerator plain plain sample_thread Completed) = Returned /\
    (forall pre e post,
        events_of sample_thread = pre ++ e :: post ->
        sealed (thread_handler plain) pre thread_init = [] ->
        Forall (fun e' => is_comment_tree e' = false) post ->
        ~ In header_ref (record_refs kids)) /\
    (forall pre post,
        events_of sample_thread = pre ++ comment_tree :: post ->
        sealed (thread_handler plain) pre thread_init <> [] ->
        In header_ref (record_refs kids)).
Proof.
  split; [reflexivity|]. split; [reflexivity|].
  apply (header_then_comments_of_same_pass plain plain sample_thread). reflexivity.
Defined.

(** C10, on the sample item page: the first comment names story 99 in its
    own markup and is handed out with the id of the header, 7. *)
Lemma kids_story_is_post_id_witness :
  forallb (fun a => negb (is_fat_athing a)) sample_comments = true /\
  In (ORecord 1 sample_kid)
     (outputs (commentsGenerator plain plain (map Ev sample_header ++ sample_comments)
                 Completed)) /\
  post_id (produce (thread_handler plain) sample_header thread_init) = Some (of_Z 7) /\
  story sample_kid = post_id (produce (thread_handler plain) sample_header thread_init).
Proof.
  split; [reflexivity|]. split; [right; left; reflexivity|]. split; [reflexivity|].
  apply (proj2 (kids_story_is_post_id plain plain) sample_header sample_comments
           Completed 1%nat sample_kid).
  - reflexivity.
  - right; left; reflexivity.
Defined.

(** * Further properties *)

(** ** Handlers as effects *)

Lemma stories_handler_interp unescape e s :
  stories_handler unescape e s = interp (stories_effect unescape e) s.
Proof.
  destruct e; simpl; unfold set_if_number, resolve_href;
    try destruct (starts_with_digit chunk); reflexivity.
Qed.

Lemma scrapeComments_interp e s : scrapeComments e s = interp (scrape_effect e) s.
Proof.
  destruct e; try reflexivity. cbn [scrapeComments scrape_effect]. unfold onEndTag.
  destruct (canHaveContent el); cbn [interp]; [|done].
  by destruct (on_current _ s).
Qed.

Lemma threads_handler_interp unescape e s :
  threads_handler unescape e s = interp (threads_effect unescape e) s.
Proof. destruct e; simpl; [reflexivity | apply scrapeComments_interp]. Qed.

Lemma out_of_cons g h r refs v :
  h !! r = Some v -> out_of g h (r :: refs) = ORecord r (g v) :: out_of g h refs.
Proof. intros Hv. unfold out_of. cbn [omap list_omap]. by rewrite Hv. Qed.

Lemma out_of_numbered g (h : list item) : forall pre,
  out_of g (pre ++ h) (seq (length pre) (length h)) = numbered g (length pre) h.
Proof.
  induction h as [|o h IH]; intros pre; [done|].
  cbn [length seq numbered].
  rewrite (out_of_cons g _ _ _ o) by (by rewrite list_lookup_middle).
  f_equal. specialize (IH (pre ++ [o])).
  rewrite <- app_assoc, length_app in IH. simpl in IH.
  by rewrite Nat.add_1_r in IH.
Qed.

Section EffectFacts.

Context {E : Type}.
Variable handler : E -> state -> option state.
Variable eff : E -> effect.
Variable g : item -> item.

Hypothesis handler_interp : forall e s, handler e s = interp (eff e) s.

Lemma interp_ctl e s p :
  ctl s = ctl p ->
  match handler e s, handler e p with
  | Some s', Some p' =>
      ctl s' = ctl p' /\
      exists d, queue s' = queue s ++ d /\ queue p' = queue p ++ d
  | None, None => True
  | _, _ => False
  end.
Proof.
  intros Hc. rewrite !handler_interp. destruct (eff e); simpl.
  - by apply dispatch_new_ctl.
  - by apply on_current_ctl.
  - by apply dispatch_ctl.
  - by apply resolve_ctl.
  - by apply same_ctl.
  - pose proof (on_current_ctl f f s p Hc) as H.
    destruct (on_current f s) as [s'|], (on_current f p) as [p'|]; simpl; try done.
    destruct H as (Hc' & d & Hq1 & Hq2). split; [|by exists d].
    unfold ctl in *. simpl. by injection Hc' as -> -> ->.
Qed.

Lemma interp_wf base e s s' : wf base s -> handler e s = Some s' -> wf base s'.
Proof.
  intros Hwf. rewrite handler_interp. destruct (eff e); simpl.
  - intros [= <-]. by apply wf_assign_new, wf_dispatch_if_defined.
  - by apply wf_on_current.
  - intros [= <-]. by apply wf_dispatch_if_defined.
  - intros [= <-]. by apply wf_resolve.
  - by intros [= <-].
  - destruct (on_current f s) as [s0|] eqn:H0; [|done]. intros [= <-].
    by apply wf_set_failed, (wf_on_current base f s).
Qed.

Lemma produce1_agree e s p taken :
  ctl s = ctl p -> agree s p taken ->
  (touches (eff e) = true -> failed p = false ->
   forall r, current p = Some r -> ~ In r taken) ->
  agree (produce1 handler e s) (produce1 handler e p) taken.
Proof.
  intros Hc Hag Hsafe. destruct (ctl_eq_inv _ _ Hc) as (Hcur & Hlen & _ & Hf).
  unfold produce1. rewrite <- Hf. destruct (failed s) eqn:Hfs; [done|].
  rewrite !handler_interp. symmetry in Hf.
  destruct (eff e) as [mk|f| |v| |f] eqn:He; simpl in *; try done.
  - assert (Hst : current_story s = current_story p).
    { unfold current_story. rewrite <- Hcur.
      destruct (current s) as [c|] eqn:Hcs; [|done]. simpl.
      rewrite (Hag c); [done|]. apply (Hsafe eq_refl Hf c). congruence. }
    rewrite Hst. intros r Hr. simpl.
    assert (Hh : heap (dispatch_if_defined s) = heap s)
      by (unfold dispatch_if_defined; by destruct (current s)).
    assert (Hh' : heap (dispatch_if_defined p) = heap p)
      by (unfold dispatch_if_defined; by destruct (current p)).
    rewrite Hh, Hh', !lookup_app, Hlen, (Hag r Hr). done.
  - unfold on_current. rewrite <- Hcur.
    destruct (current s) as [c|] eqn:Hcs; [|done].
    intros r Hr. simpl. destruct (decide (c = r)) as [->|Hne].
    + by rewrite !list_lookup_alter_eq, (Hag r Hr).
    + rewrite !list_lookup_alter_ne by done. by apply Hag.
  - intros r Hr. unfold dispatch_if_defined. rewrite <- Hcur.
    destruct (current s); simpl; by apply Hag.
  - intros r Hr. unfold resolve.
    destruct (moreLink s), (moreLink p); simpl; by apply Hag.
  - unfold on_current. rewrite <- Hcur.
    destruct (current s) as [c|] eqn:Hcs; [|done].
    intros r Hr. simpl. destruct (decide (c = r)) as [->|Hne].
    + by rewrite !list_lookup_alter_eq, (Hag r Hr).
    + rewrite !list_lookup_alter_ne by done. by apply Hag.
Qed.

(** An object in the bridge is not written to any more. *)
Lemma produce_stable evs : forall p r,
  wf 0 p -> undisturbed handler eff evs p -> In r (queue p) ->
  heap (produce handler evs p) !! r = heap p !! r.
Proof.
  induction evs as [|e evs IH]; intros p r Hwf Hun Hin; [done|].
  destruct Hun as [Hsafe Hun]. rewrite produce_cons.
  destruct (produce1_sim handler interp_ctl e p p eq_refl) as (_ & d & Hq & _).
  rewrite IH; [| by apply (produce1_wf handler 0%nat (interp_wf 0%nat)) | done
               | rewrite Hq; apply in_or_app; by left].
  assert (Hr : (r < length (heap p))%nat).
  { destruct Hwf as (_ & _ & Hall). rewrite Forall_forall in Hall.
    apply Hall. by apply list_elem_of_In. }
  unfold produce1. destruct (failed p) eqn:Hf; [done|].
  rewrite handler_interp.
  destruct (eff e) as [mk|f| |v| |f] eqn:He; simpl in *; try done.
  - assert (Hh : heap (dispatch_if_defined p) = heap p)
      by (unfold dispatch_if_defined; by destruct (current p)).
    by rewrite Hh, lookup_app_l.
  - unfold on_current. destruct (current p) as [c|] eqn:Hc; [|done]. simpl.
    rewrite list_lookup_alter_ne; [done|].
    intros ->. by apply (Hsafe eq_refl eq_refl r).
  - unfold dispatch_if_defined. by destruct (current p).
  - unfold resolve. by destruct (moreLink p).
  - unfold on_current. destruct (current p) as [c|] eqn:Hc; [|done]. simpl.
    rewrite list_lookup_alter_ne; [done|].
    intros ->. by apply (Hsafe eq_refl eq_refl r).
Qed.

Lemma undisturbed_taken e evs p taken q :
  undisturbed handler eff (e :: evs) p -> queue p = taken ++ q ->
  touches (eff e) = true -> failed p = false ->
  forall r, current p = Some r -> ~ In r taken.
Proof.
  intros [Hsafe _] Hq Ht Hf r Hc Hin.
  apply (Hsafe Ht Hf r Hc). rewrite Hq. apply in_or_app. by left.
Qed.

(** Whatever the interleaving, each record that the consumer yields is its
    loop body applied to the object as the producer alone leaves it. *)
Lemma run_outputs t : forall s p taken,
  wf 0 s -> wf 0 p -> ctl s = ctl p -> queue p = taken ++ queue s ->
  agree s p taken ->
  undisturbed handler eff (events_of t) p ->
  NoDup (queue (produce handler (events_of t) p)) ->
  snd (run handler (fun _ => g) t s) =
    out_of g (heap (produce handler (events_of t) p))
           (record_refs (snd (run handler (fun _ => g) t s))).
Proof.
  induction t as [|a t IH]; intros s p taken Hwf Hwfp Hc Hq Hag Hun Hnd; [done|].
  destruct a as [e|].
  - rewrite events_of_Ev in *. rewrite produce_cons in *. cbn [run step].
    destruct (produce1_sim handler interp_ctl e s p Hc) as (Hc' & d & Hs & Hp).
    assert (Hag' : agree (produce1 handler e s) (produce1 handler e p) taken).
    { apply produce1_agree; [done|done|].
      intros Ht Hf. by apply (undisturbed_taken e (events_of t) p taken (queue s)). }
    destruct Hun as [_ Hun].
    specialize (IH (produce1 handler e s) (produce1 handler e p) taken
                  (produce1_wf handler 0%nat (interp_wf 0%nat) e s Hwf)
                  (produce1_wf handler 0%nat (interp_wf 0%nat) e p Hwfp) Hc').
    rewrite Hs, Hp, Hq, <- app_assoc in IH. specialize (IH eq_refl Hag' Hun Hnd).
    destruct (run handler (fun _ => g) t (produce1 handler e s)) as [s2 o2].
    exact IH.
  - rewrite events_of_Pull in *. cbn [run step].
    destruct (queue s) as [|r q] eqn:Hqs.
    + rewrite (pull_nil _ s Hqs).
      assert (Hq' : queue p = taken ++ queue s) by (by rewrite Hqs).
      specialize (IH s p taken Hwf Hwfp Hc Hq' Hag Hun Hnd).
      destruct (run handler (fun _ => g) t s) as [s2 o2]. exact IH.
    + destruct (pull_cons (fun _ => g) 0%nat s r q Hwf Hqs) as (v & Hv & ->).
      set (s1 := set_queue q _).
      destruct (produce_queue_prefix handler interp_ctl (events_of t) p) as (d & Hd).
      assert (Hfresh : ~ In r taken).
      { intros Hin. rewrite Hd, Hq in Hnd.
        apply NoDup_app in Hnd as (Hnd & _). apply NoDup_app in Hnd as (_ & Hno & _).
        apply list_elem_of_In in Hin. apply (Hno r Hin). left. }
      assert (Hpf : heap (produce handler (events_of t) p) !! r = Some v).
      { rewrite produce_stable; [by rewrite <- (Hag r Hfresh) | done | done |].
        rewrite Hq. apply in_or_app. right. by left. }
      assert (Hc1 : ctl s1 = ctl p).
      { rewrite <- Hc. unfold ctl, s1; simpl. by rewrite length_alter. }
      assert (Hq1 : queue p = (taken ++ [r]) ++ queue s1) by (by rewrite <- app_assoc).
      assert (Hag1 : agree s1 p (taken ++ [r])).
      { intros r' Hr'. unfold s1; simpl.
        assert (r <> r') by (intros ->; apply Hr', in_or_app; right; by left).
        rewrite list_lookup_alter_ne by done.
        apply Hag. intros Hin'. apply Hr', in_or_app. by left. }
      specialize (IH s1 p (taken ++ [r]) (wf_after_pull 0%nat s r q _ Hwf Hqs) Hwfp
                    Hc1 Hq1 Hag1 Hun Hnd).
      destruct (run handler (fun _ => g) t s1) as [s2 o2]. cbn [snd] in *.
      cbn [app]. change (record_refs (ORecord r (g v) :: o2)) with (r :: record_refs o2).
      rewrite (out_of_cons g _ r _ v Hpf). by f_equal.
Qed.

(** What the caller of a generator receives is fixed by the events alone. *)
Lemma generator_outputs t e :
  undisturbed handler eff (events_of t) init ->
  NoDup (sealed handler (events_of t) init) ->
  generator handler (fun _ => g) t e init =
    (out_of g (heap (produce handler (events_of t) init))
            (sealed handler (events_of t) init)
     ++ (if consume (produce handler (events_of t) init) e
         then [OMore (default "" (moreLink (produce handler (events_of t) init)))]
         else []),
     if consume (produce handler (events_of t) init) e then Returned else Pending).
Proof.
  intros Hun Hnd. unfold sealed in *.
  set (pf := produce handler (events_of t) init) in *.
  destruct (generator_spec handler (fun _ => g) 0%nat interp_ctl (interp_wf 0%nat)
              t e init wf_init eq_refl) as (recs & Hrec & Href & Hgen).
  fold pf in Href, Hgen. unfold sealed in Href. fold pf in Href.
  assert (Hout : exists n,
             fst (generator handler (fun _ => g) t e init) =
             snd (run handler (fun _ => g) (t ++ replicate n Pull) init)
             ++ (if consume pf e then [OMore (default "" (moreLink pf))] else [])).
  { exists (length (queue (fst (run handler (fun _ => g) t init)))).
    rewrite Hgen, run_app, <- pulls_as_run. cbn [snd].
    unfold generator in Hgen.
    destruct (run handler (fun _ => g) t init) as [s1 o1].
    change (pulls (fun _ => g) (length (queue (fst (s1, o1)))) (fst (s1, o1)))
      with (drain (fun _ => g) s1).
    destruct (drain (fun _ => g) s1) as [s2 o2]. cbn [snd fst].
    destruct (consume pf e), (consume s1 e); injection Hgen as Hg; try done.
    - rewrite app_assoc in Hg. apply app_inj_tail in Hg as [Hg _].
      cbn [fst]. by rewrite Hg.
    - cbn [fst]. by rewrite Hg, app_nil_r. }
  destruct Hout as (n & Hout).
  assert (Hev : events_of (t ++ replicate n (@Pull E)) = events_of t)
    by (by rewrite events_of_app, events_of_pulls, app_nil_r).
  pose proof (run_outputs (t ++ replicate n Pull) init init [] wf_init wf_init
                eq_refl eq_refl) as Hrun.
  rewrite Hev in Hrun. fold pf in Hrun.
  assert (Hag0 : agree init init []) by (by intros r).
  specialize (Hrun Hag0 Hun Hnd).
  rewrite Hgen in Hout |- *.
  destruct (consume pf e); cbn [fst] in Hout.
  - apply app_inj_tail in Hout as [Hrecs _].
    rewrite Hrecs, Hrun. rewrite <- Hrecs, Href. done.
  - rewrite app_nil_r in Hout. rewrite Hout, Hrun, <- Hout, Href, app_nil_r. done.
Qed.

End EffectFacts.

(** ** Pages *)

Section PageFacts.

Context {E : Type}.
Variable handler : E -> state -> option state.
Variable eff : E -> effect.

Hypothesis handler_interp : forall e s, handler e s = interp (eff e) s.

(** The events inside a record write to the newest object only. *)
Lemma produce_inside fs : forall s h o,
  failed s = false -> heap s = h ++ [o] -> current s = Some (length h) ->
  Forall (fun e => inner (eff e) = true) fs ->
  failed (produce handler fs s) = false /\
  heap (produce handler fs s) = h ++ [built eff o fs] /\
  current (produce handler fs s) = Some (length h) /\
  queue (produce handler fs s) = queue s.
Proof.
  induction fs as [|e fs IH]; intros s h o Hf Hh Hc Hin; [done|].
  apply Forall_cons in Hin as [He Hin]. rewrite produce_cons.
  assert (H1 : failed (produce1 handler e s) = false /\
               heap (produce1 handler e s) = h ++ [apply_effect (eff e) o] /\
               current (produce1 handler e s) = Some (length h) /\
               queue (produce1 handler e s) = queue s).
  { unfold produce1. rewrite Hf, handler_interp.
    destruct (eff e) as [mk|f| |v| |f]; simpl in *; try done.
    - unfold on_current. rewrite Hc. simpl. rewrite Hh.
      rewrite alter_app_r_alt by lia. by rewrite Nat.sub_diag.
    - unfold resolve. by destruct (moreLink s). }
  destruct H1 as (Hf1 & Hh1 & Hc1 & Hq1).
  destruct (IH _ h _ Hf1 Hh1 Hc1 Hin) as (? & ? & ? & ?).
  split; [done|]. split; [done|]. split; [done|]. congruence.
Qed.

Lemma current_story_last s h o :
  heap s = h ++ [o] -> current s = Some (length h) -> current_story s = story o.
Proof.
  intros Hh Hc. unfold current_story. rewrite Hc. simpl.
  by rewrite Hh, list_lookup_middle.
Qed.

(** The state that the records of a page leave behind. *)
Lemma produce_blocks blocks : forall s,
  failed s = false -> Forall (block_ok eff) blocks ->
  let s' := produce handler (flat_map (fun b => fst b :: snd b) blocks) s in
  failed s' = false /\
  heap s' = heap s ++ build_all eff (current_story s) blocks /\
  length (build_all eff (current_story s) blocks) = length blocks /\
  match blocks with
  | [] => current s' = current s /\ queue s' = queue s
  | _ :: bs =>
      current s' = Some (length (heap s) + length bs)%nat /\
      queue s' = queue s ++ option_list (current s)
                         ++ seq (length (heap s)) (length bs)
  end.
Proof.
  induction blocks as [|b bs IH]; intros s Hf Hok.
  - simpl. by rewrite app_nil_r.
  - apply Forall_cons in Hok as [[[mk Hmk] Hin] Hok].
    cbn [flat_map]. rewrite <- app_comm_cons, produce_cons, produce_app.
    set (s1 := produce1 handler (fst b) s).
    assert (H1 : failed s1 = false /\
                 heap s1 = heap s ++ [mk (current_story s)] /\
                 current s1 = Some (length (heap s)) /\
                 queue s1 = queue s ++ option_list (current s)).
    { unfold s1, produce1. rewrite Hf, handler_interp, Hmk. simpl.
      unfold dispatch_if_defined. destruct (current s); simpl; by rewrite ?app_nil_r. }
    destruct H1 as (Hf1 & Hh1 & Hc1 & Hq1).
    destruct (produce_inside (snd b) s1 (heap s) _ Hf1 Hh1 Hc1 Hin)
      as (Hf2 & Hh2 & Hc2 & Hq2).
    set (s2 := produce handler (snd b) s1) in *.
    specialize (IH s2 Hf2 Hok). cbn zeta in IH.
    destruct IH as (Hf3 & Hh3 & Hlen & Hrest).
    rewrite (current_story_last s2 _ _ Hh2 Hc2) in Hh3, Hlen.
    cbn [build_all]. rewrite Hmk. cbn zeta.
    split; [done|]. split; [by rewrite Hh3, Hh2, <- app_assoc|].
    split; [simpl; by rewrite Hlen|].
    assert (Hl2 : length (heap s2) = S (length (heap s)))
      by (rewrite Hh2, length_app; simpl; lia).
    destruct bs as [|b' bs'].
    + destruct Hrest as [-> ->]. rewrite Hc2, Hq2, Hq1. simpl.
      by rewrite Nat.add_0_r, app_nil_r.
    + destruct Hrest as [-> ->]. rewrite Hc2, Hq2, Hq1, Hl2. simpl.
      split; [f_equal; lia|]. by rewrite <- !app_assoc.
Qed.

(** As long as nothing is sealed for good, the object under construction
    is not in the bridge. *)
Lemma undisturbed_tail tail : forall s,
  Forall (fun e => touches (eff e) = false) tail ->
  undisturbed handler eff tail s.
Proof.
  induction tail as [|e tail IH]; intros s Ht; [done|].
  apply Forall_cons in Ht as [He Ht]. split; [|by apply IH].
  intros Hto. congruence.
Qed.

Lemma undisturbed_no_seal evs tail : forall s,
  wf 0 s -> (forall r, current s = Some r -> ~ In r (queue s)) ->
  Forall (fun e => eff e <> Seal) evs ->
  Forall (fun e => touches (eff e) = false) tail ->
  undisturbed handler eff (evs ++ tail) s.
Proof.
  induction evs as [|e evs IH]; intros s Hwf HJ Hns Ht.
  - by apply undisturbed_tail.
  - apply Forall_cons in Hns as [He Hns]. split; [by intros _ _|].
    apply IH; [| |done|done].
    + apply (produce1_wf handler 0%nat); [|done].
      intros e' s0 s0' Hw. rewrite handler_interp.
      destruct (eff e'); simpl.
      * intros [= <-]. by apply wf_assign_new, wf_dispatch_if_defined.
      * by apply wf_on_current.
      * intros [= <-]. by apply wf_dispatch_if_defined.
      * intros [= <-]. by apply wf_resolve.
      * by intros [= <-].
      * destruct (on_current f s0) as [s1|] eqn:H1; [|done]. intros [= <-].
        by apply wf_set_failed, (wf_on_current 0%nat f s0).
    + unfold produce1. destruct (failed s); [done|]. rewrite handler_interp.
      destruct (eff e) as [mk|f| |v| |f]; simpl; try done.
      * intros r [= Hr] Hin. subst r. destruct Hwf as (_ & Hc & Hq).
        assert (Hh : heap (dispatch_if_defined s) = heap s)
          by (unfold dispatch_if_defined; by destruct (current s)).
        rewrite Hh in Hin. unfold dispatch_if_defined in Hin.
        destruct (current s) as [c|] eqn:Hcs; simpl in Hin.
        -- apply in_app_or in Hin as [Hin|[Heq|[]]].
           ++ rewrite Forall_forall in Hq. apply list_elem_of_In in Hin.
              specialize (Hq _ Hin). simpl in Hq. lia.
           ++ specialize (Hc _ eq_refl). simpl in Hc. lia.
        -- rewrite Forall_forall in Hq. apply list_elem_of_In in Hin.
           specialize (Hq _ Hin). simpl in Hq. lia.
      * unfold on_current. destruct (current s) eqn:Hcs; simpl.
        -- intros r Hr. apply HJ. congruence.
        -- by rewrite Hcs.
      * unfold resolve. destruct (moreLink s); simpl; done.
      * unfold on_current. destruct (current s) eqn:Hcs; simpl.
        -- intros r Hr. apply HJ. congruence.
        -- by rewrite Hcs.
Qed.

Lemma undisturbed_app evs1 : forall evs2 s,
  undisturbed handler eff (evs1 ++ evs2) s ->
  undisturbed handler eff evs1 s /\
  undisturbed handler eff evs2 (produce handler evs1 s).
Proof.
  induction evs1 as [|e evs1 IH]; intros evs2 s Hun; [done|].
  destruct Hun as [Hsafe Hun]. destruct (IH _ _ Hun) as [H1 H2].
  rewrite produce_cons. by split.
Qed.

(** A page leaves one object for each of its records in the store, and
    hands each of them to the bridge once, in order. *)
Lemma produce_page_from blocks footer s :
  wf 0 s -> failed s = false -> current s = None ->
  Forall (block_ok eff) blocks -> eff footer = Seal ->
  failed (produce handler (page blocks footer) s) = false /\
  heap (produce handler (page blocks footer) s) =
    heap s ++ build_all eff None blocks /\
  queue (produce handler (page blocks footer) s) =
    queue s ++ seq (length (heap s)) (length blocks) /\
  length (build_all eff None blocks) = length blocks /\
  undisturbed handler eff (page blocks footer) s.
Proof.
  intros Hwf Hf0 Hc0 Hok Hfoot. unfold page. rewrite produce_app.
  destruct (produce_blocks blocks s Hf0 Hok) as (Hf & Hh & Hlen & Hrest).
  assert (Hst : current_story s = None) by (unfold current_story; by rewrite Hc0).
  rewrite Hst in Hh, Hlen.
  set (s' := produce handler (flat_map (fun b => fst b :: snd b) blocks) s) in *.
  assert (Hun : undisturbed handler eff
                  (flat_map (fun b => fst b :: snd b) blocks ++ [footer]) s).
  { apply undisturbed_no_seal; [done | by rewrite Hc0 | |].
    - apply Forall_forall. intros e He. apply list_elem_of_In, in_flat_map in He.
      destruct He as (b & Hb & He). rewrite Forall_forall in Hok.
      apply list_elem_of_In in Hb. destruct (Hok b Hb) as [[mk Hmk] Hin].
      destruct He as [<-|He]; [by rewrite Hmk|].
      rewrite Forall_forall in Hin. apply list_elem_of_In in He.
      specialize (Hin e He). simpl in Hin. intros Heq. by rewrite Heq in Hin.
    - apply Forall_singleton. by rewrite Hfoot. }
  clearbody s'. cbn [produce fold_left]. unfold produce1.
  rewrite Hf, handler_interp, Hfoot. cbn [interp]. unfold dispatch_if_defined.
  destruct blocks as [|b bs]; destruct Hrest as [Hc Hq]; rewrite Hc.
  - rewrite Hc0. split; [done|]. split; [done|].
    split; [by rewrite Hq, app_nil_r|done].
  - unfold dispatchEvent. cbn [failed heap queue set_queue].
    split; [done|]. split; [done|]. split; [|done].
    rewrite Hq, Hc0. simpl option_list. cbn [app length].
    rewrite <- app_assoc. f_equal. by rewrite seq_S.
Qed.

Lemma produce_page blocks footer :
  Forall (block_ok eff) blocks -> eff footer = Seal ->
  let pf := produce handler (page blocks footer) init in
  failed pf = false /\
  heap pf = build_all eff None blocks /\
  queue pf = seq 0 (length blocks) /\
  length (heap pf) = length blocks /\
  undisturbed handler eff (page blocks footer) init.
Proof.
  intros Hok Hfoot pf.
  destruct (produce_page_from blocks footer init wf_init eq_refl eq_refl Hok Hfoot)
    as (Hf & Hh & Hq & Hlen & Hun).
  fold pf in Hf, Hh, Hq. simpl in Hh, Hq.
  split; [done|]. split; [done|]. split; [done|]. split; [|done].
  by rewrite Hh.
Qed.

End PageFacts.

Section PageOutputs.

Context {E : Type}.
Variable handler : E -> state -> option state.
Variable eff : E -> effect.
Variable g : item -> item.
Variable anchor : E -> option string.

Hypothesis handler_interp : forall e s, handler e s = interp (eff e) s.
Hypothesis handler_moreLink : forall e s s',
  handler e s = Some s' ->
  moreLink s' = match moreLink s with Some v => Some v | None => anchor e end.

(** What a generator hands out for a page, whatever the interleaving. *)
Lemma generator_page t e blocks footer :
  events_of t = page blocks footer ->
  Forall (block_ok eff) blocks -> eff footer = Seal ->
  generator handler (fun _ => g) t e init =
    match e with
    | Completed =>
        (numbered g 0 (build_all eff None blocks)
           ++ [OMore (continuation anchor (page blocks footer))], Returned)
    | Failed => (numbered g 0 (build_all eff None blocks), Pending)
    end.
Proof.
  intros Hev Hok Hfoot.
  destruct (produce_page handler eff handler_interp blocks footer Hok Hfoot)
    as (Hf & Hh & Hq & Hlen & Hun).
  rewrite (generator_outputs handler eff g handler_interp t e);
    unfold sealed; rewrite Hev; [| done | rewrite Hq; apply NoDup_seq].
  rewrite Hq, <- Hlen.
  pose proof (out_of_numbered g (heap (produce handler (page blocks footer) init)) [])
    as Hout.
  cbn [app length] in Hout. rewrite Hout, Hh.
  unfold consume. rewrite Hf. cbn [negb andb].
  destruct e; [|by rewrite app_nil_r].
  rewrite (produce_moreLink handler anchor handler_moreLink) by done.
  done.
Qed.

End PageOutputs.

(** ** Listing pages and threads pages *)

Section PageInstances.

Variable unescape : string -> string.
Variable blockquotify : string -> string.

Lemma stories_inner e :
  is_boundary e = false -> inner (stories_effect unescape e) = true.
Proof.
  destruct e; simpl; try done;
    intros _; by destruct (starts_with_digit chunk).
Qed.

(** No handler of [storiesGenerator] writes [story]. *)
Lemma stories_story_kept e o :
  story (apply_effect (stories_effect unescape e) o) = story o.
Proof.
  destruct e; simpl; try done; by destruct (starts_with_digit chunk).
Qed.

Lemma built_story_kept fs : forall o,
  story (built (stories_effect unescape) o fs) = story o.
Proof.
  induction fs as [|e fs IH]; intros o; [done|].
  unfold built in *. cbn [fold_left]. by rewrite IH, stories_story_kept.
Qed.

Lemma listing_blocks_ok blocks :
  Forall inside_listing blocks ->
  Forall (block_ok (stories_effect unescape))
         (map (fun b => (athing (fst b), snd b)) blocks).
Proof.
  intros Hin. apply Forall_map. eapply Forall_impl; [exact Hin|].
  intros [el fs] Hb. split; [by exists (new_post el)|].
  unfold inside_listing in Hb. simpl in *.
  eapply Forall_impl; [exact Hb|]. intros e. apply stories_inner.
Qed.

Lemma listing_build_all blocks :
  build_all (stories_effect unescape) None
            (map (fun b => (athing (fst b), snd b)) blocks)
  = map (built_post unescape) blocks.
Proof.
  induction blocks as [|[el fs] blocks IH]; [done|].
  cbn [map build_all fst snd stories_effect]. cbn zeta.
  rewrite built_story_kept. cbn [new_post story]. by rewrite IH.
Qed.

Lemma threads_inner e :
  is_comment_boundary e = false /\ lacks_end_tag e = false ->
  inner (threads_effect unescape e) = true.
Proof.
  destruct e as [el|e]; [done|]. destruct e; try by intros [? ?].
  simpl. intros [_ Hend]. by destruct (canHaveContent el).
Qed.

Lemma threads_blocks_ok blocks :
  Forall inside_comment blocks ->
  Forall (block_ok (threads_effect unescape))
         (map (fun b => (th_scraped (comtr (fst b)), snd b)) blocks).
Proof.
  intros Hin. apply Forall_map. eapply Forall_impl; [exact Hin|].
  intros [el fs] Hb. split; [by exists (fun _ => new_comment el)|].
  unfold inside_comment in Hb. simpl in *.
  eapply Forall_impl; [exact Hb|]. intros e. apply threads_inner.
Qed.

Lemma threads_build_all blocks : forall prev,
  build_all (threads_effect unescape) prev
            (map (fun b => (th_scraped (comtr (fst b)), snd b)) blocks)
  = map (built_comment unescape) blocks.
Proof.
  induction blocks as [|[el fs] blocks IH]; intros prev; [done|].
  cbn [map build_all fst snd threads_effect scrape_effect]. cbn zeta.
  by rewrite IH.
Qed.

(** X1: on a listing page (rows, each followed by the fields of its listing,
    then the footer), whatever the moments at which the consumer asks,
    [storiesGenerator] yields each listing once, in page order, as its own
    events build it and the loop body classifies it; then, if the stream
    is read to its end, the continuation, and it returns.  If the read
    fails after the footer, the listings are still yielded and the last
    request stays pending. *)
Theorem listing_page_output t e blocks :
  events_of t = listing_page blocks ->
  Forall inside_listing blocks ->
  storiesGenerator unescape t e =
    match e with
    | Completed =>
        (numbered classify 0 (map (built_post unescape) blocks)
           ++ [OMore (continuation (stories_anchor unescape) (listing_page blocks))],
         Returned)
    | Failed => (numbered classify 0 (map (built_post unescape) blocks), Pending)
    end.
Proof.
  intros Hev Hin. unfold storiesGenerator, listing_page in *.
  rewrite (generator_page (stories_handler unescape) (stories_effect unescape)
             classify (stories_anchor unescape)
             (stories_handler_interp unescape) (stories_handler_moreLink unescape)
             t e _ yclinks Hev (listing_blocks_ok blocks Hin) eq_refl).
  by rewrite listing_build_all.
Qed.

(** X2: on a threads page (comment rows, each followed by the events inside
    the comment, the elements of its body having their end tags, then the
    footer), whatever the moments at which the consumer asks,
    [threadsGenerator] yields each comment once, in page order, as its own
    events build it and [fixComment] repairs it; then, if the stream is
    read to its end, the continuation. *)
Theorem threads_page_output t e blocks :
  events_of t = threads_page blocks ->
  Forall inside_comment blocks ->
  threadsGenerator unescape blockquotify t e =
    match e with
    | Completed =>
        (numbered (fixComment blockquotify) 0 (map (built_comment unescape) blocks)
           ++ [OMore (continuation (threads_anchor unescape) (threads_page blocks))],
         Returned)
    | Failed =>
        (numbered (fixComment blockquotify) 0 (map (built_comment unescape) blocks),
         Pending)
    end.
Proof.
  intros Hev Hin. unfold threadsGenerator, threads_page in *.
  rewrite (generator_page (threads_handler unescape) (threads_effect unescape)
             (fixComment blockquotify) (threads_anchor unescape)
             (threads_handler_interp unescape) (threads_handler_moreLink unescape)
             t e _ (th_scraped c_yclinks) Hev (threads_blocks_ok blocks Hin) eq_refl).
  by rewrite threads_build_all.
Qed.

(** X4: when no handler writes to an object that is already in the bridge and
    no object is dispatched twice, what the caller of [storiesGenerator]
    or of [threadsGenerator] receives does not depend on the moments at
    which the consumer asks: two interleavings of the same events give the
    same values and the same end. *)
Theorem outputs_do_not_depend_on_schedule :
  (forall t1 t2 e,
     events_of t1 = events_of t2 ->
     undisturbed (stories_handler unescape) (stories_effect unescape)
                 (events_of t1) init ->
     NoDup (sealed (stories_handler unescape) (events_of t1) init) ->
     storiesGenerator unescape t1 e = storiesGenerator unescape t2 e) /\
  (forall t1 t2 e,
     events_of t1 = events_of t2 ->
     undisturbed (threads_handler unescape) (threads_effect unescape)
                 (events_of t1) init ->
     NoDup (sealed (threads_handler unescape) (events_of t1) init) ->
     threadsGenerator unescape blockquotify t1 e =
       threadsGenerator unescape blockquotify t2 e).
Proof.
  split; intros t1 t2 e Hev Hun Hnd.
  - unfold storiesGenerator.
    rewrite (generator_outputs _ _ classify (stories_handler_interp unescape) t1 e)
      by done.
    rewrite Hev in Hun, Hnd |- *.
    by rewrite (generator_outputs _ _ classify (stories_handler_interp unescape) t2 e).
  - unfold threadsGenerator.
    rewrite (generator_outputs _ _ (fixComment blockquotify)
               (threads_handler_interp unescape) t1 e) by done.
    rewrite Hev in Hun, Hnd |- *.
    by rewrite (generator_outputs _ _ (fixComment blockquotify)
                  (threads_handler_interp unescape) t2 e).
Qed.

End PageInstances.

(** ** The fields of a record, from its events *)

Section BuiltFacts.

Context {E : Type}.
Variable eff : E -> effect.

Lemma built_cons o e fs : built eff o (e :: fs) = built eff (apply_effect (eff e) o) fs.
Proof. done. Qed.

(** A property that is assigned: the last assignment wins. *)
Lemma built_last {A} (getter : item -> A) (sel : E -> option A) :
  (forall e o, getter (apply_effect (eff e) o) = default (getter o) (sel e)) ->
  forall fs o, getter (built eff o fs) = default (getter o) (list.last (omap sel fs)).
Proof.
  intros Hstep. induction fs as [|e fs IH]; intros o; [done|].
  rewrite built_cons, IH, Hstep. cbn [omap list_omap].
  destruct (sel e) as [v|]; [|done].
  rewrite last_cons. by destruct (list.last (omap sel fs)).
Qed.

(** A property that is appended to: the chunks in order. *)
Lemma built_accum (getter : item -> option string) (sel : E -> option string) :
  (forall e o, getter (apply_effect (eff e) o) =
               match sel e with Some c => plus_eq (getter o) c | None => getter o end) ->
  forall fs o, getter (built eff o fs) = fold_left plus_eq (omap sel fs) (getter o).
Proof.
  intros Hstep. induction fs as [|e fs IH]; intros o; [done|].
  rewrite built_cons, IH, Hstep. cbn [omap list_omap].
  by destruct (sel e).
Qed.

(** A property that no handler writes. *)
Lemma built_kept {A} (getter : item -> A) :
  (forall e o, getter (apply_effect (eff e) o) = getter o) ->
  forall fs o, getter (built eff o fs) = getter o.
Proof.
  intros Hstep. induction fs as [|e fs IH]; intros o; [done|].
  by rewrite built_cons, IH, Hstep.
Qed.

End BuiltFacts.

Lemma fold_plus_eq_empty chunks :
  fold_left plus_eq chunks (Some "") = Some (concat_chunks chunks).
Proof. by rewrite plus_eq_chunks. Qed.

Ltac by_event e :=
  destruct e; simpl; try done;
  match goal with
  | |- context [starts_with_digit ?c] => by destruct (starts_with_digit c)
  end.

(** X5: what the handlers of [storiesGenerator] make of the events of one
    listing: the id is the number in the row's [id] attribute; title,
    author and age label are the concatenation of their text chunks; the
    link is the last [href] seen, absent when that one is empty or
    missing; score and comment count are [parseInt] of the last chunk that
    starts with a digit, and 0 when there is none; the handlers set
    neither [type] nor [story]. *)
Theorem listing_fields (unescape : string -> string) el fs :
  id_ (built_post unescape (el, fs)) = Some (Number_attr (getAttribute el "id")) /\
  title (built_post unescape (el, fs)) = Some (concat_chunks (omap title_chunk fs)) /\
  by_ (built_post unescape (el, fs)) = Some (concat_chunks (omap author_chunk fs)) /\
  timeAgo (built_post unescape (el, fs)) = Some (concat_chunks (omap age_chunk fs)) /\
  url (built_post unescape (el, fs)) = default None (list.last (omap url_write fs)) /\
  score (built_post unescape (el, fs)) =
    default (Some (of_Z 0)) (list.last (omap score_write fs)) /\
  descendants (built_post unescape (el, fs)) =
    default (Some (of_Z 0)) (list.last (omap descendants_write fs)) /\
  type_ (built_post unescape (el, fs)) = None /\
  story (built_post unescape (el, fs)) = None.
Proof.
  unfold built_post. cbn [fst snd].
  split; [|split; [|split; [|split; [|split; [|split; [|split; [|split]]]]]]].
  - rewrite (built_kept _ id_); [done|]. intros e o. by_event e.
  - rewrite (built_accum _ title title_chunk); [apply fold_plus_eq_empty|].
    intros e o. by_event e.
  - rewrite (built_accum _ by_ author_chunk); [apply fold_plus_eq_empty|].
    intros e o. by_event e.
  - rewrite (built_accum _ timeAgo age_chunk); [apply fold_plus_eq_empty|].
    intros e o. by_event e.
  - rewrite (built_last _ url url_write); [done|]. intros e o. by_event e.
  - rewrite (built_last _ score score_write); [done|]. intros e o. by_event e.
  - rewrite (built_last _ descendants descendants_write); [done|].
    intros e o. by_event e.
  - rewrite (built_kept _ type_); [done|]. intros e o. by_event e.
  - rewrite (built_kept _ story); [done|]. intros e o. by_event e.
Qed.

Ltac by_comment_event e :=
  destruct e; simpl; try done;
  match goal with
  | |- context [canHaveContent ?el] => by destruct (canHaveContent el)
  end.

(** The handlers of [scrapeComments] among those of [threadsGenerator]
    build the comment; the anchor handler does not touch it. *)
Lemma built_scraped unescape fs : forall o,
  built (threads_effect unescape) o fs = built scrape_effect o (omap scraped_of fs).
Proof.
  induction fs as [|e fs IH]; intros o; [done|].
  rewrite built_cons, IH. by destruct e.
Qed.

(** X6: what the handlers of [scrapeComments] make of the events of one
    comment: the body is the markup inside '.commtext' put together
    again, text chunks, open tags and end tags in the order of the page;
    author, age label and story title are the concatenation of their
    chunks; level, parent, story and quality are those of the last element
    that sets them, and absent when there is none; the handlers never set
    [deleted]. *)
Theorem comment_fields (unescape : string -> string) el fs :
  id_ (built_comment unescape (el, fs)) = Some (Number_attr (getAttribute el "id")) /\
  type_ (built_comment unescape (el, fs)) = Some "comment" /\
  text (built_comment unescape (el, fs)) =
    Some (concat_chunks (omap body_piece (omap scraped_of fs))) /\
  by_ (built_comment unescape (el, fs)) =
    Some (concat_chunks (omap c_author_chunk (omap scraped_of fs))) /\
  timeAgo (built_comment unescape (el, fs)) =
    Some (concat_chunks (omap c_age_chunk (omap scraped_of fs))) /\
  storyTitle (built_comment unescape (el, fs)) =
    Some (concat_chunks (omap story_title_chunk (omap scraped_of fs))) /\
  level (built_comment unescape (el, fs)) =
    default None (list.last (omap level_write (omap scraped_of fs))) /\
  parent (built_comment unescape (el, fs)) =
    default None (list.last (omap parent_write (omap scraped_of fs))) /\
  story (built_comment unescape (el, fs)) =
    default None (list.last (omap story_write (omap scraped_of fs))) /\
  quality (built_comment unescape (el, fs)) =
    default None (list.last (omap quality_write (omap scraped_of fs))) /\
  deleted (built_comment unescape (el, fs)) = None.
Proof.
  unfold built_comment. cbn [fst snd]. rewrite built_scraped.
  split; [|split; [|split; [|split; [|split; [|split;
    [|split; [|split; [|split; [|split]]]]]]]]].
  - rewrite (built_kept _ id_); [done|]. intros e o. by_comment_event e.
  - rewrite (built_kept _ type_); [done|]. intros e o. by_comment_event e.
  - rewrite (built_accum _ text body_piece); [apply fold_plus_eq_empty|].
    intros e o. by_comment_event e.
  - rewrite (built_accum _ by_ c_author_chunk); [apply fold_plus_eq_empty|].
    intros e o. by_comment_event e.
  - rewrite (built_accum _ timeAgo c_age_chunk); [apply fold_plus_eq_empty|].
    intros e o. by_comment_event e.
  - rewrite (built_accum _ storyTitle story_title_chunk); [apply fold_plus_eq_empty|].
    intros e o. by_comment_event e.
  - rewrite (built_last _ level level_write); [done|]. intros e o. by_comment_event e.
  - rewrite (built_last _ parent parent_write); [done|]. intros e o. by_comment_event e.
  - rewrite (built_last _ story story_write); [done|]. intros e o. by_comment_event e.
  - rewrite (built_last _ quality quality_write); [done|]. intros e o. by_comment_event e.
  - rewrite (built_kept _ deleted); [done|]. intros e o. by_comment_event e.
Qed.

(** ** Numbers read from text *)

Lemma exec_item_id_digits s ds :
  exec_item_id s = Some ds -> ds <> "" /\ all_digits ds = true.
Proof.
  induction s as [|c s IH]; [done|]. cbn [exec_item_id].
  destruct (strip_prefix "item?id=" (String c s)) as [rest|]; [|done].
  pose proof (span_digits_all_digits rest) as Hall.
  destruct (fst (span_digits rest)) as [|d ds'] eqn:Hsp; [done|].
  intros [= <-]. done.
Qed.

Lemma strip_prefix_app p s : strip_prefix p (p +:+ s) = Some s.
Proof.
  induction p as [|c p IH]; [by destruct s|].
  rewrite append_cons. simpl. by rewrite Ascii.eqb_refl.
Qed.

(** X13: [extractId] reads the id that follows the first [item?id=] of
    the reference as a number: a non-negative integer or the infinity, and
    [NaN] exactly when there is no such id.  On a reference that begins with [item?id=], some
    digits and then no digit, it is the Number value for these digits: the
    id itself up to [2^53], the nearest double beyond (the infinity from
    309 digits on).  Without a reference it is [NaN]. *)
Theorem extractId_is_id_or_NaN :
  (forall href, extractId href = NaN \/ is_count (extractId href)) /\
  (forall href, extractId href = NaN <-> exec_item_id (default "" href) = None) /\
  (forall ds rest,
     ds <> "" -> all_digits ds = true -> no_leading_digit rest = true ->
     extractId (Some ("item?id=" +:+ ds +:+ rest)) =
       to_double (inject_Z (digits_value 0 ds))) /\
  (forall ds rest,
     ds <> "" -> all_digits ds = true -> no_leading_digit rest = true ->
     digits_value 0 ds <= 2 ^ 53 ->
     extractId (Some ("item?id=" +:+ ds +:+ rest)) = of_Z (digits_value 0 ds)) /\
  extractId None = NaN.
Proof.
  assert (Hpos : forall s ds, exec_item_id s = Some ds -> is_count (Number ds)).
  { intros s ds Hex. destruct (exec_item_id_digits _ _ Hex) as [Hne Hds].
    rewrite (Number_digits ds Hne Hds). apply to_double_integer.
    by apply digits_value_nonneg. }
  assert (Hval : forall ds rest,
     ds <> "" -> all_digits ds = true -> no_leading_digit rest = true ->
     extractId (Some ("item?id=" +:+ ds +:+ rest)) =
       to_double (inject_Z (digits_value 0 ds))).
  { intros ds rest Hne Hds Hrest. unfold extractId. simpl default.
    assert (Hex : exec_item_id ("item?id=" +:+ ds +:+ rest) = Some ds).
    { change ("item?id=" +:+ ds +:+ rest)
        with (String "i" ("tem?id=" +:+ ds +:+ rest)).
      cbn [exec_item_id].
      change (String "i" ("tem?id=" +:+ ds +:+ rest))
        with ("item?id=" +:+ (ds +:+ rest)).
      rewrite strip_prefix_app, (span_digits_app ds rest Hds Hrest). cbn [fst].
      by destruct ds. }
    rewrite Hex. by apply Number_digits. }
  split; [|split; [|split; [exact Hval|split; [|done]]]].
  - intros href. unfold extractId.
    destruct (exec_item_id (default "" href)) as [ds|] eqn:Hex; [|by left].
    right. by apply (Hpos _ _ Hex).
  - intros href. unfold extractId.
    destruct (exec_item_id (default "" href)) as [ds|] eqn:Hex; [|done].
    split; [|done]. intros Hnan.
    destruct (Hpos _ _ Hex) as [Hinf|(q & _ & Hq)]; unfold of_Z in *; congruence.
  - intros ds rest Hne Hds Hrest Hle. rewrite (Hval ds rest Hne Hds Hrest).
    apply to_double_safe. pose proof (digits_value_nonneg ds 0 Hds). lia.
Qed.
(** ** What holds of every object of a pass *)

Section InvariantFacts.

Context {E : Type}.
Variable handler : E -> state -> option state.
Variable eff : E -> effect.
Variable emit : list item -> item -> item.
Variable P : item -> Prop.

Hypothesis handler_interp : forall e s, handler e s = interp (eff e) s.
Hypothesis eff_P : forall e,
  match eff e with
  | Start mk => forall prev, P (mk prev)
  | Field f | FieldThrow f => forall o, P o -> P (f o)
  | _ => True
  end.
Hypothesis emit_P : forall h c, P c -> P (emit h c).

Lemma produce1_P e s : Forall P (heap s) -> Forall P (heap (produce1 handler e s)).
Proof.
  intros HP. unfold produce1. destruct (failed s); [done|].
  rewrite handler_interp. pose proof (eff_P e) as He.
  destruct (eff e) as [mk|f| |v| |f]; simpl.
  - apply Forall_app. split; [|by apply Forall_singleton].
    unfold dispatch_if_defined. by destruct (current s).
  - unfold on_current. destruct (current s); [|done]. simpl.
    apply Forall_alter; [done|]. intros x _ Hx. by apply He.
  - unfold dispatch_if_defined. by destruct (current s).
  - unfold resolve. by destruct (moreLink s).
  - done.
  - unfold on_current. destruct (current s); [|done]. simpl.
    apply Forall_alter; [done|]. intros x _ Hx. by apply He.
Qed.

Lemma pull_P s :
  Forall P (heap s) ->
  Forall P (heap (fst (pull emit s))) /\
  forall r v, In (ORecord r v) (snd (pull emit s)) ->
              exists h c, P c /\ v = emit h c.
Proof.
  intros HP. unfold pull. destruct (queue s) as [|r q]; [by split|].
  cbn [fst snd]. split; [simpl; apply Forall_alter; [done|]; intros x _ Hx; by apply emit_P|].
  intros r' v. rewrite list_lookup_alter_eq.
  destruct (heap s !! r) as [c|] eqn:Hc; simpl; [|done].
  intros [[= _ <-]|[]]. exists (heap s), c. split; [|done].
  rewrite Forall_lookup in HP. by apply (HP r).
Qed.

Lemma run_P t : forall s,
  Forall P (heap s) ->
  Forall P (heap (fst (run handler emit t s))) /\
  forall r v, In (ORecord r v) (snd (run handler emit t s)) ->
              exists h c, P c /\ v = emit h c.
Proof.
  induction t as [|a t IH]; intros s HP; [by split|].
  cbn [run]. destruct a as [e|]; cbn [step].
  - destruct (IH _ (produce1_P e s HP)) as [H1 H2].
    destruct (run handler emit t (produce1 handler e s)) as [s2 o2]. by split.
  - destruct (pull_P s HP) as [H1 H2].
    destruct (pull emit s) as [s1 o1]. cbn [fst snd] in *.
    destruct (IH _ H1) as [H3 H4].
    destruct (run handler emit t s1) as [s2 o2]. cbn [fst snd] in *.
    split; [done|]. intros r v Hin. apply in_app_or in Hin as [Hin|Hin]; eauto.
Qed.

(** Every record that a generator yields is its loop body applied to an
    object that the handlers have kept in order. *)
Lemma generator_P t e s0 r v :
  Forall P (heap s0) ->
  In (ORecord r v) (fst (generator handler emit t e s0)) ->
  exists h c, P c /\ v = emit h c.
Proof.
  intros HP Hin.
  destruct (generator_records handler emit t e s0 r v Hin) as (n & Hn).
  by apply (proj2 (run_P (t ++ replicate n Pull) s0 HP) r v).
Qed.

End InvariantFacts.

Lemma holds_count_parseInt chunk :
  starts_with_digit chunk = true -> holds_count (Some (parseInt chunk)).
Proof. intros H. exists (parseInt chunk). split; [done|]. by apply parseInt_digit_led. Qed.

Lemma holds_count_zero : holds_count (Some (of_Z 0)).
Proof. exists (of_Z 0). split; [done|]. right. by exists 0. Qed.

Lemma listing_ok_effect unescape e :
  match stories_effect unescape e with
  | Start mk => forall prev, listing_ok (mk prev)
  | Field f | FieldThrow f => forall o, listing_ok o -> listing_ok (f o)
  | _ => True
  end.
Proof.
  destruct e; simpl; try done.
  - intros prev. unfold listing_ok. simpl.
    repeat split; try apply holds_count_zero; try by eexists. by left.
  - intros o (? & ? & ? & ? & ? & ? & ?). unfold listing_ok. simpl.
    by repeat split.
  - destruct (starts_with_digit chunk) eqn:Hd; [|done].
    intros o (? & ? & ? & ? & ? & ? & ?). unfold listing_ok. simpl.
    repeat split; try done. by apply holds_count_parseInt.
  - intros o (? & ? & ? & ? & ? & ? & ?). unfold listing_ok. simpl.
    by repeat split.
  - intros o (? & ? & ? & ? & ? & ? & ?). unfold listing_ok. simpl.
    by repeat split.
  - destruct (starts_with_digit chunk) eqn:Hd; [|done].
    intros o (? & ? & ? & ? & ? & ? & ?). unfold listing_ok. simpl.
    repeat split; try done. by apply holds_count_parseInt.
Qed.

Lemma classify_type post :
  type_ post = None \/ type_ post = Some "story" \/ type_ post = Some "job" ->
  type_ (classify post) = Some "story" \/ type_ (classify post) = Some "job".
Proof.
  unfold classify. intros [H|[H|H]]; rewrite H; simpl;
    destruct (truthy_opt (by_ post)); simpl; auto.
Qed.

Lemma classify_keeps post :
  score (classify post) = score post /\ descendants (classify post) = descendants post /\
  id_ (classify post) = id_ post /\ title (classify post) = title post /\
  by_ (classify post) = by_ post /\ timeAgo (classify post) = timeAgo post /\
  url (classify post) = url post.
Proof.
  unfold classify. simpl. by destruct (negb (truthy_opt (by_ post))).
Qed.

Lemma listing_ok_classify post : listing_ok post -> listing_ok (classify post).
Proof.
  intros (Hs & Hd & Ht & Hi & Hti & Hb & Ha). unfold listing_ok.
  destruct (classify_keeps post) as (-> & -> & -> & -> & -> & -> & _).
  repeat split; try done.
  destruct (classify_type post Ht) as [->| ->]; auto.
Qed.

(** X9: whatever the markup and whatever the moments at which the consumer
    asks, every listing that [storiesGenerator] yields has the type
    'story' or 'job', a score and a comment count that are non-negative
    integers or, for a text of 309 digits or more, the infinity (never
    [NaN], never negative, never missing), and an id, a title, an author
    and an age label that are set. *)
Theorem yielded_listing_is_well_formed (unescape : string -> string) t e r v :
  In (ORecord r v) (fst (storiesGenerator unescape t e)) ->
  (type_ v = Some "story" \/ type_ v = Some "job") /\
  holds_count (score v) /\ holds_count (descendants v) /\
  is_Some (id_ v) /\ is_Some (title v) /\ is_Some (by_ v) /\ is_Some (timeAgo v).
Proof.
  intros Hin.
  destruct (generator_P (stories_handler unescape) (stories_effect unescape)
              (fun _ => classify) listing_ok (stories_handler_interp unescape)
              (listing_ok_effect unescape) (fun _ => listing_ok_classify)
              t e init r v (Forall_nil_2 _) Hin) as (h & c & Hc & ->).
  destruct (listing_ok_classify c Hc) as (Hs & Hd & _ & Hrest).
  destruct Hc as (_ & _ & Ht & _).
  split; [by apply classify_type|]. by split; [|split].
Qed.

(** ** A write before the first record *)

Lemma no_records recs :
  forallb is_record recs = true -> record_refs recs = [] -> recs = [].
Proof. destruct recs as [|[r v|v|h] recs]; done. Qed.

Section AbortFacts.

Context {E : Type}.
Variable handler : E -> state -> option state.
Variable eff : E -> effect.
Variable g : item -> item.

Hypothesis handler_interp : forall e s, handler e s = interp (eff e) s.

Lemma produce_untouched pre : forall s,
  current s = None -> failed s = false ->
  Forall (fun e => touches (eff e) = false) pre ->
  current (produce handler pre s) = None /\
  failed (produce handler pre s) = false /\
  queue (produce handler pre s) = queue s.
Proof.
  induction pre as [|e pre IH]; intros s Hc Hf Hpre; [done|].
  apply Forall_cons in Hpre as [He Hpre]. rewrite produce_cons.
  assert (H1 : current (produce1 handler e s) = None /\
               failed (produce1 handler e s) = false /\
               queue (produce1 handler e s) = queue s).
  { unfold produce1. rewrite Hf, handler_interp.
    destruct (eff e) as [mk|f| |v| |f]; simpl in *; try done.
    - unfold dispatch_if_defined. by rewrite Hc.
    - unfold resolve. by destruct (moreLink s). }
  destruct H1 as (Hc1 & Hf1 & Hq1).
  destruct (IH _ Hc1 Hf1 Hpre) as (? & ? & ?). by rewrite <- Hq1.
Qed.

(** A handler that writes to the object under construction before any
    object has been started throws, and the pass is lost. *)
Lemma generator_aborts t e pre ev post f :
  events_of t = pre ++ ev :: post ->
  Forall (fun x => touches (eff x) = false) pre ->
  eff ev = Field f ->
  generator handler (fun _ => g) t e init = ([], Pending).
Proof.
  intros Hev Hpre Hf.
  destruct (generator_spec handler (fun _ => g) 0%nat
              (interp_ctl handler eff handler_interp)
              (interp_wf handler eff handler_interp 0%nat)
              t e init wf_init eq_refl) as (recs & Hrec & Href & ->).
  unfold sealed in Href. rewrite Hev in *. rewrite produce_app, produce_cons in *.
  destruct (produce_untouched pre init eq_refl eq_refl Hpre) as (Hc & Hfl & Hq).
  set (s1 := produce handler pre init) in *.
  assert (H1 : produce1 handler ev s1 = set_failed s1).
  { unfold produce1. rewrite Hfl, handler_interp, Hf. simpl.
    unfold on_current. by rewrite Hc. }
  rewrite H1 in *. rewrite (produce_failed_mono handler post) in * by done.
  unfold consume. simpl. simpl in Href. rewrite Hq in Href.
  by rewrite (no_records recs Hrec Href).
Qed.

End AbortFacts.

(** X10: a field handler that fires before the first row of the page (a
    score, an author, an age label, a title or a comment count in
    [storiesGenerator]; any field of a comment in [threadsGenerator])
    finds no object to write to and throws: whatever follows and whenever
    the consumer asks, the caller receives no record and no continuation,
    and its request stays pending. *)
Theorem write_before_first_record_aborts (unescape blockquotify : string -> string) :
  (forall t e pre ev post f,
     events_of t = pre ++ ev :: post ->
     Forall (fun x => touches (stories_effect unescape x) = false) pre ->
     stories_effect unescape ev = Field f ->
     storiesGenerator unescape t e = ([], Pending)) /\
  (forall t e pre ev post f,
     events_of t = pre ++ ev :: post ->
     Forall (fun x => touches (threads_effect unescape x) = false) pre ->
     threads_effect unescape ev = Field f ->
     threadsGenerator unescape blockquotify t e = ([], Pending)).
Proof.
  split; intros t e pre ev post f Hev Hpre Hf.
  - by apply (generator_aborts _ (stories_effect unescape) classify
                (stories_handler_interp unescape) t e pre ev post f).
  - by apply (generator_aborts _ (threads_effect unescape) (fixComment blockquotify)
                (threads_handler_interp unescape) t e pre ev post f).
Qed.

(** ** Blank text and trimming *)

Lemma trimStart_blank s : trimStart s = "" <-> all_ws s = true.
Proof.
  induction s as [|c s IH]; [done|]. simpl.
  destruct (is_ws c); simpl; [done|]. split; discriminate.
Qed.

Lemma trimEnd_blank s : trimEnd s = "" <-> all_ws s = true.
Proof.
  induction s as [|c s IH]; [done|]. simpl.
  destruct (trimEnd s) as [|d t] eqn:Ht.
  - destruct (is_ws c); simpl; [by rewrite <- IH|]. split; discriminate.
  - split; [discriminate|]. intros H. apply andb_true_iff in H as [_ H].
    apply IH in H. discriminate.
Qed.

Lemma all_ws_trimEnd s : all_ws (trimEnd s) = all_ws s.
Proof.
  induction s as [|c s IH]; [done|]. simpl.
  destruct (trimEnd s) as [|d t] eqn:Ht.
  - assert (Hs : all_ws s = true) by (by apply trimEnd_blank).
    rewrite Hs, andb_true_r. destruct (is_ws c) eqn:Hc; simpl; by rewrite ?Hc.
  - cbn [all_ws] in *. by rewrite IH.
Qed.

(** The trimmed text is empty exactly when the text is made of white
    space only. *)
Lemma trim_blank s : trim s = "" <-> all_ws s = true.
Proof. unfold trim. by rewrite trimStart_blank, all_ws_trimEnd. Qed.

Lemma truthy_trim s : truthy (trim s) = negb (all_ws s).
Proof.
  destruct (all_ws s) eqn:Hs.
  - apply trim_blank in Hs. by rewrite Hs.
  - destruct (trim s) eqn:Ht; [|done].
    apply trim_blank in Ht. congruence.
Qed.

Lemma trimStart_idem s : trimStart (trimStart s) = trimStart s.
Proof.
  induction s as [|c s IH]; [done|]. simpl.
  destruct (is_ws c) eqn:Hc; [done|]. simpl. by rewrite Hc.
Qed.

Lemma trimEnd_idem s : trimEnd (trimEnd s) = trimEnd s.
Proof.
  induction s as [|c s IH]; [done|]. simpl.
  destruct (trimEnd s) as [|d t] eqn:Ht.
  - destruct (is_ws c) eqn:Hc; [done|]. simpl. by rewrite Hc.
  - cbn [trimEnd] in *. by rewrite IH.
Qed.

Lemma trimEnd_trimStart s : trimEnd (trimStart s) = trimStart (trimEnd s).
Proof.
  induction s as [|c s IH]; [done|]. simpl.
  destruct (is_ws c) eqn:Hc.
  - rewrite IH. destruct (trimEnd s) as [|d t] eqn:Ht; [done|].
    cbn [trimStart]. by rewrite Hc.
  - cbn [trimEnd]. destruct (trimEnd s) as [|d t] eqn:Ht; simpl; by rewrite Hc.
Qed.

(** Trimming what is trimmed changes nothing. *)
Lemma trim_idem s : trim (trim s) = trim s.
Proof.
  unfold trim. by rewrite (trimEnd_trimStart (trimEnd s)), trimEnd_idem,
    trimStart_idem.
Qed.

(** ** [user] *)

Lemma user_handler_spec e u :
  if user_throws e then user_handler e u = None
  else exists u',
    user_handler e u = Some u' /\
    about u' = match about_piece e with
               | Some c => plus_eq (about u) c
               | None => about u
               end /\
    created u' = default (created u) (created_write e) /\
    karma u' = default (karma u) (karma_write e) /\
    user_id u' = user_id u /\ submitted u' = submitted u.
Proof.
  destruct e; cbn [user_throws user_handler about_piece created_write karma_write];
    try (eexists; split; [reflexivity|]; by repeat split).
  - eexists. split; [reflexivity|]. by destruct (starts_with_digit chunk).
  - destruct (canHaveContent el); cbn [negb]; [|done].
    eexists. split; [reflexivity|]. by repeat split.
Qed.

(** A pass over a profile page in which no handler throws. *)
Lemma user_pass_spec evs : forall u,
  existsb user_throws evs = false ->
  exists u',
    user_pass evs u = Some u' /\
    about u' = fold_left plus_eq (omap about_piece evs) (about u) /\
    created u' = default (created u) (list.last (omap created_write evs)) /\
    karma u' = default (karma u) (list.last (omap karma_write evs)) /\
    user_id u' = user_id u /\ submitted u' = submitted u.
Proof.
  induction evs as [|e evs IH]; intros u Hok.
  - exists u. by repeat split.
  - cbn [existsb] in Hok. apply orb_false_iff in Hok as [He Hok].
    pose proof (user_handler_spec e u) as Hh. rewrite He in Hh.
    destruct Hh as (u1 & Hu1 & Ha1 & Hc1 & Hk1 & Hi1 & Hs1).
    destruct (IH u1 Hok) as (u' & Hu' & Ha & Hc & Hk & Hi & Hs).
    exists u'. cbn [user_pass]. rewrite Hu1. split; [done|].
    rewrite Ha, Hc, Hk, Hi, Hs, Ha1, Hc1, Hk1, Hi1, Hs1. cbn [omap list_omap].
    split; [by destruct (about_piece e)|].
    split; [|split; [|done]].
    + destruct (created_write e) as [v|]; [|done]. cbn [default].
      rewrite last_cons. by destruct (list.last (omap created_write evs)).
    + destruct (karma_write e) as [v|]; [|done]. cbn [default].
      rewrite last_cons. by destruct (list.last (omap karma_write evs)).
Qed.

(** A pass in which a handler throws is lost. *)
Lemma user_pass_throws evs : forall u,
  existsb user_throws evs = true -> user_pass evs u = None.
Proof.
  induction evs as [|e evs IH]; intros u Hbad; [done|].
  cbn [existsb] in Hbad. cbn [user_pass].
  pose proof (user_handler_spec e u) as Hh.
  destruct (user_throws e); [by rewrite Hh|].
  destruct Hh as (u1 & -> & _). by apply IH.
Qed.

Lemma karma_write_count evs :
  match list.last (omap karma_write evs) with
  | Some k => holds_count k
  | None => True
  end.
Proof.
  destruct (list.last (omap karma_write evs)) as [k|] eqn:Hl; [|done].
  apply last_Some_elem_of, list_elem_of_omap in Hl.
  destruct Hl as (e & _ & He). destruct e; try done. simpl in He.
  destruct (starts_with_digit chunk) eqn:Hd; [|done].
  injection He as <-. by apply holds_count_parseInt.
Qed.

(** X14: what [user] returns for a profile page that is read to its end
    and on which every element inside the about cell has an end tag: the
    id it was asked for, an empty list of submissions, [created] from the
    last timestamp cell and [karma] from the last chunk that starts with a
    digit (a non-negative integer, or the infinity for 309 digits or more;
    both are missing when the page has none), and [about] put together
    from the text chunks, open tags and end tags of the cell in page order.
    A text that is not blank is trimmed and prefixed with '<p>'; a blank
    one is returned as it was accumulated.  When an element inside the
    about cell has no end tag, its handler throws and the function
    rejects; when the read fails it rejects too. *)
Theorem user_profile id evs :
  (existsb user_throws evs = false ->
   exists u,
     user id evs Completed = Some u /\
     user_id u = id /\ submitted u = [] /\
     created u = default None (list.last (omap created_write evs)) /\
     karma u = default None (list.last (omap karma_write evs)) /\
     (karma u = None \/ holds_count (karma u)) /\
     about u =
       Some (if all_ws (concat_chunks (omap about_piece evs))
             then concat_chunks (omap about_piece evs)
             else "<p>" +:+ trim (concat_chunks (omap about_piece evs))) /\
     trim (trim (concat_chunks (omap about_piece evs))) =
       trim (concat_chunks (omap about_piece evs))) /\
  (existsb user_throws evs = true -> user id evs Completed = None) /\
  user id evs Failed = None.
Proof.
  split; [|split; [|done]].
  - intros Hok.
    destruct (user_pass_spec evs (new_user id) Hok) as (u & Hu & Ha & Hc & Hk & Hi & Hs).
    cbn [about created karma user_id submitted new_user default] in *.
    rewrite fold_plus_eq_empty in Ha.
    exists (finish_about u). cbn [user]. rewrite Hu. split; [done|].
    assert (Hfin : forall {A} (f : AUser -> A),
               (forall v w, f (set_about v w) = f w) -> f (finish_about u) = f u).
    { intros A f Hf. unfold finish_about. destruct (about u) as [a|]; [|done].
      by destruct (truthy (trim a)). }
    rewrite (Hfin _ user_id), (Hfin _ submitted), (Hfin _ created), (Hfin _ karma)
      by done.
    split; [done|]. split; [done|]. split; [done|]. split; [done|]. split.
    + rewrite Hk. pose proof (karma_write_count evs) as Hcount.
      destruct (list.last (omap karma_write evs)) as [k|]; [by right|by left].
    + split; [|apply trim_idem].
      unfold finish_about. rewrite Ha, truthy_trim.
      by destruct (all_ws (concat_chunks (omap about_piece evs))).
  - intros Hbad. cbn [user]. by rewrite (user_pass_throws evs _ Hbad).
Qed.

(** ** Repair of blank text *)

(** X12: [fixComment] and the repair of the header in [commentsGenerator]
    take a text for blank exactly when all its characters are white space
    (the empty text included).  A blank comment is flagged: [deleted] is
    set and the text becomes ' [flagged] '; a blank header loses its [text]
    property.  Any other text is kept in full, white space at its ends
    included, and passed to [blockquotify] behind '<p>'. *)
Theorem blank_text_is_white_space (blockquotify : string -> string) :
  (forall c body,
     text c = Some body ->
     (all_ws body = true ->
        fixComment blockquotify c =
          set_text (Some " [flagged] ") (set_deleted (Some true) c)) /\
     (all_ws body = false ->
        fixComment blockquotify c =
          set_text (Some (blockquotify ("<p>" +:+ body))) c)) /\
  (forall post body,
     text post = Some body ->
     (all_ws body = true -> fix_header blockquotify post = set_text None post) /\
     (all_ws body = false ->
        fix_header blockquotify post =
          set_text (Some (blockquotify ("<p>" +:+ body))) post)).
Proof.
  split; intros c body Hb; unfold fixComment, fix_header;
    rewrite Hb, truthy_trim; split; intros ->; reflexivity.
Qed.

(** ** The continuation of a thread *)

(** X11: when the item page is read to its end and no handler throws,
    [commentsGenerator] always returns a header, also for a page without
    '.comment-tree'; the requests on [post.kids] end; and [post.moreLink]
    is fulfilled, never rejected and never left pending: with the
    unescaped [href] of the first next-page anchor, or with the empty
    string when the page has none. *)
Theorem thread_continuation_settles (unescape blockquotify : string -> string) t :
  no_throw (thread_handler unescape) (events_of t) thread_init ->
  (exists h kids,
     outputs (commentsGenerator unescape blockquotify t Completed) = OHeader h :: kids /\
     forallb is_record kids = true) /\
  last (commentsGenerator unescape blockquotify t Completed) = Returned /\
  more (commentsGenerator unescape blockquotify t Completed) =
    Some (Fulfilled (continuation (thread_anchor unescape) (events_of t))).
Proof.
  unfold no_throw. intros Hf.
  pose proof (commentsGenerator_spec unescape blockquotify t Completed) as Hspec.
  cbn zeta in Hspec.
  assert (Hwell : consume (produce (thread_handler unescape) (events_of t) thread_init)
                          Completed = true)
    by (unfold consume; by rewrite Hf).
  rewrite Hwell in Hspec. destruct Hspec as [Hlast [Hhead|[Hno _]]]; [|done].
  destruct Hhead as (h & kids & Hout & Hrec & _ & Hmore).
  split; [by exists h, kids|]. split; [done|].
  rewrite Hmore. f_equal. unfold race_moreLink, continuation.
  rewrite (produce_moreLink (thread_handler unescape) (thread_anchor unescape)
             (thread_handler_moreLink unescape) (events_of t) thread_init Hf).
  cbn [moreLink thread_init]. by destruct (head _).
Qed.

(** ** Item pages *)

Section DrainFacts.

Context {E : Type}.
Variable handler : E -> state -> option state.
Variable eff : E -> effect.
Variable g : item -> item.

Hypothesis handler_interp : forall e s, handler e s = interp (eff e) s.

(** From any moment of a pass on: what the consumer still receives, when
    it goes on to take everything, are the records not yet taken, each as
    the loop body makes it from the object that the producer alone
    leaves. *)
Lemma run_drain_outputs t s p taken rest :
  wf 0 s -> wf 0 p -> ctl s = ctl p -> queue p = taken ++ queue s ->
  agree s p taken ->
  undisturbed handler eff (events_of t) p ->
  NoDup (queue (produce handler (events_of t) p)) ->
  queue (produce handler (events_of t) p) = taken ++ rest ->
  snd (run handler (fun _ => g) t s)
    ++ snd (drain (fun _ => g) (fst (run handler (fun _ => g) t s)))
  = out_of g (heap (produce handler (events_of t) p)) rest.
Proof.
  intros Hwf Hwfp Hc Hq Hag Hun Hnd Hrest.
  set (n := length (queue (fst (run handler (fun _ => g) t s)))).
  assert (Hev : events_of (t ++ replicate n (@Pull E)) = events_of t)
    by (by rewrite events_of_app, events_of_pulls, app_nil_r).
  assert (Hrun : run handler (fun _ => g) (t ++ replicate n Pull) s =
                 (fst (drain (fun _ => g) (fst (run handler (fun _ => g) t s))),
                  snd (run handler (fun _ => g) t s)
                    ++ snd (drain (fun _ => g) (fst (run handler (fun _ => g) t s))))).
  { rewrite run_app, <- pulls_as_run. done. }
  pose proof (run_outputs handler eff g handler_interp (t ++ replicate n Pull)
                s p taken Hwf Hwfp Hc Hq Hag) as Hout.
  rewrite Hev in Hout. specialize (Hout Hun Hnd).
  destruct (run_fifo handler (fun _ => g) 0%nat
              (interp_ctl handler eff handler_interp)
              (interp_wf handler eff handler_interp 0%nat)
              (t ++ replicate n Pull) s p taken Hwf Hc Hq) as (_ & _ & Hfifo & _).
  rewrite Hev in Hfifo.
  destruct (run_fifo handler (fun _ => g) 0%nat
              (interp_ctl handler eff handler_interp)
              (interp_wf handler eff handler_interp 0%nat)
              t s p taken Hwf Hc Hq) as (Hwf1 & _).
  destruct (drain_fifo (fun _ => g) 0%nat _ Hwf1) as (_ & _ & Hempty & _).
  rewrite Hrun in Hout, Hfifo. cbn [fst snd] in Hout, Hfifo.
  rewrite Hempty, app_nil_r, Hrest in Hfifo. apply app_inv_head in Hfifo.
  by rewrite Hout, <- Hfifo.
Qed.

(** A consumer whose loop body reads the first object of the store only,
    while neither the handlers nor the consumer touch that object. *)
Lemma run_header_const (emit : list item -> item -> item) t : forall s,
  (forall h h' c, h !! 0%nat = h' !! 0%nat -> emit h c = emit h' c) ->
  (forall c, emit (heap s) c = g c) ->
  (1 <= length (heap s))%nat -> current s <> Some 0%nat -> ~ In 0%nat (queue s) ->
  run handler emit t s = run handler (fun _ => g) t s.
Proof.
  intros s Hemit. revert s.
  induction t as [|a t IH]; intros s Hg Hlen Hcur Hq; [done|].
  cbn [run]. destruct a as [e|]; cbn [step].
  - rewrite IH; [done| | | |].
    + intros c. rewrite <- Hg. apply Hemit.
      unfold produce1. destruct (failed s); [done|]. rewrite handler_interp.
      destruct (eff e) as [mk|f| |v| |f]; simpl; try done.
      * assert (Hh : heap (dispatch_if_defined s) = heap s)
          by (unfold dispatch_if_defined; by destruct (current s)).
        rewrite Hh. apply lookup_app_l. lia.
      * unfold on_current. destruct (current s) as [r|] eqn:Hr; [|done]. simpl.
        apply list_lookup_alter_ne. congruence.
      * unfold dispatch_if_defined. by destruct (current s).
      * unfold resolve. by destruct (moreLink s).
      * unfold on_current. destruct (current s) as [r|] eqn:Hr; [|done]. simpl.
        apply list_lookup_alter_ne. congruence.
    + unfold produce1. destruct (failed s); [done|]. rewrite handler_interp.
      destruct (eff e) as [mk|f| |v| |f]; simpl; try done.
      * rewrite length_app. simpl. lia.
      * unfold on_current. destruct (current s); simpl; [|done].
        by rewrite length_alter.
      * unfold dispatch_if_defined. by destruct (current s).
      * unfold resolve. by destruct (moreLink s).
      * unfold on_current. destruct (current s); simpl; [|done].
        by rewrite length_alter.
    + unfold produce1. destruct (failed s); [done|]. rewrite handler_interp.
      destruct (eff e) as [mk|f| |v| |f]; simpl; try done.
      * assert (Hh : heap (dispatch_if_defined s) = heap s)
          by (unfold dispatch_if_defined; by destruct (current s)).
        rewrite Hh. intros [= H0]. lia.
      * unfold on_current. destruct (current s) as [r|] eqn:Hr; simpl; congruence.
      * unfold dispatch_if_defined.
        destruct (current s) as [r|] eqn:Hr; simpl; congruence.
      * unfold resolve. by destruct (moreLink s).
      * unfold on_current. destruct (current s) as [r|] eqn:Hr; simpl; congruence.
    + unfold produce1. destruct (failed s); [done|]. rewrite handler_interp.
      destruct (eff e) as [mk|f| |v| |f]; simpl; try done.
      * unfold dispatch_if_defined.
        destruct (current s) as [r|] eqn:Hr; simpl; [|done].
        intros Hin. apply in_app_or in Hin as [Hin|[Hin|[]]]; [done|congruence].
      * unfold on_current. destruct (current s) as [r|] eqn:Hr; simpl; done.
      * unfold dispatch_if_defined.
        destruct (current s) as [r|] eqn:Hr; simpl; [|done].
        intros Hin. apply in_app_or in Hin as [Hin|[Hin|[]]]; [done|congruence].
      * unfold resolve. by destruct (moreLink s).
      * unfold on_current. destruct (current s) as [r|] eqn:Hr; simpl; done.
  - unfold pull. destruct (queue s) as [|r q] eqn:Hqs.
    + rewrite IH; [done|done|done|done|by rewrite Hqs].
    + assert (Hr : r <> 0%nat) by (intros ->; apply Hq; by left).
      assert (Halt : alter (emit (heap s)) r (heap s) = alter g r (heap s))
        by (apply list_alter_ext; [intros x _; apply Hg|done]).
      rewrite Halt. rewrite IH; [done| | | |]; simpl.
      * intros c. rewrite <- Hg. apply Hemit. by apply list_lookup_alter_ne.
      * by rewrite length_alter.
      * done.
      * intros Hin. apply Hq. by right.
Qed.

End DrainFacts.

Lemma events_split {E} (t : list (action E)) : forall l1 x l2,
  events_of t = l1 ++ x :: l2 ->
  exists t1 t2, t = t1 ++ Ev x :: t2 /\ events_of t1 = l1 /\ events_of t2 = l2.
Proof.
  induction t as [|a t IH]; intros l1 x l2 Hev.
  - by destruct l1.
  - destruct a as [e|].
    + rewrite events_of_Ev in Hev. destruct l1 as [|y l1].
      * injection Hev as -> Hev. by exists [], t.
      * injection Hev as -> Hev. destruct (IH _ _ _ Hev) as (t1 & t2 & -> & <- & <-).
        by exists (Ev y :: t1), t2.
    + rewrite events_of_Pull in Hev.
      destruct (IH _ _ _ Hev) as (t1 & t2 & -> & <- & <-).
      by exists (Pull :: t1), t2.
Qed.

Lemma events_map {A B} (f : A -> B) (t : list (action B)) : forall L,
  events_of t = map f L -> exists t', t = map (amap f) t' /\ events_of t' = L.
Proof.
  induction t as [|a t IH]; intros L Hev.
  - destruct L; [|done]. by exists [].
  - destruct a as [e|].
    + rewrite events_of_Ev in Hev. destruct L as [|x L]; [done|].
      injection Hev as -> Hev. destruct (IH _ Hev) as (t' & -> & <-).
      by exists (Ev x :: t').
    + rewrite events_of_Pull in Hev. destruct (IH _ Hev) as (t' & -> & <-).
      by exists (Pull :: t').
Qed.

Lemma first_pull {E} (t : list (action E)) :
  exists E1 rest, t = map Ev E1 ++ rest /\ (rest = [] \/ exists R, rest = Pull :: R).
Proof.
  induction t as [|a t IH].
  - exists [], []. by split; [|left].
  - destruct a as [e|].
    + destruct IH as (E1 & rest & -> & Hrest). by exists (e :: E1), rest.
    + exists [], (Pull :: t). split; [done|]. right. by exists t.
Qed.

Lemma amap_events {A B} (f : A -> B) (l : list A) :
  map (amap f) (map Ev l) = map Ev (map f l).
Proof. induction l as [|x l IH]; [done|]. simpl. by rewrite IH. Qed.

Lemma wf_weaken base s : wf base s -> wf 0 s.
Proof. intros (_ & ? & ?). split; [lia|done]. Qed.

Section ItemFacts.

Variable unescape : string -> string.
Variable blockquotify : string -> string.

Lemma in_thread_handler e s :
  thread_handler unescape (in_thread e) s = threads_handler unescape e s.
Proof. by destruct e. Qed.

Lemma produce_in_thread evs : forall s,
  produce (thread_handler unescape) (map in_thread evs) s =
    produce (threads_handler unescape) evs s.
Proof.
  induction evs as [|e evs IH]; intros s; [done|].
  cbn [map]. rewrite !produce_cons, IH. unfold produce1.
  by rewrite in_thread_handler.
Qed.

(** Once the function has returned, the requests on [post.kids] are pulls
    of a consumer whose loop body is the mapped function. *)
Lemma thread_run_returned t : forall s,
  thread_run unescape blockquotify (map (amap in_thread) t) (s, true) =
    ((fst (run (threads_handler unescape) (emit_kid blockquotify) t s), true),
     snd (run (threads_handler unescape) (emit_kid blockquotify) t s)).
Proof.
  induction t as [|a t IH]; intros s; [done|].
  cbn [map thread_run run]. destruct a as [e|]; cbn [amap thread_step step fst snd].
  - assert (H1 : produce1 (thread_handler unescape) (in_thread e) s =
                 produce1 (threads_handler unescape) e s)
      by (unfold produce1; by rewrite in_thread_handler).
    rewrite H1, IH.
    by destruct (run (threads_handler unescape) (emit_kid blockquotify) t _).
  - unfold thread_pull, aMap_next.
    destruct (pull (emit_kid blockquotify) s) as [s1 o1]. rewrite IH.
    by destruct (run (threads_handler unescape) (emit_kid blockquotify) t s1).
Qed.

Lemma thread_pulls_returned n : forall s,
  thread_pulls blockquotify n (s, true) =
    ((fst (pulls (emit_kid blockquotify) n s), true),
     snd (pulls (emit_kid blockquotify) n s)).
Proof.
  induction n as [|n IH]; intros s; [done|].
  cbn [thread_pulls pulls]. unfold thread_pull, aMap_next.
  destruct (pull (emit_kid blockquotify) s) as [s1 o1]. rewrite IH.
  by destruct (pulls (emit_kid blockquotify) n s1).
Qed.

Lemma set_heap_same s : set_heap (heap s) s = s.
Proof. by destruct s. Qed.

Lemma header_produce1 e s o :
  is_header_event e = true -> heap s = [o] -> failed s = false ->
  produce1 (thread_handler unescape) e s = set_heap [header_effect unescape e o] s.
Proof.
  intros He Hh Hf. unfold produce1. rewrite Hf.
  destruct e; try done; simpl in He |- *;
    unfold set_if_number, on_post, on_object, onEndTag;
    try destruct (starts_with_digit chunk); try rewrite He; rewrite ?Hh; try done;
    by rewrite <- Hh, set_heap_same.
Qed.

(** While the header is being read nothing is dispatched, and a request
    of the consumer stays pending. *)
Lemma header_run t : forall o,
  forallb is_header_event (events_of t) = true ->
  thread_run unescape blockquotify t (set_heap [o] thread_init, false) =
    ((set_heap [fold_left (fun post e => header_effect unescape e post)
                          (events_of t) o] thread_init, false), []).
Proof.
  induction t as [|a t IH]; intros o Hhd; [done|].
  cbn [thread_run]. destruct a as [e|]; cbn [thread_step fst snd].
  - rewrite events_of_Ev in Hhd |- *. cbn [forallb] in Hhd.
    apply andb_true_iff in Hhd as [He Hhd].
    rewrite (header_produce1 e (set_heap [o] thread_init) o He eq_refl eq_refl).
    change (set_heap [header_effect unescape e o] (set_heap [o] thread_init))
      with (set_heap [header_effect unescape e o] thread_init).
    by rewrite (IH _ Hhd).
  - rewrite events_of_Pull in Hhd |- *. cbn [thread_pull set_heap queue thread_init].
    by rewrite (IH _ Hhd).
Qed.

Lemma threads_current_pos evs : forall s,
  (1 <= length (heap s))%nat -> current s <> Some 0%nat ->
  (1 <= length (heap (produce (threads_handler unescape) evs s)))%nat /\
  current (produce (threads_handler unescape) evs s) <> Some 0%nat.
Proof.
  induction evs as [|e evs IH]; intros s Hlen Hcur; [done|].
  rewrite produce_cons. apply IH.
  - unfold produce1. destruct (failed s); [done|]. rewrite threads_handler_interp.
    destruct (threads_effect unescape e) as [mk|f| |v| |f]; simpl; try done.
    + rewrite length_app. simpl. lia.
    + unfold on_current. destruct (current s); simpl; [|done].
      by rewrite length_alter.
    + unfold dispatch_if_defined. by destruct (current s).
    + unfold resolve. by destruct (moreLink s).
    + unfold on_current. destruct (current s); simpl; [|done].
      by rewrite length_alter.
  - unfold produce1. destruct (failed s); [done|]. rewrite threads_handler_interp.
    destruct (threads_effect unescape e) as [mk|f| |v| |f]; simpl; try done.
    + assert (Hh : heap (dispatch_if_defined s) = heap s)
        by (unfold dispatch_if_defined; by destruct (current s)).
      rewrite Hh. intros [= H0]. lia.
    + unfold on_current. destruct (current s) as [r|] eqn:Hr; simpl; congruence.
    + unfold dispatch_if_defined.
      destruct (current s) as [r|] eqn:Hr; simpl; congruence.
    + unfold resolve. by destruct (moreLink s).
    + unfold on_current. destruct (current s) as [r|] eqn:Hr; simpl; congruence.
Qed.

(** The comments of an item page, from the moment the header is taken. *)
Lemma kids_outputs R s1 q1 H L :
  wf 1 s1 -> heap s1 !! 0%nat = Some H -> queue s1 = 0%nat :: q1 ->
  current s1 <> Some 0%nat ->
  undisturbed (threads_handler unescape) (threads_effect unescape) (events_of R) s1 ->
  heap (produce (threads_handler unescape) (events_of R) s1) = [H] ++ L ->
  queue (produce (threads_handler unescape) (events_of R) s1)
    = 0%nat :: seq 1 (length L) ->
  heap (on_object header_ref (fix_header blockquotify) (set_queue q1 s1)) !! header_ref
    = Some (fix_header blockquotify H) /\
  snd (run (threads_handler unescape) (emit_kid blockquotify) R
         (on_object header_ref (fix_header blockquotify) (set_queue q1 s1)))
    ++ snd (drain (emit_kid blockquotify)
              (fst (run (threads_handler unescape) (emit_kid blockquotify) R
                      (on_object header_ref (fix_header blockquotify)
                         (set_queue q1 s1)))))
  = numbered (kid blockquotify (id_ H)) 1 L.
Proof.
  intros Hwf HH Hq1 Hcur Hun Hheap Hqueue.
  set (s1' := on_object header_ref (fix_header blockquotify) (set_queue q1 s1)).
  set (g := kid blockquotify (id_ H)).
  assert (Hhd : heap s1' !! header_ref = Some (fix_header blockquotify H)).
  { unfold s1', on_object, header_ref. simpl.
    by rewrite list_lookup_alter_eq, HH. }
  split; [done|].
  assert (Hwf' : wf 1 s1').
  { destruct Hwf as (Hb & Hc & Hall). unfold wf, s1'. simpl.
    rewrite length_alter. split; [done|]. split; [done|].
    rewrite Hq1 in Hall. by apply Forall_cons in Hall as [_ Hall]. }
  assert (Hno0 : ~ In 0%nat q1).
  { destruct (produce_queue_prefix (threads_handler unescape)
                (interp_ctl (threads_handler unescape) _ (threads_handler_interp unescape))
                (events_of R) s1) as (d & Hd).
    rewrite Hqueue, Hq1 in Hd. injection Hd as Hd. intros Hin.
    assert (Hin' : In 0%nat (seq 1 (length L)))
      by (rewrite Hd; apply in_or_app; by left).
    apply in_seq in Hin'. lia. }
  assert (Hemit : forall h h' c, h !! 0%nat = h' !! 0%nat ->
                    emit_kid blockquotify h c = emit_kid blockquotify h' c).
  { intros h h' c Heq. unfold emit_kid, header_ref. by rewrite Heq. }
  assert (Hg : forall c, emit_kid blockquotify (heap s1') c = g c).
  { intros c. unfold emit_kid, g, kid. rewrite Hhd. simpl.
    by rewrite id_fix_header. }
  assert (Hlen : (1 <= length (heap s1'))%nat) by (by destruct Hwf').
  assert (HR : run (threads_handler unescape) (emit_kid blockquotify) R s1' =
               run (threads_handler unescape) (fun _ => g) R s1').
  { apply (run_header_const (threads_handler unescape) _ g (threads_handler_interp unescape));
      try done. }
  set (n := length (queue (fst (run (threads_handler unescape) (fun _ => g) R s1')))).
  assert (HT : run (threads_handler unescape) (emit_kid blockquotify) (R ++ replicate n Pull) s1' =
               run (threads_handler unescape) (fun _ => g) (R ++ replicate n Pull) s1').
  { apply (run_header_const (threads_handler unescape) _ g (threads_handler_interp unescape));
      try done. }
  rewrite !run_app, HR in HT. injection HT as _ HT. apply app_inv_head in HT.
  rewrite HR. unfold drain. fold n.
  rewrite (pulls_as_run (threads_handler unescape) (emit_kid blockquotify)), HT, <- pulls_as_run.
  change (pulls (fun _ => g) n (fst (run (threads_handler unescape) (fun _ => g) R s1')))
    with (drain (fun _ => g) (fst (run (threads_handler unescape) (fun _ => g) R s1'))).
  rewrite (run_drain_outputs (threads_handler unescape) (threads_effect unescape) g
             (threads_handler_interp unescape) R s1' s1 [0%nat] (seq 1 (length L))).
  - rewrite Hheap.
    apply (out_of_numbered g L [H]).
  - by apply (wf_weaken 1%nat).
  - by apply (wf_weaken 1%nat).
  - unfold ctl, s1'. simpl. by rewrite length_alter.
  - by rewrite Hq1.
  - intros r Hr. unfold s1'. simpl. apply list_lookup_alter_ne.
    unfold header_ref. intros <-. apply Hr. by left.
  - done.
  - rewrite Hqueue.
    change (0%nat :: seq 1 (length L)) with (seq 0 (S (length L))). apply NoDup_seq.
  - done.
Qed.

Lemma events_of_evs {E} (l : list E) : events_of (map Ev l) = l.
Proof. induction l as [|x l IH]; [done|]. cbn [map]. by rewrite events_of_Ev, IH. Qed.

Lemma header_produce hdr o :
  forallb is_header_event hdr = true ->
  produce (thread_handler unescape) hdr (set_heap [o] thread_init) =
    set_heap [fold_left (fun post e => header_effect unescape e post) hdr o]
             thread_init.
Proof.
  intros Hhd.
  pose proof (thread_run_events unescape blockquotify hdr []
                (set_heap [o] thread_init) false) as H1.
  rewrite app_nil_r, header_run in H1 by (by rewrite events_of_evs).
  rewrite events_of_evs in H1. cbn [thread_run] in H1. by injection H1 as <-.
Qed.

(** The header is taken: the first event is handed to the function, which
    repairs the header and returns it. *)
Lemma take_header s q H :
  queue s = 0%nat :: q -> heap s !! 0%nat = Some H ->
  thread_pull blockquotify (s, false) =
    ((on_object header_ref (fix_header blockquotify) (set_queue q s), true),
     [OHeader (fix_header blockquotify H)]).
Proof.
  intros Hq HH. unfold thread_pull. rewrite Hq. unfold header_step.
  assert (Hhd : heap (on_object header_ref (fix_header blockquotify) (set_queue q s))
                  !! header_ref = Some (fix_header blockquotify H)).
  { unfold on_object, header_ref. simpl. by rewrite list_lookup_alter_eq, HH. }
  by rewrite Hhd.
Qed.

(** The comments part of an item page, with whatever the consumer asks
    for during it and afterwards. *)
Lemma thread_comments t2 s0 H blocks :
  heap s0 = [H] -> current s0 = None -> queue s0 = [0%nat] -> failed s0 = false ->
  events_of t2 = threads_page blocks -> Forall inside_comment blocks ->
  exists s1 s2 o1 o2 b1,
    thread_run unescape blockquotify (map (amap in_thread) t2) (s0, false)
      = ((s1, b1), o1) /\
    thread_pulls blockquotify (length (queue s1)) (s1, b1) = ((s2, true), o2) /\
    o1 ++ o2 = OHeader (fix_header blockquotify H)
               :: numbered (kid blockquotify (id_ H)) 1
                    (map (built_comment unescape) blocks).
Proof.
  intros Hh0 Hc0 Hq0 Hf0 Hev Hin.
  assert (Hwf0 : wf 1 s0).
  { unfold wf. rewrite Hh0, Hc0, Hq0. simpl. split; [lia|]. split; [done|].
    apply Forall_singleton. lia. }
  destruct (produce_page_from (threads_handler unescape) (threads_effect unescape)
              (threads_handler_interp unescape) _ (th_scraped c_yclinks) s0
              (wf_weaken 1%nat s0 Hwf0) Hf0 Hc0
              (threads_blocks_ok unescape blocks Hin) eq_refl)
    as (Hf & Hh & Hq & Hlen & Hun).
  fold (threads_page blocks) in Hf, Hh, Hq, Hun.
  rewrite threads_build_all in Hh, Hlen. rewrite Hh0 in Hh. rewrite Hq0, Hh0 in Hq.
  rewrite length_map in Hq. rewrite <- (length_map (built_comment unescape)) in Hq.
  cbn [length app] in Hq.
  destruct (first_pull t2) as (E1 & rest & -> & Hrest).
  rewrite events_of_app, events_of_evs in Hev. rewrite <- Hev in Hf, Hh, Hq, Hun.
  rewrite produce_app in Hf, Hh, Hq.
  apply undisturbed_app in Hun as [Hun1 Hun2].
  set (s1 := produce (threads_handler unescape) E1 s0) in *.
  assert (Hwf1 : wf 1 s1).
  { apply (produce_wf (threads_handler unescape) 1%nat); [|done].
    apply (interp_wf _ _ (threads_handler_interp unescape)). }
  assert (HH : heap s1 !! 0%nat = Some H).
  { unfold s1.
    rewrite (produce_stable (threads_handler unescape) (threads_effect unescape)
               (threads_handler_interp unescape) E1 s0 0%nat
               (wf_weaken 1%nat s0 Hwf0) Hun1); [by rewrite Hh0|].
    rewrite Hq0. by left. }
  destruct (produce_queue_prefix (threads_handler unescape)
              (interp_ctl _ _ (threads_handler_interp unescape)) E1 s0) as (q1 & Hq1).
  fold s1 in Hq1. rewrite Hq0 in Hq1. cbn [app] in Hq1.
  assert (Hcur : current s1 <> Some 0%nat).
  { apply threads_current_pos; [rewrite Hh0; simpl; lia|by rewrite Hc0]. }
  rewrite map_app, amap_events, thread_run_events, produce_in_thread. fold s1.
  destruct Hrest as [->|(R & ->)].
  - destruct (kids_outputs [] s1 q1 H _ Hwf1 HH Hq1 Hcur Hun2 Hh Hq) as [_ Hk].
    cbn [run fst snd app] in Hk.
    eexists s1, _, [], _, false. split; [done|].
    rewrite Hq1. cbn [length thread_pulls].
    rewrite (take_header s1 q1 H Hq1 HH), thread_pulls_returned.
    split; [reflexivity|]. cbn [app]. f_equal. exact Hk.
  - destruct (kids_outputs R s1 q1 H _ Hwf1 HH Hq1 Hcur Hun2 Hh Hq) as [_ Hk].
    cbn [map amap thread_run thread_step].
    rewrite (take_header s1 q1 H Hq1 HH), thread_run_returned.
    eexists _, _, _, _, true. split; [reflexivity|].
    rewrite thread_pulls_returned. split; [reflexivity|].
    cbn [app]. f_equal. exact Hk.
Qed.

(** X3: on an item page (the events of the header, then '.comment-tree',
    then comment rows with the events inside each comment, then the
    footer; every element inside the text of the header or of a comment
    has its end tag), whatever the moments at which the consumer asks,
    [commentsGenerator] returns the header as the events before
    '.comment-tree' build it, with its text repaired; [post.kids] then
    yields each comment once, in page order, as its own events build it,
    with [story] set to the id of the header and repaired by [fixComment];
    the requests end if the stream is read to its end; and [post.moreLink]
    is fulfilled with the first next-page anchor, and without one with
    the empty string, or rejected if the read fails. *)
Theorem item_page_output t e hdr blocks :
  events_of t = item_page hdr blocks ->
  forallb is_header_event hdr = true ->
  Forall inside_comment blocks ->
  outputs (commentsGenerator unescape blockquotify t e) =
    OHeader (fix_header blockquotify (built_header unescape hdr))
    :: numbered (kid blockquotify (id_ (built_header unescape hdr))) 1
         (map (built_comment unescape) blocks) /\
  last (commentsGenerator unescape blockquotify t e) =
    match e with Completed => Returned | Failed => Pending end /\
  more (commentsGenerator unescape blockquotify t e) =
    Some (match head (omap (thread_anchor unescape) (item_page hdr blocks)) with
          | Some v => Fulfilled v
          | None => match e with Completed => Fulfilled "" | Failed => Rejected end
          end).
Proof.
  intros Hev Hhd Hin.
  set (H := built_header unescape hdr).
  set (s0 := dispatchEvent header_ref (set_heap [H] thread_init)).
  assert (Hp : produce (thread_handler unescape) (events_of t) thread_init =
               produce (threads_handler unescape) (threads_page blocks) s0).
  { rewrite Hev. unfold item_page. rewrite produce_app, produce_cons.
    change thread_init with (set_heap [new_header] thread_init) at 1.
    rewrite (header_produce hdr new_header Hhd), produce_in_thread. done. }
  assert (Hwf0 : wf 0 s0).
  { unfold wf, s0, header_ref. simpl. split; [lia|]. split; [done|].
    apply Forall_singleton. lia. }
  destruct (produce_page_from (threads_handler unescape) (threads_effect unescape)
              (threads_handler_interp unescape) _ (th_scraped c_yclinks) s0
              Hwf0 eq_refl eq_refl (threads_blocks_ok unescape blocks Hin) eq_refl)
    as (Hf & _).
  fold (threads_page blocks) in Hf. rewrite <- Hp in Hf.
  assert (Hout : outputs (commentsGenerator unescape blockquotify t e) =
                 OHeader (fix_header blockquotify H)
                 :: numbered (kid blockquotify (id_ H)) 1
                      (map (built_comment unescape) blocks)).
  { unfold item_page in Hev.
    destruct (events_split t hdr comment_tree _ Hev) as (t1 & t2 & Ht & Ht1 & Ht2).
    destruct (events_map in_thread t2 _ Ht2) as (t2' & Ht2' & Hev2).
    destruct (thread_comments t2' s0 H blocks eq_refl eq_refl eq_refl eq_refl Hev2 Hin)
      as (s1 & s2 & o1 & o2 & b1 & Hrun & Hpulls & Ho).
    assert (Hrun' : thread_run unescape blockquotify t (thread_init, false)
                    = ((s1, b1), o1)).
    { rewrite Ht, thread_run_app.
      change thread_init with (set_heap [new_header] thread_init).
      rewrite (header_run t1 new_header) by (by rewrite Ht1).
      rewrite Ht1. cbn [fst snd app thread_run thread_step].
      fold (built_header unescape hdr). fold H.
      change (produce1 (thread_handler unescape) comment_tree
                (set_heap [H] thread_init)) with s0.
      by rewrite Ht2', Hrun. }
    unfold commentsGenerator. rewrite Hrun', Hpulls. cbn [outputs]. exact Ho. }
  split; [exact Hout|].
  pose proof (commentsGenerator_spec unescape blockquotify t e) as Hspec.
  cbn zeta in Hspec.
  assert (Hwell : consume (produce (thread_handler unescape) (events_of t) thread_init) e
                  = match e with Completed => true | Failed => false end)
    by (unfold consume; by rewrite Hf).
  rewrite Hwell in Hspec. destruct Hspec as [Hlast [Hhead|(_ & _ & Hnone & _)]];
    [|by rewrite Hout in Hnone].
  split; [rewrite Hlast; by destruct e|].
  destruct Hhead as (h & kids & _ & _ & _ & Hmore). rewrite Hmore. f_equal.
  unfold race_moreLink.
  rewrite (produce_moreLink (thread_handler unescape) (thread_anchor unescape)
             (thread_handler_moreLink unescape) (events_of t) thread_init Hf).
  change (moreLink thread_init) with (@None string). cbn match. rewrite Hev.
  destruct (head _); [done|]. by destruct e.
Qed.

End ItemFacts.

(** X7: what the handlers of [commentsGenerator] on '.fatitem' make of
    the events of the header: title, author, age label and story title are
    the concatenation of their chunks (the author and the age label of a
    story and of a comment feed the same property); the text is the markup
    of the text cell or of the comment body put together again; id, link,
    parent, story, type and quality are those of the last element that
    sets them and absent when there is none (the link is unescaped, and
    kept when empty); score and comment count are [parseInt] of the last
    chunk that starts with a digit, and 0 without one. *)
Theorem header_fields (unescape : string -> string) hdr :
  id_ (built_header unescape hdr) = default None (list.last (omap h_id_write hdr)) /\
  type_ (built_header unescape hdr) = default None (list.last (omap h_type_write hdr)) /\
  title (built_header unescape hdr) = Some (concat_chunks (omap h_title_chunk hdr)) /\
  url (built_header unescape hdr) =
    default None (list.last (omap (h_url_write unescape) hdr)) /\
  score (built_header unescape hdr) =
    default (Some (of_Z 0)) (list.last (omap h_score_write hdr)) /\
  by_ (built_header unescape hdr) = Some (concat_chunks (omap h_author_chunk hdr)) /\
  timeAgo (built_header unescape hdr) = Some (concat_chunks (omap h_age_chunk hdr)) /\
  descendants (built_header unescape hdr) =
    default (Some (of_Z 0)) (list.last (omap h_descendants_write hdr)) /\
  text (built_header unescape hdr) = Some (concat_chunks (omap h_body_piece hdr)) /\
  storyTitle (built_header unescape hdr) =
    Some (concat_chunks (omap h_story_title_chunk hdr)) /\
  parent (built_header unescape hdr) =
    default None (list.last (omap h_parent_write hdr)) /\
  story (built_header unescape hdr) = default None (list.last (omap h_story_write hdr)) /\
  quality (built_header unescape hdr) =
    default None (list.last (omap h_quality_write hdr)).
Proof.
  change (built_header unescape hdr)
    with (built (fun e => Field (header_effect unescape e)) new_header hdr).
  split; [|split; [|split; [|split; [|split; [|split; [|split;
    [|split; [|split; [|split; [|split; [|split]]]]]]]]]]].
  - rewrite (built_last _ id_ h_id_write); [done|]. intros e o. by_event e.
  - rewrite (built_last _ type_ h_type_write); [done|]. intros e o. by_event e.
  - rewrite (built_accum _ title h_title_chunk); [apply fold_plus_eq_empty|].
    intros e o. by_event e.
  - rewrite (built_last _ url (h_url_write unescape)); [done|]. intros e o. by_event e.
  - rewrite (built_last _ score h_score_write); [done|]. intros e o. by_event e.
  - rewrite (built_accum _ by_ h_author_chunk); [apply fold_plus_eq_empty|].
    intros e o. by_event e.
  - rewrite (built_accum _ timeAgo h_age_chunk); [apply fold_plus_eq_empty|].
    intros e o. by_event e.
  - rewrite (built_last _ descendants h_descendants_write); [done|].
    intros e o. by_event e.
  - rewrite (built_accum _ text h_body_piece); [apply fold_plus_eq_empty|].
    intros e o. by_event e.
  - rewrite (built_accum _ storyTitle h_story_title_chunk); [apply fold_plus_eq_empty|].
    intros e o. by_event e.
  - rewrite (built_last _ parent h_parent_write); [done|]. intros e o. by_event e.
  - rewrite (built_last _ story h_story_write); [done|]. intros e o. by_event e.
  - rewrite (built_last _ quality h_quality_write); [done|]. intros e o. by_event e.
Qed.

(** ** Counts *)

Lemma trimStart_ws_app ws s : all_ws ws = true -> trimStart (ws +:+ s) = trimStart s.
Proof.
  induction ws as [|c ws IH]; [done|]. intros H. simpl in H.
  apply andb_true_iff in H as [Hc Hws]. rewrite append_cons. cbn [trimStart].
  rewrite Hc. by apply IH.
Qed.

Lemma parseInt_count ws ds rest :
  all_ws ws = true -> ds <> "" -> all_digits ds = true ->
  no_leading_digit rest = true ->
  starts_with_digit (ws +:+ ds +:+ rest) = true /\
  parseInt (ws +:+ ds +:+ rest) = to_double (inject_Z (digits_value 0 ds)).
Proof.
  intros Hws Hne Hds Hrest. unfold starts_with_digit, parseInt.
  rewrite (trimStart_ws_app ws _ Hws).
  destruct ds as [|c ds]; [done|]. rewrite append_cons.
  pose proof Hds as Hds'. simpl in Hds'. apply andb_true_iff in Hds' as [Hc Hds'].
  cbn [trimStart]. rewrite (digit_is_no_space c Hc). split; [done|].
  rewrite (digit_is_no_sign c _ Hc). rewrite <- append_cons.
  rewrite (span_digits_app (String c ds) rest Hds Hrest). cbn [fst].
  by rewrite Z.mul_1_l.
Qed.

(** X8: a text chunk made of white space, then digits, then something
    that does not go on with a digit ('123 points', ' 45 comments') is
    read as the Number value for these digits, by each of the handlers
    that read a count: score and comment count of a listing and of a
    header, karma of a user.  That value is a non-negative integer or the
    infinity: the value of the digits up to [2^53], the nearest double
    beyond ('9007199254740993 points' gives 9007199254740992).  A chunk
    whose first character after white space is not a digit ('discuss',
    '-5 points') is ignored. *)
Theorem count_chunk_value ws ds rest :
  all_ws ws = true -> ds <> "" -> all_digits ds = true ->
  no_leading_digit rest = true ->
  score_write (score_text (ws +:+ ds +:+ rest))
    = Some (Some (to_double (inject_Z (digits_value 0 ds)))) /\
  descendants_write (itemlink_text (ws +:+ ds +:+ rest))
    = Some (Some (to_double (inject_Z (digits_value 0 ds)))) /\
  h_score_write (fat_score_text (ws +:+ ds +:+ rest))
    = Some (Some (to_double (inject_Z (digits_value 0 ds)))) /\
  h_descendants_write (fat_itemlink_text (ws +:+ ds +:+ rest))
    = Some (Some (to_double (inject_Z (digits_value 0 ds)))) /\
  karma_write (u_karma_text (ws +:+ ds +:+ rest))
    = Some (Some (to_double (inject_Z (digits_value 0 ds)))) /\
  is_count (to_double (inject_Z (digits_value 0 ds))) /\
  (digits_value 0 ds <= 2 ^ 53 ->
     to_double (inject_Z (digits_value 0 ds)) = of_Z (digits_value 0 ds)) /\
  score_write (score_text "9007199254740993 points")
    = Some (Some (of_Z 9007199254740992)) /\
  (forall chunk,
     no_leading_digit (trimStart chunk) = true ->
     score_write (score_text chunk) = None /\
     descendants_write (itemlink_text chunk) = None /\
     h_score_write (fat_score_text chunk) = None /\
     h_descendants_write (fat_itemlink_text chunk) = None /\
     karma_write (u_karma_text chunk) = None).
Proof.
  intros Hws Hne Hds Hrest.
  destruct (parseInt_count ws ds rest Hws Hne Hds Hrest) as [Hd Hv].
  pose proof (digits_value_nonneg ds 0 Hds) as Hpos.
  unfold score_write, descendants_write, h_score_write, h_descendants_write,
    karma_write.
  rewrite Hd, Hv. repeat (split; [done|]).
  split; [apply to_double_integer; lia|].
  split; [intros Hle; apply to_double_safe; lia|].
  split; [by vm_compute|].
  intros chunk Hno.
  assert (Hc : starts_with_digit chunk = false).
  { unfold starts_with_digit. destruct (trimStart chunk); [done|].
    simpl in Hno. by apply negb_true_iff in Hno. }
  by rewrite Hc.
Qed.
(** * Instances of the further properties *)

(** X1, on the sample page: its two listings, then the continuation. *)
Lemma listing_page_output_witness :
  events_of sample_listing = listing_page sample_blocks /\
  Forall inside_listing sample_blocks /\
  storiesGenerator plain sample_listing Completed =
    (numbered classify 0 (map (built_post plain) sample_blocks)
       ++ [OMore (continuation (stories_anchor plain) (listing_page sample_blocks))],
     Returned).
Proof.
  split; [reflexivity|].
  assert (Hin : Forall inside_listing sample_blocks) by (repeat constructor).
  split; [exact Hin|].
  exact (listing_page_output plain sample_listing Completed sample_blocks eq_refl Hin).
Defined.

(** X2, on the sample threads page: its two comments, then the
    continuation. *)
Lemma threads_page_output_witness :
  events_of sample_threads = threads_page sample_comment_blocks /\
  Forall inside_comment sample_comment_blocks /\
  threadsGenerator plain plain sample_threads Completed =
    (numbered (fixComment plain) 0 (map (built_comment plain) sample_comment_blocks)
       ++ [OMore (continuation (threads_anchor plain)
                    (threads_page sample_comment_blocks))],
     Returned).
Proof.
  split; [reflexivity|].
  assert (Hin : Forall inside_comment sample_comment_blocks) by (repeat constructor).
  split; [exact Hin|].
  exact (threads_page_output plain plain sample_threads Completed
           sample_comment_blocks eq_refl Hin).
Defined.

(** X3, on the sample item page: the header, then its two comments. *)
Lemma item_page_output_witness :
  events_of sample_item = item_page sample_header sample_comment_blocks /\
  forallb is_header_event sample_header = true /\
  Forall inside_comment sample_comment_blocks /\
  outputs (commentsGenerator plain plain sample_item Completed) =
    OHeader (fix_header plain (built_header plain sample_header))
    :: numbered (kid plain (id_ (built_header plain sample_header))) 1
         (map (built_comment plain) sample_comment_blocks) /\
  last (commentsGenerator plain plain sample_item Completed) = Returned /\
  more (commentsGenerator plain plain sample_item Completed) =
    Some (Fulfilled "threads?id=pg&next=7").
Proof.
  split; [reflexivity|]. split; [reflexivity|].
  assert (Hin : Forall inside_comment sample_comment_blocks) by (repeat constructor).
  split; [exact Hin|].
  exact (item_page_output plain plain sample_item Completed sample_header
           sample_comment_blocks eq_refl eq_refl Hin).
Defined.

(** X4, on the sample page: the consumer that asks twice on the way
    receives what the consumer that asks at the end receives. *)
Lemma outputs_do_not_depend_on_schedule_witness :
  events_of sample_listing = events_of (map Ev (listing_page sample_blocks)) /\
  undisturbed (stories_handler plain) (stories_effect plain)
              (events_of sample_listing) init /\
  NoDup (sealed (stories_handler plain) (events_of sample_listing) init) /\
  storiesGenerator plain sample_listing Completed =
    storiesGenerator plain (map Ev (listing_page sample_blocks)) Completed.
Proof.
  assert (Hun : undisturbed (stories_handler plain) (stories_effect plain)
                            (events_of sample_listing) init).
  { vm_compute. repeat split; try discriminate;
      intros _ _ r Hr; injection Hr as <-; intuition discriminate. }
  assert (Hnd : NoDup (sealed (stories_handler plain) (events_of sample_listing) init)).
  { change (NoDup [0; 1]%nat). apply NoDup_cons. split.
    - intros Hin. apply list_elem_of_In in Hin. by destruct Hin as [[=]|[]].
    - apply NoDup_cons. split; [by intros Hin; inversion Hin|]. apply NoDup_nil. done. }
  split; [reflexivity|]. split; [exact Hun|]. split; [exact Hnd|].
  exact (proj1 (outputs_do_not_depend_on_schedule plain plain) sample_listing
           (map Ev (listing_page sample_blocks)) Completed eq_refl Hun Hnd).
Defined.

(** X8, on ' 45 comments'. *)
Lemma count_chunk_value_witness :
  all_ws " " = true /\ all_digits "45" = true /\ no_leading_digit " comments" = true /\
  score_write (score_text (" " +:+ "45" +:+ " comments"))
    = Some (Some (to_double (inject_Z (digits_value 0 "45")))) /\
  descendants_write (itemlink_text (" " +:+ "45" +:+ " comments"))
    = Some (Some (to_double (inject_Z (digits_value 0 "45")))) /\
  to_double (inject_Z (digits_value 0 "45")) = of_Z 45.
Proof.
  split; [reflexivity|]. split; [reflexivity|]. split; [reflexivity|].
  assert (Hne : "45" <> "") by discriminate.
  pose proof (count_chunk_value " " "45" " comments" eq_refl Hne eq_refl eq_refl)
    as (H1 & H2 & _).
  split; [exact H1|]. split; [exact H2 | reflexivity].
Defined.

(** X9, on the second listing of the sample page. *)
Lemma yielded_listing_is_well_formed_witness :
  In (ORecord 1 sample_job) (fst (storiesGenerator plain sample_listing Completed)) /\
  (type_ sample_job = Some "story" \/ type_ sample_job = Some "job") /\
  holds_count (score sample_job) /\ holds_count (descendants sample_job) /\
  is_Some (id_ sample_job) /\ is_Some (title sample_job) /\
  is_Some (by_ sample_job) /\ is_Some (timeAgo sample_job).
Proof.
  assert (Hin : In (ORecord 1 sample_job)
                   (fst (storiesGenerator plain sample_listing Completed)))
    by (right; left; reflexivity).
  split; [exact Hin|].
  exact (yielded_listing_is_well_formed plain sample_listing Completed 1%nat
           sample_job Hin).
Defined.

(** X10, on a page with a score before its first row. *)
Lemma write_before_first_record_aborts_witness :
  events_of stray_score
    = [yclinks] ++ score_text "7 points" :: [athing (row "1"); yclinks] /\
  Forall (fun x => touches (stories_effect plain x) = false) [yclinks] /\
  stories_effect plain (score_text "7 points")
    = Field (set_score (Some (parseInt "7 points"))) /\
  storiesGenerator plain stray_score Completed = ([], Pending).
Proof.
  split; [reflexivity|].
  assert (Hpre : Forall (fun x => touches (stories_effect plain x) = false) [yclinks])
    by (repeat constructor).
  split; [exact Hpre|]. split; [reflexivity|].
  exact (proj1 (write_before_first_record_aborts plain plain) stray_score Completed
           [yclinks] (score_text "7 points") [athing (row "1"); yclinks]
           (set_score (Some (parseInt "7 points"))) eq_refl Hpre eq_refl).
Defined.

(** X11, on the sample item page, which has no next-page anchor. *)
Lemma thread_continuation_settles_witness :
  no_throw (thread_handler plain) (events_of sample_thread) thread_init /\
  (exists h kids,
     outputs (commentsGenerator plain plain sample_thread Completed) = OHeader h :: kids /\
     forallb is_record kids = true) /\
  last (commentsGenerator plain plain sample_thread Completed) = Returned /\
  more (commentsGenerator plain plain sample_thread Completed) = Some (Fulfilled "").
Proof.
  split; [reflexivity|].
  exact (thread_continuation_settles plain plain sample_thread eq_refl).
Defined.

(** X12, on a comment and on a header whose text is two spaces. *)
Lemma blank_text_is_white_space_witness :
  text (comment_with_body "  ") = Some "  " /\ all_ws "  " = true /\
  fixComment plain (comment_with_body "  ") =
    set_text (Some " [flagged] ") (set_deleted (Some true) (comment_with_body "  ")) /\
  fix_header plain (comment_with_body "  ") = set_text None (comment_with_body "  ").
Proof.
  split; [reflexivity|]. split; [reflexivity|]. split.
  - exact (proj1 (proj1 (blank_text_is_white_space plain) (comment_with_body "  ")
                    "  " eq_refl) eq_refl).
  - exact (proj1 (proj2 (blank_text_is_white_space plain) (comment_with_body "  ")
                    "  " eq_refl) eq_refl).
Defined.

(** X13, on the reference of a reply link. *)
Lemma extractId_is_id_or_NaN_witness :
  all_digits "77" = true /\ no_leading_digit "&p=2" = true /\
  digits_value 0 "77" <= 2 ^ 53 /\
  extractId (Some ("item?id=" +:+ "77" +:+ "&p=2")) = of_Z 77.
Proof.
  split; [reflexivity|]. split; [reflexivity|].
  assert (Hne : "77" <> "") by discriminate.
  assert (Hle : digits_value 0 "77" <= 2 ^ 53) by (vm_compute; discriminate).
  split; [exact Hle|].
  exact (proj1 (proj2 (proj2 (proj2 extractId_is_id_or_NaN)))
           "77" "&p=2" Hne eq_refl eq_refl Hle).
Defined.

(** X14, on a profile page, and on one whose about cell holds a line
    break. *)
Lemma user_profile_witness :
  existsb user_throws sample_profile = false /\
  (exists u,
     user "pg" sample_profile Completed = Some u /\
     user_id u = "pg" /\ submitted u = [] /\
     created u = default None (list.last (omap created_write sample_profile)) /\
     karma u = default None (list.last (omap karma_write sample_profile)) /\
     (karma u = None \/ holds_count (karma u)) /\
     about u =
       Some (if all_ws (concat_chunks (omap about_piece sample_profile))
             then concat_chunks (omap about_piece sample_profile)
             else "<p>" +:+ trim (concat_chunks (omap about_piece sample_profile))) /\
     trim (trim (concat_chunks (omap about_piece sample_profile))) =
       trim (concat_chunks (omap about_piece sample_profile))) /\
  existsb user_throws broken_profile = true /\
  user "pg" broken_profile Completed = None.
Proof.
  split; [reflexivity|]. split.
  - exact (proj1 (user_profile "pg" sample_profile) eq_refl).
  - split; [reflexivity|].
    exact (proj1 (proj2 (user_profile "pg" broken_profile)) eq_refl).
Defined.
